(** * Phisap-Revived: the conservative pointer planner (algo/algo1.py)
      and the touch injection of the device controller (control.py)

    A shallow embedding of the planner and of [DeviceController.touch],
    with the properties stated about them.

    Modelling conventions.
    - Python [int] is [Z]; Python [float] is modelled by exact rationals
      [Q] (rounding is not modelled; no claim below depends on it).
    - A Python [dict] is an insertion-ordered association list; iteration
      visits the entries in list order.
    - [Pointer] objects are mutable and shared between the dictionaries of
      the manager, so the manager carries a heap of [Pointer] cells and the
      dictionaries hold addresses.
    - A raised exception is the [Raise] result of the error monad [Res].
    - The helpers of [algo_base] ([distance_of], [recalc_pos],
      [in_screen]), the [math] functions and the judge-line kinematics are
      not part of the planner; they are parameters.
    - [set.pop()] returns an arbitrary element; the choice is a parameter
      ([SetPop]). *)

From Stdlib Require Import QArith Qround Qabs.
From stdpp Require Import base option list sorting gmap.

Local Open Scope Z_scope.

(** ** Python dictionaries, in insertion order *)

Section Dict.
Context {V : Type}.

Fixpoint dict_get (k : Z) (d : list (Z * V)) : option V :=
  match d with
  | [] => None
  | (k', v) :: d' => if decide (k = k') then Some v else dict_get k d'
  end.

Definition dict_mem (k : Z) (d : list (Z * V)) : bool :=
  match dict_get k d with Some _ => true | None => false end.

(** [d[k] = v]: an existing key keeps its place, a new one goes last. *)
Fixpoint dict_set (k : Z) (v : V) (d : list (Z * V)) : list (Z * V) :=
  match d with
  | [] => [(k, v)]
  | (k', v') :: d' =>
      if decide (k = k') then (k, v) :: d' else (k', v') :: dict_set k v d'
  end.

(** [del d[k]]; [None] stands for the [KeyError]. *)
Fixpoint dict_del (k : Z) (d : list (Z * V)) : option (list (Z * V)) :=
  match d with
  | [] => None
  | (k', v') :: d' =>
      if decide (k = k') then Some d'
      else match dict_del k d' with
           | Some r => Some ((k', v') :: r)
           | None => None
           end
  end.

(** [d1 |= d2] *)
Definition dict_update (d1 d2 : list (Z * V)) : list (Z * V) :=
  fold_left (fun acc kv => dict_set (fst kv) (snd kv) acc) d2 d1.

Definition dict_keys (d : list (Z * V)) : list Z := fst <$> d.
Definition dict_values (d : list (Z * V)) : list V := snd <$> d.
End Dict.

(** ** Errors *)

Inductive PlanError :=
| KeyError (k : Z)
| ZeroDivisionError
| RuntimeError (n_unused n_pointers : nat) (at_ms : Z).

Inductive Res (A : Type) :=
| Ok (a : A)
| Raise (e : PlanError).
Arguments Ok {A} a.
Arguments Raise {A} e.

#[global] Instance Res_bind : MBind Res := fun A B f m =>
  match m with Ok a => f a | Raise e => Raise e end.

(** ** Floats *)

Abbreviation float := Q (only parsing).

Definition Qltb (a b : Q) : bool := negb (Qle_bool b a).

(** [int(q)]: truncation towards zero. *)
Definition py_int (q : Q) : Z := Z.quot (Qnum q) (Z.pos (Qden q)).

(** ** Data model *)

Definition point : Type := Q * Q.

Record Pointer := mkPointer {
  pid : Z;
  pos : point;
  timestamp : Z;
  occupied : Z
}.

Module FrameEventAction.
Inductive t :=
| TAP | DRAG | FLICK_START | FLICK | FLICK_END | HOLD_START | HOLD | HOLD_END.
End FrameEventAction.

Record FrameEvent := mkFrameEvent {
  action : FrameEventAction.t;
  fe_point : point;
  fe_id : Z
}.

Module TouchAction.
Inductive t := DOWN | UP | MOVE.
End TouchAction.

Record VirtualTouchEvent := mkVTE {
  vt_pos : point;
  vt_action : TouchAction.t;
  pointer_id : Z
}.

#[global] Instance TouchAction_eq_dec : EqDecision TouchAction.t.
Proof. solve_decision. Defined.

#[global] Instance FrameEventAction_eq_dec : EqDecision FrameEventAction.t.
Proof. solve_decision. Defined.

(** The choice made by [set.pop()].  The first argument is the number of
    earlier [pop] calls: CPython's choice depends on the history of the
    set, not on its elements alone. *)
Record SetPop := mkSetPop {
  set_pop : nat -> gset Z -> Z;
  set_pop_elem : forall n s, s <> ∅ -> set_pop n s ∈ s
}.

(** Addresses of [Pointer] objects. *)
Abbreviation addr := nat (only parsing).

Record PointerManager := mkPM {
  max_pointer_id : Z;
  pointers : list (Z * addr);        (* event id -> Pointer *)
  begin : Z;
  delta : Z;
  now : Z;
  recycled : gset Z;
  unused : list (Z * addr);          (* pid -> Pointer *)
  unused_now : list (Z * addr);      (* pid -> Pointer *)
  mark_as_released : list Z;
  heap : list Pointer;               (* the Pointer objects *)
  pops : nat                         (* ghost: [recycled.pop()] calls so far *)
}.

Definition null_pointer : Pointer := mkPointer 0 (0%Q, 0%Q) 0 0.

Definition deref (h : list Pointer) (a : addr) : Pointer :=
  default null_pointer (h !! a).

Definition set_max_pointer_id (v : Z) (m : PointerManager) :=
  mkPM v (pointers m) (begin m) (delta m) (now m) (recycled m) (unused m)
       (unused_now m) (mark_as_released m) (heap m) (pops m).
Definition set_pointers (v : list (Z * addr)) (m : PointerManager) :=
  mkPM (max_pointer_id m) v (begin m) (delta m) (now m) (recycled m) (unused m)
       (unused_now m) (mark_as_released m) (heap m) (pops m).
Definition set_now (v : Z) (m : PointerManager) :=
  mkPM (max_pointer_id m) (pointers m) (begin m) (delta m) v (recycled m)
       (unused m) (unused_now m) (mark_as_released m) (heap m) (pops m).
Definition set_recycled (v : gset Z) (m : PointerManager) :=
  mkPM (max_pointer_id m) (pointers m) (begin m) (delta m) (now m) v (unused m)
       (unused_now m) (mark_as_released m) (heap m) (pops m).
Definition set_unused (v : list (Z * addr)) (m : PointerManager) :=
  mkPM (max_pointer_id m) (pointers m) (begin m) (delta m) (now m) (recycled m)
       v (unused_now m) (mark_as_released m) (heap m) (pops m).
Definition set_unused_now (v : list (Z * addr)) (m : PointerManager) :=
  mkPM (max_pointer_id m) (pointers m) (begin m) (delta m) (now m) (recycled m)
       (unused m) v (mark_as_released m) (heap m) (pops m).
Definition set_mark_as_released (v : list Z) (m : PointerManager) :=
  mkPM (max_pointer_id m) (pointers m) (begin m) (delta m) (now m) (recycled m)
       (unused m) (unused_now m) v (heap m) (pops m).
Definition set_heap (v : list Pointer) (m : PointerManager) :=
  mkPM (max_pointer_id m) (pointers m) (begin m) (delta m) (now m) (recycled m)
       (unused m) (unused_now m) (mark_as_released m) v (pops m).
Definition set_pops (v : nat) (m : PointerManager) :=
  mkPM (max_pointer_id m) (pointers m) (begin m) (delta m) (now m) (recycled m)
       (unused m) (unused_now m) (mark_as_released m) (heap m) v.

(** [PointerManager.__init__]; [now] is assigned by [solve] before any use. *)
Definition PointerManager_init (begin_ : Z) (delta_ : Z) : PointerManager :=
  mkPM begin_ [] begin_ delta_ 0 ∅ [] [] [] [] 0.

(** The collaborators the planner is given: the helpers of [algo_base],
    the [math] functions and the set implementation. *)
Record Env := mkEnv {
  distance_of : point -> point -> float;
  recalc_pos : point -> float -> float -> point;
  in_screen : point -> bool;
  sin : float -> float;
  cos : float -> float;
  pi : float;
  pop : SetPop
}.

(** ** The pointer manager *)

Section Manager.
Variable E : Env.

(** [_new] *)
Definition _new (m : PointerManager) : Z * PointerManager :=
  if decide (recycled m = ∅) then
    (max_pointer_id m, set_max_pointer_id (max_pointer_id m + delta m) m)
  else
    let p := set_pop (pop E) (pops m) (recycled m) in
    (p, set_pops (S (pops m)) (set_recycled (recycled m ∖ {[p]}) m)).

(** [_del]: the test [len(recycled) == (max_pointer_id - begin) / delta]
    compares an integer with a true quotient. *)
Definition _del (pointer_id : Z) (m : PointerManager) : Res PointerManager :=
  let r := {[pointer_id]} ∪ recycled m in
  if decide (delta m = 0) then Raise ZeroDivisionError
  else if decide (Z.of_nat (size r) * delta m = max_pointer_id m - begin m)
  then Ok (set_recycled ∅ (set_max_pointer_id (begin m) m))
  else Ok (set_recycled r m).

Definition touch_pointer (a : addr) (ts : Z) (pt : point) (occ : option Z)
    (h : list Pointer) : list Pointer :=
  let p := deref h a in
  <[a := mkPointer (pid p) pt ts (default (occupied p) occ)]> h.

Definition nearest_distance : float := 120%Q.

Definition score_of (m : PointerManager) (pt : point) (ptr : Pointer) : float :=
  (distance_of E pt (pos ptr) + inject_Z (now m - timestamp ptr) / 50)%Q.

(** [score < min_score], where [None] is [float('inf')]. *)
Definition below (score : float) (min_score : option float) : bool :=
  match min_score with None => true | Some s => Qltb score s end.

(** One turn of the search loop of [acquire]. *)
Definition scan_step (m : PointerManager) (pt : point)
    (acc : option float * option Z) (kv : Z * addr) : option float * option Z :=
  let ptr := deref (heap m) (snd kv) in
  let distance := distance_of E pt (pos ptr) in
  let score := score_of m pt ptr in
  if below score (fst acc) && Qltb distance nearest_distance
  then (Some score, Some (pid ptr))
  else acc.

Definition scan (m : PointerManager) (pt : point) : option float * option Z :=
  fold_left (scan_step m pt) (unused m) (None, None).

Definition fresh_pointer (event : FrameEvent) (m : PointerManager)
    : PointerManager * (Z * bool) :=
  let '(p, m1) := _new m in
  let a := length (heap m1) in
  (set_pointers (dict_set (fe_id event) a (pointers m1))
     (set_heap (heap m1 ++ [mkPointer p (fe_point event) (now m1) 0]) m1),
   (p, true)).

(** [acquire] *)
Definition acquire (event : FrameEvent) (new : bool) (m : PointerManager)
    : Res (PointerManager * (Z * bool)) :=
  match dict_get (fe_id event) (pointers m) with
  | Some a =>
      Ok (set_heap (touch_pointer a (now m) (fe_point event) None (heap m)) m,
          (pid (deref (heap m) a), false))
  | None =>
      match (if new then None else snd (scan m (fe_point event))) with
      | Some nearest_pid =>
          match dict_get nearest_pid (unused m), dict_del nearest_pid (unused m) with
          | Some a, Some unused' =>
              Ok (set_pointers (dict_set (fe_id event) a (pointers m))
                    (set_heap (touch_pointer a (now m) (fe_point event) (Some 0) (heap m))
                       (set_unused unused' m)),
                  (pid (deref (heap m) a), false))
          | _, _ => Raise (KeyError nearest_pid)
          end
      | None => Ok (fresh_pointer event m)
      end
  end.

(** [release] *)
Definition release (event : FrameEvent) (m : PointerManager) : PointerManager :=
  match dict_get (fe_id event) (pointers m) with
  | Some a =>
      set_mark_as_released (mark_as_released m ++ [fe_id event])
        (set_unused_now (dict_set (pid (deref (heap m) a)) a (unused_now m)) m)
  | None => m
  end.

(** The items yielded by [recycle] and [finish]: [(pid, ts, pos)]. *)
Definition UpItem : Type := Z * Z * point.

Definition up_of (p : Pointer) : UpItem := (pid p, timestamp p + 1, pos p).

Fixpoint del_all (ks : list Z) (d : list (Z * addr)) : Res (list (Z * addr)) :=
  match ks with
  | [] => Ok d
  | k :: ks' =>
      match dict_del k d with
      | Some d' => del_all ks' d'
      | None => Raise (KeyError k)
      end
  end.

(** The keyframe loop of [recycle] over [unused.values()]; yields come
    out even when a later [_del] raises. *)
Fixpoint age (l : list addr) (m : PointerManager) (marked : list Z)
    : list UpItem * Res (PointerManager * list Z) :=
  match l with
  | [] => ([], Ok (m, marked))
  | a :: rest =>
      let p := deref (heap m) a in
      let p' := mkPointer (pid p) (pos p) (timestamp p) (occupied p + 1) in
      let m1 := set_heap (<[a := p']> (heap m)) m in
      if decide (1 < occupied p') then
        match _del (pid p') m1 with
        | Raise e => ([up_of p'], Raise e)
        | Ok m2 =>
            let '(ups, r) := age rest m2 (marked ++ [pid p']) in
            (up_of p' :: ups, r)
        end
      else age rest m1 marked
  end.

Definition max_on_screen : nat := 15.

(** The end of [recycle]: drop the marked pids, merge the quarantine,
    check the budget. *)
Definition settle (marked : list Z) (m : PointerManager) : Res PointerManager :=
  unused' ← del_all marked (unused m);
  let m' := set_unused_now [] (set_unused (dict_update unused' (unused_now m)) m) in
  if decide (max_on_screen < length (unused m') + length (pointers m'))%nat
  then Raise (RuntimeError (length (unused m')) (length (pointers m')) (now m'))
  else Ok m'.

(** [recycle]: the yielded items, and the manager afterwards or the
    exception raised. *)
Definition recycle (is_keyframe : bool) (m : PointerManager)
    : list UpItem * Res PointerManager :=
  match del_all (mark_as_released m) (pointers m) with
  | Raise e => ([], Raise e)
  | Ok pointers' =>
      let m1 := set_mark_as_released [] (set_pointers pointers' m) in
      let '(ups, r) :=
        if is_keyframe then age (dict_values (unused m1)) m1 []
        else ([], Ok (m1, [])) in
      (ups, '(m2, marked) ← r; settle marked m2)
  end.

(** [finish] *)
Definition finish (m : PointerManager) : list UpItem :=
  (fun a => up_of (deref (heap m) a)) <$>
    (dict_values (unused m) ++ dict_values (unused_now m) ++ dict_values (pointers m)).

End Manager.

(** ** Charts (external input) *)

Module NoteType.
Inductive t := TAP | DRAG | FLICK | HOLD.
End NoteType.

Record Note := mkNote {
  note_type : NoteType.t;
  note_time : float;
  note_x : float;
  note_hold : float
}.

Record JudgeLine := mkJudgeLine {
  seconds : float -> float;
  time : float -> float;
  line_pos : float -> point;
  angle : float -> float;
  pos_of : Note -> float -> point;
  notes_above : list Note;
  notes_below : list Note
}.

(** [chart.judge_lines] *)
Abbreviation Chart := (list JudgeLine) (only parsing).

(** ** Maps from milliseconds to event lists ([defaultdict(list)]) *)

Section Timeline.
Context {A : Type}.

(** [d[ms].append(x)] *)
Definition tl_append (ms : Z) (x : A) (d : gmap Z (list A)) : gmap Z (list A) :=
  <[ms := default [] (d !! ms) ++ [x]]> d.

Definition sorted_keys (d : gmap Z (list A)) : list Z :=
  merge_sort Z.le (elements (dom d)).

(** [sorted(d.items())]: the keys are distinct, so the order is that of
    the keys. *)
Definition sorted_items (d : gmap Z (list A)) : list (Z * list A) :=
  (fun k => (k, default [] (d !! k))) <$> sorted_keys d.

(** The entries in chronological order: by key, then by list position. *)
Definition chrono (d : gmap Z (list A)) : list (Z * A) :=
  sorted_items d ≫= (fun kv => pair (fst kv) <$> snd kv).
End Timeline.

Fixpoint fold_res {A S : Type} (f : S -> A -> Res S) (l : list A) (s : S) : Res S :=
  match l with
  | [] => Ok s
  | x :: l' => s' ← f s x; fold_res f l' s'
  end.

(** ** [solve] *)

Section Solve.
Variable E : Env.

Definition FLICK_START : Z := -20.
Definition FLICK_END : Z := 20.
Definition FLICK_DURATION : Z := FLICK_END - FLICK_START.
Definition FLICK_RADIUS : float := 40%Q.

Definition add_frame_event (milliseconds : Z) (act : FrameEventAction.t)
    (pt : point) (id : Z) (frames : gmap Z (list FrameEvent)) :=
  tl_append milliseconds (mkFrameEvent act pt id) frames.

Definition flick_pos (px py : float) (offset : Z) (sina cosa : float) : point :=
  let rate := (1 - inject_Z (2 * Z.abs offset) / inject_Z FLICK_DURATION)%Q in
  ((px - sina * FLICK_RADIUS * rate)%Q, (py + cosa * FLICK_RADIUS * rate)%Q).

(** The local variables [x, y, alpha, sa, ca, px, py] of the note loop. *)
Record Geometry := mkGeometry {
  g_x : float; g_y : float; g_alpha : float;
  g_sa : float; g_ca : float; g_px : float; g_py : float
}.

Definition geometry_at (line : JudgeLine) (off_x : float) (t : float) : Geometry :=
  let '(x, y) := line_pos line t in
  let alpha := (- angle line t * pi E / 180)%Q in
  let sa := sin E alpha in
  let ca := cos E alpha in
  mkGeometry x y alpha sa ca (x + off_x * ca)%Q (y + off_x * sa)%Q.

Definition g_point (g : Geometry) : point := (g_px g, g_py g).

(** The [for dt in range(-5, 6)] search with its [break]. *)
Fixpoint micro_adjust (line : JudgeLine) (off_x : float) (t : float)
    (dts : list Z) : option Geometry :=
  match dts with
  | [] => None
  | dt :: rest =>
      let g := geometry_at line off_x (t + inject_Z dt)%Q in
      if in_screen E (g_point g) then Some g else micro_adjust line off_x t rest
  end.

(** The geometry a FLICK is synthesized from. *)
Definition flick_geometry (line : JudgeLine) (event : Note) : Geometry :=
  let off_x := (note_x event * 72)%Q in
  let g := geometry_at line off_x (note_time event) in
  if in_screen E (g_point g) then g
  else match micro_adjust line off_x (note_time event) (seqZ (-5) 11) with
       | Some g' => g'
       | None =>
           let '(px, py) := recalc_pos E (g_point g) (g_sa g) (g_ca g) in
           mkGeometry (g_x g) (g_y g) (g_alpha g) (g_sa g) (g_ca g) px py
       end.

Definition note_ms (line : JudgeLine) (event : Note) : Z :=
  py_int (seconds line (note_time event) * 1000 + (1 # 2))%Q.

Definition hold_ms_of (line : JudgeLine) (event : Note) : Z :=
  Qceiling (seconds line (note_hold event) * 1000)%Q.

Definition flick_offsets : list Z :=
  filter (fun offset => offset mod 2 = 0 \/ offset = FLICK_END - 1)
    (seqZ (FLICK_START + 1) (FLICK_END - (FLICK_START + 1))).

Definition hold_offsets (hold_ms : Z) : list Z :=
  let step := Z.max 1 (hold_ms / 20) in
  filter (fun offset => offset mod step = 0 \/ offset = hold_ms - 1)
    (seqZ 1 (hold_ms - 1)).

(** The [add_frame_event] calls made for one note, in order. *)
Definition note_events (line : JudgeLine) (event : Note) (current_event_id : Z)
    : list (Z * FrameEvent) :=
  let ms := note_ms line event in
  let g := geometry_at line (note_x event * 72)%Q (note_time event) in
  match note_type event with
  | NoteType.TAP =>
      [(ms, mkFrameEvent FrameEventAction.TAP (recalc_pos E (g_point g) (g_sa g) (g_ca g)) current_event_id)]
  | NoteType.DRAG =>
      [(ms, mkFrameEvent FrameEventAction.DRAG (recalc_pos E (g_point g) (g_sa g) (g_ca g)) current_event_id)]
  | NoteType.FLICK =>
      let g := flick_geometry line event in
      let at_ offset :=
        recalc_pos E (flick_pos (g_px g) (g_py g) offset (g_sa g) (g_ca g)) (g_sa g) (g_ca g) in
      [(ms + FLICK_START, mkFrameEvent FrameEventAction.FLICK_START (at_ FLICK_START) current_event_id)]
      ++ ((fun offset => (ms + offset, mkFrameEvent FrameEventAction.FLICK (at_ offset) current_event_id))
            <$> flick_offsets)
      ++ [(ms + FLICK_END, mkFrameEvent FrameEventAction.FLICK_END (at_ FLICK_END) current_event_id)]
  | NoteType.HOLD =>
      let hold_ms := hold_ms_of line event in
      let at_ offset :=
        recalc_pos E (pos_of line event (time line (inject_Z (ms + offset) / 1000)%Q))
          (g_sa g) (g_ca g) in
      [(ms, mkFrameEvent FrameEventAction.HOLD_START (recalc_pos E (g_point g) (g_sa g) (g_ca g)) current_event_id)]
      ++ ((fun offset => (ms + offset, mkFrameEvent FrameEventAction.HOLD (at_ offset) current_event_id))
            <$> hold_offsets hold_ms)
      ++ [(ms + hold_ms, mkFrameEvent FrameEventAction.HOLD_END (at_ hold_ms) current_event_id)]
  end.

Definition add_events (evs : list (Z * FrameEvent)) (frames : gmap Z (list FrameEvent)) :=
  fold_left (fun fr e => add_frame_event (fst e) (action (snd e)) (fe_point (snd e))
                           (fe_id (snd e)) fr) evs frames.

(** The body of the note loop: the frames and [current_event_id]. *)
Definition synth_note (line : JudgeLine) (st : gmap Z (list FrameEvent) * Z)
    (event : Note) : gmap Z (list FrameEvent) * Z :=
  (add_events (note_events line event (snd st)) (fst st), snd st + 1).

Definition synth_line (st : gmap Z (list FrameEvent) * Z) (line : JudgeLine) :=
  fold_left (synth_note line) (notes_above line ++ notes_below line) st.

(** The first loop of [solve]: the frames of a chart. *)
Definition synthesize (chart : Chart) : gmap Z (list FrameEvent) :=
  fst (fold_left synth_line chart (∅, 0)).

Definition add_touch_event (milliseconds : Z) (ps : point) (act : TouchAction.t)
    (pointer_id : Z) (result : gmap Z (list VirtualTouchEvent)) :=
  tl_append milliseconds (mkVTE ps act pointer_id) result.

Definition PlanState : Type := PointerManager * gmap Z (list VirtualTouchEvent) * bool.

(** One turn of [for event in frame]: the manager, the result so far and
    [is_keyframe]. *)
Definition handle (ms : Z) (st : PlanState) (event : FrameEvent) : Res PlanState :=
  let '(m, result, is_keyframe) := st in
  match action event with
  | FrameEventAction.TAP =>
      '(m1, (p, _)) ← acquire E event true m;
      Ok (release event m1, add_touch_event ms (fe_point event) TouchAction.DOWN p result, true)
  | FrameEventAction.DRAG =>
      '(m1, (p, new)) ← acquire E event false m;
      let act := if (new : bool) then TouchAction.DOWN else TouchAction.MOVE in
      Ok (release event m1, add_touch_event ms (fe_point event) act p result, is_keyframe)
  | FrameEventAction.FLICK_START =>
      '(m1, (p, new)) ← acquire E event false m;
      let act := if (new : bool) then TouchAction.DOWN else TouchAction.MOVE in
      Ok (m1, add_touch_event ms (fe_point event) act p result, is_keyframe)
  | FrameEventAction.FLICK | FrameEventAction.HOLD =>
      '(m1, (p, _)) ← acquire E event true m;
      Ok (m1, add_touch_event ms (fe_point event) TouchAction.MOVE p result, is_keyframe)
  | FrameEventAction.FLICK_END | FrameEventAction.HOLD_END =>
      '(m1, (p, _)) ← acquire E event true m;
      Ok (release event m1, add_touch_event ms (fe_point event) TouchAction.MOVE p result, is_keyframe)
  | FrameEventAction.HOLD_START =>
      '(m1, (p, _)) ← acquire E event true m;
      Ok (m1, add_touch_event ms (fe_point event) TouchAction.DOWN p result, true)
  end.

Definition add_ups (ups : list UpItem) (result : gmap Z (list VirtualTouchEvent)) :=
  fold_left (fun res u => add_touch_event (snd (fst u)) (snd u) TouchAction.UP (fst (fst u)) res)
    ups result.

(** One turn of the planning loop: a frame, then [recycle]. *)
Definition plan_frame (st : PointerManager * gmap Z (list VirtualTouchEvent))
    (item : Z * list FrameEvent) : Res (PointerManager * gmap Z (list VirtualTouchEvent)) :=
  let ms := fst item in
  '(m1, result, is_keyframe) ← fold_res (handle ms) (snd item) (set_now ms (fst st), snd st, false);
  let '(ups, r) := recycle is_keyframe m1 in
  m2 ← r;
  Ok (m2, add_ups ups result).

Definition plan (batches : list (Z * list FrameEvent))
    : Res (PointerManager * gmap Z (list VirtualTouchEvent)) :=
  fold_res plan_frame batches (PointerManager_init 1000 1, ∅).

Definition plan_and_finish (batches : list (Z * list FrameEvent))
    : Res (gmap Z (list VirtualTouchEvent)) :=
  '(m, result) ← plan batches;
  Ok (add_ups (finish m) result).

Definition solve (chart : Chart) : Res (gmap Z (list VirtualTouchEvent)) :=
  plan_and_finish (sorted_items (synthesize chart)).

End Solve.

(** ** The device controller: [DeviceController.touch] (control.py) *)

Module Control.

(** The exception classes [struct.pack] and [socket.send] raise; all of
    them derive from [Exception].  Asynchronous [BaseException]s such as
    [KeyboardInterrupt] are outside the model. *)
Inductive exn :=
| struct_error
| BrokenPipeError
| ConnectionResetError
| OSError
| OtherException.

(** [isinstance(e, (BrokenPipeError, ConnectionResetError, OSError))] *)
Definition is_connection_error (e : exn) : bool :=
  match e with
  | BrokenPipeError | ConnectionResetError | OSError => true
  | struct_error | OtherException => false
  end.

(** [isinstance(e, Exception)] *)
Definition is_exception (e : exn) : bool := true.

Inductive outcome (A : Type) :=
| Returned (a : A)
| Propagated (e : exn).
Arguments Returned {A} a.
Arguments Propagated {A} e.

Inductive LogRecord :=
| SocketConnectionLost (e : exn)     (* "Socket connection lost: {e}" *)
| FailedToSendTouchEvent (e : exn).  (* "Failed to send touch event: {e}" *)

Record DeviceController := mkController {
  device_width : Z;
  device_height : Z;
  collector_running : bool;
  wire : list (list Z);       (* what [control_socket.send] was given *)
  log : list LogRecord        (* [logger.error] calls *)
}.

(** [TouchAction.value] of control.py *)
Definition value (a : TouchAction.t) : Z :=
  match a with
  | TouchAction.DOWN => 0
  | TouchAction.UP => 1
  | TouchAction.MOVE => 2
  end.

(** The [n] bytes of [v], most significant first (two's complement). *)
Fixpoint be_bytes (n : nat) (v : Z) : list Z :=
  match n with
  | O => []
  | S n' => Z.land (Z.shiftr v (8 * Z.of_nat n')) 255 :: be_bytes n' v
  end.

(** One field of [struct.pack]: a range check, then the bytes. *)
Definition pack_field (lo hi : Z) (n : nat) (v : Z) : outcome (list Z) :=
  if decide (lo <= v <= hi) then Returned (be_bytes n v) else Propagated struct_error.

Definition pack_b := pack_field (-128) 127 1.
Definition pack_Q := pack_field 0 (2 ^ 64 - 1) 8.
Definition pack_i := pack_field (- 2 ^ 31) (2 ^ 31 - 1) 4.
Definition pack_H := pack_field 0 (2 ^ 16 - 1) 2.
Definition pack_I := pack_field 0 (2 ^ 32 - 1) 4.

Fixpoint pack_all (fields : list (outcome (list Z))) : outcome (list Z) :=
  match fields with
  | [] => Returned []
  | Returned bs :: rest =>
      match pack_all rest with
      | Returned bs' => Returned (bs ++ bs')
      | Propagated e => Propagated e
      end
  | Propagated e :: _ => Propagated e
  end.

(** [struct.pack('!bbQiiHHHII', 2, action.value, pointer_id, x, y,
    device_width, device_height, 0xFFFF, 1, 1)] *)
Definition pack_touch (action : TouchAction.t) (pointer_id x y w h : Z) : outcome (list Z) :=
  pack_all [pack_b 2; pack_b (value action); pack_Q pointer_id; pack_i x; pack_i y;
            pack_H w; pack_H h; pack_H 65535; pack_I 1; pack_I 1].

Definition clamp (v bound : Z) : Z := Z.max 0 (Z.min v (bound - 1)).

(** The [try] block of [touch]: pack, then send.  [send] is the control
    socket: it returns normally or raises. *)
Definition touch_try (send : list Z -> outcome unit) (x y : Z)
    (action : TouchAction.t) (pointer_id : Z) (c : DeviceController)
    : outcome DeviceController :=
  match pack_touch action pointer_id x y (device_width c) (device_height c) with
  | Propagated e => Propagated e
  | Returned data =>
      match send data with
      | Propagated e => Propagated e
      | Returned _ =>
          Returned (mkController (device_width c) (device_height c)
                      (collector_running c) (wire c ++ [data]) (log c))
      end
  end.

(** [touch]: the clamping, the [try] block and its two [except] clauses. *)
Definition touch (send : list Z -> outcome unit) (x y : Z)
    (action : TouchAction.t) (pointer_id : Z) (c : DeviceController)
    : outcome DeviceController :=
  let x := clamp x (device_width c) in
  let y := clamp y (device_height c) in
  match touch_try send x y action pointer_id c with
  | Returned c' => Returned c'
  | Propagated e =>
      if is_connection_error e then
        Returned (mkController (device_width c) (device_height c) false (wire c)
                    (log c ++ [SocketConnectionLost e]))
      else if is_exception e then
        Returned (mkController (device_width c) (device_height c)
                    (collector_running c) (wire c)
                    (log c ++ [FailedToSendTouchEvent e]))
      else Propagated e
  end.

End Control.
(** ** The device controller: [tap] and [swipe] (control.py) *)

Module ControlOps.
Import Control.

(** What leaves [tap] and [swipe]: [time.sleep] refuses a negative length,
    [duration / steps] divides, and [touch] lets through what its [except]
    clauses do not catch. *)
Inductive op_exn :=
| ValueError
| ZeroDivisionError
| Uncaught (e : exn).

Inductive Call :=
| Touch (x y : Z) (action : TouchAction.t) (pointer_id : Z)
| Sleep (seconds : Q).

(** The control socket: what its [n]-th [send] does with the data. *)
Definition Socket : Type := nat -> list Z -> outcome unit.

Record Session := mkSession {
  ctrl : DeviceController;
  sends : nat;          (* ghost: [control_socket.send] calls so far *)
  calls : list Call     (* ghost: the [touch] calls and the [time.sleep]s of
                           [tap] and [swipe], in order *)
}.

Inductive result (A : Type) :=
| Done (a : A)
| Raised (e : op_exn).
Arguments Done {A} a.
Arguments Raised {A} e.

(** Statements run on a session; what they changed stays when they raise. *)
Definition M (A : Type) : Type := Session -> Session * result A.

Definition raise {A} (e : op_exn) : M A := fun s => (s, Raised e).

#[global] Instance M_ret : MRet M := fun A a s => (s, Done a).
#[global] Instance M_bind : MBind M := fun A B f m s =>
  match m s with
  | (s', Done a) => f a s'
  | (s', Raised e) => (s', Raised e)
  end.

(** Whether [touch] gets as far as [control_socket.send]. *)
Definition packs (x y : Z) (action : TouchAction.t) (pointer_id : Z)
    (c : DeviceController) : bool :=
  match pack_touch action pointer_id (clamp x (device_width c)) (clamp y (device_height c))
          (device_width c) (device_height c) with
  | Returned _ => true
  | Propagated _ => false
  end.

(** [self.touch(x, y, action, pointer_id)] *)
Definition touch_call (sock : Socket) (x y : Z) (action : TouchAction.t)
    (pointer_id : Z) : M unit := fun s =>
  let called := calls s ++ [Touch x y action pointer_id] in
  match touch (sock (sends s)) x y action pointer_id (ctrl s) with
  | Returned c' =>
      (mkSession c' (if packs x y action pointer_id (ctrl s) then S (sends s) else sends s)
         called, Done tt)
  | Propagated e => (mkSession (ctrl s) (sends s) called, Raised (Uncaught e))
  end.

(** [time.sleep(seconds)] *)
Definition sleep (seconds : Q) : M unit := fun s =>
  if Qlt_le_dec seconds 0 then (s, Raised ValueError)
  else (mkSession (ctrl s) (sends s) (calls s ++ [Sleep seconds]), Done tt).

(** [tap] *)
Definition tap (sock : Socket) (x y : Z) (pointer_id : Z) (delay : Q) : M unit :=
  touch_call sock x y TouchAction.DOWN pointer_id ;;
  sleep delay ;;
  touch_call sock x y TouchAction.UP pointer_id.

(** [int(start + (end - start) * ratio)] *)
Definition lerp (start end_ : Z) (ratio : Q) : Z :=
  py_int (inject_Z start + inject_Z (end_ - start) * ratio)%Q.

(** The [for i in range(1, steps)] loop of [swipe]. *)
Fixpoint swipe_loop (sock : Socket) (start_x start_y end_x end_y : Z) (steps : Z)
    (step_delay : Q) (range : list Z) : M unit :=
  match range with
  | [] => mret tt
  | i :: rest =>
      let ratio := (inject_Z i / inject_Z steps)%Q in
      let x := lerp start_x end_x ratio in
      let y := lerp start_y end_y ratio in
      touch_call sock x y TouchAction.MOVE 1000 ;;
      sleep step_delay ;;
      swipe_loop sock start_x start_y end_x end_y steps step_delay rest
  end.

(** [swipe] *)
Definition swipe (sock : Socket) (start_x start_y end_x end_y : Z) (duration : Q)
    (steps : Z) : M unit :=
  touch_call sock start_x start_y TouchAction.DOWN 1000 ;;
  step_delay ← (if decide (steps = 0) then raise ZeroDivisionError
                else mret (duration / inject_Z steps)%Q);
  swipe_loop sock start_x start_y end_x end_y steps step_delay (seqZ 1 (steps - 1)) ;;
  touch_call sock end_x end_y TouchAction.UP 1000.

(** The unsigned value of bytes, most significant first. *)
Definition be_value (bs : list Z) : Z := fold_left (fun acc b => acc * 256 + b) bs 0.

(** The fields of a touch packet, read back by offset. *)
Definition unpack_touch (data : list Z) : list Z :=
  [be_value (take 1 data);
   be_value (take 1 (drop 1 data));
   be_value (take 8 (drop 2 data));
   be_value (take 4 (drop 10 data));
   be_value (take 4 (drop 14 data));
   be_value (take 2 (drop 18 data));
   be_value (take 2 (drop 20 data));
   be_value (take 2 (drop 22 data));
   be_value (take 4 (drop 24 data));
   be_value (take 4 (drop 28 data))].

Definition touch_fields (action : TouchAction.t) (pointer_id x y w h : Z) : list Z :=
  [2; value action; pointer_id; x; y; w; h; 65535; 1; 1].

(** The value ranges of the format [!bbQiiHHHII] that the arguments of
    [touch] can miss. *)
Definition fits (pointer_id w h : Z) : Prop :=
  0 <= pointer_id < 2 ^ 64 /\ 0 <= w < 2 ^ 16 /\ 0 <= h < 2 ^ 16.

(** The touches and sleeps of one turn of the loop of [swipe]. *)
Definition swipe_turn (start_x start_y end_x end_y steps : Z) (step_delay : Q) (i : Z)
    : list Call :=
  [Touch (lerp start_x end_x (inject_Z i / inject_Z steps))
         (lerp start_y end_y (inject_Z i / inject_Z steps)) TouchAction.MOVE 1000;
   Sleep step_delay].

End ControlOps.


(** * Definitions used to state the properties *)

(** The synthesizer state when a note is reached: the lines [pre] are done,
    and so are the notes [before] of the current line. *)
Definition synth_upto (E : Env) (pre : list JudgeLine) (line : JudgeLine)
    (before : list Note) : gmap Z (list FrameEvent) * Z :=
  fold_left (synth_note E line) before (fold_left (synth_line E) pre (∅, 0)).

Definition frame_ids_below (st : gmap Z (list FrameEvent) * Z) : Prop :=
  forall t ev, ev ∈ default [] (fst st !! t) -> 0 <= fe_id ev < snd st.


(** * The structure of the manager *)

Definition pid_of (m : PointerManager) (a : addr) : Z := pid (deref (heap m) a).

(** The Pointer objects in use: those of [pointers] and those of [unused]
    (the ones of [unused_now] are still in [pointers]). *)
Definition live (m : PointerManager) : list addr :=
  dict_values (pointers m) ++ dict_values (unused m).

(** [p] is one of the first [n] pids handed out from [begin] in steps of
    [delta]. *)
Definition allocated_below (m : PointerManager) (n : nat) (p : Z) : Prop :=
  exists i : nat, (i < n)%nat /\ p = begin m + Z.of_nat i * delta m.

(** The id allocator agrees with the objects [lv] in use. *)
Record alloc_ok (m : PointerManager) (lv : list addr) : Prop := mkAllocOk {
  ok_delta : delta m <> 0;
  ok_valid : forall a, a ∈ lv -> (a < length (heap m))%nat;
  ok_nodup : NoDup lv;
  ok_inj : forall a b, a ∈ lv -> b ∈ lv -> pid_of m a = pid_of m b -> a = b;
  ok_range : exists n : nat,
      max_pointer_id m = begin m + Z.of_nat n * delta m
      /\ (forall p, p ∈ recycled m -> allocated_below m n p)
      /\ (forall a, a ∈ lv -> allocated_below m n (pid_of m a));
  ok_disjoint : forall a, a ∈ lv -> pid_of m a ∉ recycled m
}.

Record pm_inv (m : PointerManager) : Prop := mkPmInv {
  inv_alloc : alloc_ok m (live m);
  inv_pointer_keys : NoDup (dict_keys (pointers m));
  inv_unused_keys : NoDup (dict_keys (unused m));
  inv_now_keys : NoDup (dict_keys (unused_now m));
  inv_unused_pid : forall k a, (k, a) ∈ unused m -> pid_of m a = k;
  inv_now : forall k a, (k, a) ∈ unused_now m ->
      pid_of m a = k /\ exists e, (e, a) ∈ pointers m /\ e ∈ mark_as_released m;
  inv_marks : forall e, e ∈ mark_as_released m ->
      exists a, (e, a) ∈ pointers m /\ (pid_of m a, a) ∈ unused_now m
}.

(** The states the planner can bring the manager to. *)
Inductive reachable (E : Env) : PointerManager -> Prop :=
| reach_init begin_ :
    reachable E (PointerManager_init begin_ 1)
| reach_now m ms :
    reachable E m -> reachable E (set_now ms m)
| reach_acquire m event new m' r :
    reachable E m -> acquire E event new m = Ok (m', r) -> reachable E m'
| reach_release m event :
    reachable E m -> reachable E (release event m)
| reach_recycle m is_keyframe ups m' :
    reachable E m -> recycle is_keyframe m = (ups, Ok m') -> reachable E m'.

Definition aged (p : Pointer) : Pointer :=
  mkPointer (pid p) (pos p) (timestamp p) (occupied p + 1).

(** The pointer at [a] is sent UP by the next keyframe. *)
Definition expired (h : list Pointer) (a : addr) : Prop :=
  1 < occupied (deref h a) + 1.

#[global] Instance expired_dec h a : Decision (expired h a).
Proof. unfold expired. apply _. Defined.

Definition age_heap (l : list addr) (h : list Pointer) : list Pointer :=
  fold_left (fun h a => <[a := aged (deref h a)]> h) l h.

Definition free_all (pids : list Z) (m : PointerManager) : Res PointerManager :=
  fold_res (fun m p => _del p m) pids m.

(** The pids handed out so far, as a set. *)
Definition handed_out (m : PointerManager) (n : nat) : gset Z :=
  list_to_set ((fun i : nat => begin m + Z.of_nat i * delta m) <$> seq 0 n).

(** The objects [recycle] sends UP. *)
Definition expiring (is_keyframe : bool) (m : PointerManager) : list addr :=
  if is_keyframe then filter (expired (heap m)) (dict_values (unused m)) else [].


(** The manager [recycle] leaves when the budget holds. *)
Definition recycled_state (is_keyframe : bool) (m mf : PointerManager) : PointerManager :=
  set_unused_now []
    (set_unused (filter (fun kv => snd kv ∉ expiring is_keyframe m) (unused m) ++ unused_now m)
       (set_mark_as_released []
          (set_pointers (filter (fun kv => fst kv ∉ mark_as_released m) (pointers m))
             (set_heap (if is_keyframe
                        then age_heap (dict_values (unused m)) (heap m)
                        else heap m) mf)))).

(** * Definitions for the touch sequences *)

Section TimelineSel.
Context {A : Type} (P : A -> Prop) `{!forall x, Decision (P x)}.

Definition events_at (d : gmap Z (list A)) (k : Z) : list A := default [] (d !! k).

(** The entries satisfying [P], in chronological order. *)
Definition chrono_sel (d : gmap Z (list A)) : list A :=
  filter P (snd <$> chrono d).

(** No entry satisfying [P] lies after [t]. *)
Definition none_after (d : gmap Z (list A)) (t : Z) : Prop :=
  forall k x, x ∈ events_at d k -> P x -> k <= t.

End TimelineSel.

(** The actions of pointer [p] in chronological order: by ms key, then by
    position in the list of that ms. *)
Definition pid_actions (result : gmap Z (list VirtualTouchEvent)) (p : Z)
    : list TouchAction.t :=
  vt_action <$> chrono_sel (fun e => pointer_id e = p) result.

(** The regular language [DOWN MOVE* UP]. *)
Fixpoint moves_then_up (l : list TouchAction.t) : bool :=
  match l with
  | [TouchAction.UP] => true
  | TouchAction.MOVE :: l' => moves_then_up l'
  | _ => false
  end.

Definition is_run (l : list TouchAction.t) : bool :=
  match l with
  | TouchAction.DOWN :: l' => moves_then_up l'
  | _ => false
  end.

(** Whether a pointer is on the screen. *)
Inductive touch_state := Lifted | Touching.

Definition touch_step (s : touch_state) (a : TouchAction.t) : option touch_state :=
  match s, a with
  | Lifted, TouchAction.DOWN => Some Touching
  | Touching, TouchAction.MOVE => Some Touching
  | Touching, TouchAction.UP => Some Lifted
  | _, _ => None
  end.

Definition touch_run (s : touch_state) (l : list TouchAction.t) : option touch_state :=
  fold_left (fun os a => os ≫= fun s => touch_step s a) l (Some s).

(** A concatenation of runs [DOWN MOVE* UP]. *)
Definition balanced (l : list TouchAction.t) : Prop := touch_run Lifted l = Some Lifted.

Definition pstate (result : gmap Z (list VirtualTouchEvent)) (p : Z) : option touch_state :=
  touch_run Lifted (pid_actions result p).

Definition pid_keys_le (result : gmap Z (list VirtualTouchEvent)) (p t : Z) : Prop :=
  none_after (fun e => pointer_id e = p) result t.

(** The output so far agrees with the manager: a pointer in use is on the
    screen and was last written at its timestamp; every other pid is
    lifted; nothing is written after [t]. *)
Record trace_inv (t : Z) (m : PointerManager)
    (result : gmap Z (list VirtualTouchEvent)) : Prop := mkTraceInv {
  tr_live : forall a, a ∈ live m ->
      pstate result (pid_of m a) = Some Touching
      /\ pid_keys_le result (pid_of m a) (timestamp (deref (heap m) a))
      /\ timestamp (deref (heap m) a) <= t;
  tr_idle : forall p, (forall a, a ∈ live m -> pid_of m a <> p) ->
      pstate result p = Some Lifted /\ pid_keys_le result p t
}.

Inductive gesture_state := Fresh | Open | Closed.

(** The frame events of one note, in the order the planner meets them: a
    TAP or a DRAG alone, or a start, samples, and an end. *)
Definition gesture_step (s : gesture_state) (a : FrameEventAction.t)
    : option gesture_state :=
  match s, a with
  | Fresh, (FrameEventAction.TAP | FrameEventAction.DRAG) => Some Closed
  | Fresh, (FrameEventAction.FLICK_START | FrameEventAction.HOLD_START) => Some Open
  | Open, (FrameEventAction.FLICK | FrameEventAction.HOLD) => Some Open
  | Open, (FrameEventAction.FLICK_END | FrameEventAction.HOLD_END) => Some Closed
  | _, _ => None
  end.

Definition gesture_run (s : gesture_state) (l : list FrameEventAction.t)
    : option gesture_state :=
  fold_left (fun os a => os ≫= fun s => gesture_step s a) l (Some s).

Definition gesture_of (id : Z) (evs : list FrameEvent) : list FrameEventAction.t :=
  action <$> filter (fun e => fe_id e = id) evs.

(** Every event id is used for one well-formed gesture. *)
Definition disciplined (evs : list FrameEvent) : Prop :=
  forall id, is_Some (gesture_run Fresh (gesture_of id evs)).

(** The event ids bound in [pointers] are those of the gestures under way. *)
Definition gesture_inv (done : list FrameEvent) (m : PointerManager) : Prop :=
  forall id,
    match gesture_run Fresh (gesture_of id done) with
    | Some Fresh => id ∉ dict_keys (pointers m)
    | Some Open => id ∈ dict_keys (pointers m) /\ id ∉ mark_as_released m
    | Some Closed => True
    | None => False
    end.

Record plan_inv (done : list FrameEvent) (m : PointerManager)
    (result : gmap Z (list VirtualTouchEvent)) : Prop := mkPlanInv {
  pi_struct : pm_inv m;
  pi_trace : trace_inv (now m) m result;
  pi_gesture : gesture_inv done m
}.

(** The action [handle] writes for an event, given whether the pid is
    fresh. *)
Definition written (a : FrameEventAction.t) (fresh : bool) : TouchAction.t :=
  match a with
  | FrameEventAction.TAP | FrameEventAction.HOLD_START => TouchAction.DOWN
  | FrameEventAction.DRAG | FrameEventAction.FLICK_START =>
      if fresh then TouchAction.DOWN else TouchAction.MOVE
  | _ => TouchAction.MOVE
  end.

Definition acquires_new (a : FrameEventAction.t) : bool :=
  match a with
  | FrameEventAction.DRAG | FrameEventAction.FLICK_START => false
  | _ => true
  end.

Definition releases (a : FrameEventAction.t) : bool :=
  match a with
  | FrameEventAction.TAP | FrameEventAction.DRAG
  | FrameEventAction.FLICK_END | FrameEventAction.HOLD_END => true
  | _ => false
  end.

(** The frames come in strictly ascending ms, none before [t]. *)
Fixpoint ascending (t : Z) (batches : list (Z * list FrameEvent)) : Prop :=
  match batches with
  | [] => True
  | item :: rest => t <= fst item /\ ascending (fst item + 1) rest
  end.

(** The events of the frames in the order the planner handles them. *)
Definition flatten (batches : list (Z * list FrameEvent)) : list FrameEvent :=
  batches ≫= snd.

(** Between two frames. *)
Record frame_inv (t : Z) (done : list FrameEvent) (m : PointerManager)
    (result : gmap Z (list VirtualTouchEvent)) : Prop := mkFrameInv {
  fi_struct : pm_inv m;
  fi_now : unused_now m = [];
  fi_trace : trace_inv t m result;
  fi_gesture : gesture_inv done m
}.

(** No HOLD note of the chart ends before it starts. *)
Definition holds_nonneg (chart : list JudgeLine) : Prop :=
  forall line event, line ∈ chart -> event ∈ notes_above line ++ notes_below line ->
    note_type event = NoteType.HOLD -> 0 <= hold_ms_of line event.

(** The frame events of id [id] in chronological order. *)
Definition id_events (id : Z) (frames : gmap Z (list FrameEvent)) : list FrameEvent :=
  chrono_sel (fun e => fe_id e = id) frames.

(** Every event id of the frames so far has a complete gesture. *)
Definition gestures_closed (frames : gmap Z (list FrameEvent)) : Prop :=
  forall id, is_Some (gesture_run Fresh (action <$> id_events id frames)).

(** Pointer id [p] occurs in the output. *)
Definition appears (result : gmap Z (list VirtualTouchEvent)) (p : Z) : Prop :=
  exists ms e, e ∈ events_at result ms /\ pointer_id e = p.

(** * Definitions for further properties *)

(** TAP and HOLD_START make a frame a keyframe. *)
Definition is_key (a : FrameEventAction.t) : bool :=
  match a with
  | FrameEventAction.TAP | FrameEventAction.HOLD_START => true
  | _ => false
  end.

(** The [occupied] counters: 0 on a bound pointer, 0 or 1 on an idle one. *)
Definition occupied_ok (m : PointerManager) : Prop :=
  (forall a, a ∈ dict_values (pointers m) -> occupied (deref (heap m) a) = 0)
  /\ (forall a, a ∈ dict_values (unused m) ->
        occupied (deref (heap m) a) = 0 \/ occupied (deref (heap m) a) = 1).

(** The notes of a chart in the order [solve] visits them, each with its
    line. *)
Definition chart_notes (chart : list JudgeLine) : list (JudgeLine * Note) :=
  chart ≫= fun line => pair line <$> (notes_above line ++ notes_below line).

(** The [add_frame_event] calls of the first loop of [solve], in order,
    when the event ids start at [id]. *)
Fixpoint calls_from (E : Env) (id : Z) (notes : list (JudgeLine * Note))
    : list (Z * FrameEvent) :=
  match notes with
  | [] => []
  | (line, event) :: rest => note_events E line event id ++ calls_from E (id + 1) rest
  end.

Definition chart_calls (E : Env) (chart : list JudgeLine) : list (Z * FrameEvent) :=
  calls_from E 0 (chart_notes chart).

(** The event that ends the gesture of an id. *)
Definition releases_id (ev : FrameEvent) : Prop := releases (action ev) = true.

(** The touches written for frame events: everything but the UPs. *)
Definition touches (l : list VirtualTouchEvent) : list VirtualTouchEvent :=
  filter (fun e => vt_action e <> TouchAction.UP) l.

(** The touch event a frame event is answered with: at its point, with
    the action of its kind. *)
Definition emits (fe : FrameEvent) (ve : VirtualTouchEvent) : Prop :=
  vt_pos ve = fe_point fe /\ exists fresh, vt_action ve = written (action fe) fresh.

(** The events of the frames planned so far that have ms [t]. *)
Definition handled (batches : list (Z * list FrameEvent)) (t : Z) : list FrameEvent :=
  batches ≫= fun item => if decide (fst item = t) then snd item else [].

(** The output holds a touch of pointer [p] at [ps], at ms [k]. *)
Definition touched_at (result : gmap Z (list VirtualTouchEvent)) (k p : Z) (ps : point)
    : Prop :=
  exists e, e ∈ events_at result k /\ pointer_id e = p /\ vt_pos e = ps
            /\ vt_action e <> TouchAction.UP.

(** The output against the pointers in use: each was last touched where
    and when its object says; each UP comes one ms after such a touch; the
    pids are allocated ones. *)
Record out_inv (m : PointerManager) (result : gmap Z (list VirtualTouchEvent)) : Prop :=
  mkOutInv {
  out_live : forall a, a ∈ live m ->
      touched_at result (timestamp (deref (heap m) a)) (pid_of m a) (pos (deref (heap m) a));
  out_ups : forall k e, e ∈ events_at result k -> vt_action e = TouchAction.UP ->
      touched_at result (k - 1) (pointer_id e) (vt_pos e);
  out_pids : forall k e, e ∈ events_at result k -> begin m <= pointer_id e;
  out_delta : delta m = 1
}.

(** The touch of a frame event goes to the pid [φ] gives its event id;
    [done] are the frame events handled so far. *)
Definition to_pid (φ : Z -> Z) (done : list FrameEvent) (fe : FrameEvent)
    (ve : VirtualTouchEvent) : Prop :=
  pointer_id ve = φ (fe_id fe) /\ gesture_of (fe_id fe) done <> [].

(** The pids used so far, by event id: [φ] agrees with the bindings of
    [pointers] and with the output, where [hd t] are the frame events of
    ms [t] handled so far. *)
Record note_inv (done : list FrameEvent) (hd : Z -> list FrameEvent) (m : PointerManager)
    (result : gmap Z (list VirtualTouchEvent)) (φ : Z -> Z) : Prop := mkNoteInv {
  ni_bound : forall id a, dict_get id (pointers m) = Some a -> φ id = pid_of m a;
  ni_played : forall t, Forall2 (to_pid φ done) (hd t) (touches (events_at result t))
}.

(** Every pid handed out is recycled or in use (by one of [lv]), and when
    nothing is in use the allocator is back at its start. *)
Definition alloc_full (m : PointerManager) (lv : list addr) : Prop :=
  exists n : nat,
    max_pointer_id m = begin m + Z.of_nat n * delta m
    /\ (forall p, allocated_below m n p -> p ∈ recycled m \/ p ∈ pid_of m <$> lv)
    /\ (lv = [] -> n = 0%nat /\ recycled m = ∅).



(** * Reference instances *)

(** A [set.pop()] that follows [f] when [f] names an element. *)
Definition pick (f : list Z -> Z) (n : nat) (s : gset Z) : Z :=
  let c := f (elements s) in
  if decide (c ∈ s) then c else default 0 (head (elements s)).

Lemma pick_elem f n s : s <> ∅ -> pick f n s ∈ s.
Proof.
  intros Hs. unfold pick. case_decide; [done|].
  destruct (elements s) as [|x l] eqn:Hel.
  - apply elements_empty_inv, leibniz_equiv in Hel. done.
  - simpl. apply elem_of_elements. rewrite Hel. left.
Qed.

Definition pop_with (f : list Z -> Z) : SetPop := mkSetPop (pick f) (pick_elem f).

Definition list_min (l : list Z) : Z :=
  match l with [] => 0 | x :: l' => foldr Z.min x l' end.

(** The reading of the specification: the smallest recycled pid. *)
Definition pop_smallest : SetPop := pop_with list_min.

(** A [set.pop()] that gives, call after call, the answers listed (and some
    element of the set where the list names none). *)
Definition replay (answers : list Z) (n : nat) (s : gset Z) : Z :=
  pick (fun _ => default 0 (answers !! n)) n s.

Lemma replay_elem answers n s : s <> ∅ -> replay answers n s ∈ s.
Proof. apply pick_elem. Qed.

Definition pop_replay (answers : list Z) : SetPop :=
  mkSetPop (replay answers) (replay_elem answers).

(** Horizontal lines ([sin] and [cos] at angle 0), a screen that holds
    every point, and the taxicab distance. *)
Definition env_of (P : SetPop) : Env :=
  mkEnv (fun a b => (Qabs (fst a - fst b) + Qabs (snd a - snd b))%Q)
        (fun p _ _ => p) (fun _ => true) (fun _ => 0%Q) (fun _ => 1%Q)
        (355 # 113)%Q P.

(** A line at rest at the origin on which chart time is milliseconds. *)
Definition still_line (notes : list Note) : JudgeLine :=
  mkJudgeLine (fun t => t / 1000)%Q (fun s => s * 1000)%Q
              (fun _ => (0%Q, 0%Q)) (fun _ => 0%Q) (fun _ _ => (0%Q, 0%Q)) notes [].

Definition tap_at (t : Z) : Note := mkNote NoteType.TAP (inject_Z t) 0 0.

Definition tap_event (id : Z) : FrameEvent := mkFrameEvent FrameEventAction.TAP (0%Q, 0%Q) id.

(** Two taps at 1000 ms and one tap each second after. *)
Definition eight_taps_chart : list JudgeLine :=
  [still_line [tap_at 1000; tap_at 1000; tap_at 2000; tap_at 3000; tap_at 4000;
               tap_at 5000; tap_at 6000; tap_at 7000]].

Definition eight_taps : list (Z * list FrameEvent) :=
  [(1000, [tap_event 0; tap_event 1]); (2000, [tap_event 2]); (3000, [tap_event 3]);
   (4000, [tap_event 4]); (5000, [tap_event 5]); (6000, [tap_event 6]);
   (7000, [tap_event 7])].

(** The answers of CPython 3.11 to the four [recycled.pop()] calls made
    while [eight_taps] is planned: its [pop] resumes the scan of the hash
    table after the entry it removed last. *)
Definition cpython_pops : SetPop := pop_replay [1000; 1001; 1002; 1003].

(** The manager when the eighth tap is about to be handled. *)
Definition before_eighth_tap : PointerManager :=
  match plan (env_of cpython_pops) (take 6 eight_taps) with
  | Ok st => set_now 7000 (fst st)
  | Raise _ => PointerManager_init 1000 1
  end.

(** A screen of 1280 by 720. *)
Definition on_screen (p : point) : bool :=
  Qle_bool 0 (fst p) && Qle_bool (fst p) 1280 && Qle_bool 0 (snd p) && Qle_bool (snd p) 720.

(** As [env_of], with that screen. *)
Definition screen_env : Env :=
  mkEnv (fun a b => (Qabs (fst a - fst b) + Qabs (snd a - snd b))%Q)
        (fun p _ _ => p) on_screen (fun _ => 0%Q) (fun _ => 1%Q)
        (355 # 113)%Q pop_smallest.

(** A horizontal line that enters the screen from the left at chart time
    1000, one unit per chart time unit. *)
Definition sliding_line (notes : list Note) : JudgeLine :=
  mkJudgeLine (fun t => t / 1000)%Q (fun s => s * 1000)%Q
              (fun t => (t - 1000, 0)%Q) (fun _ => 0%Q) (fun _ _ => (0%Q, 0%Q)) notes [].


Definition two_taps : list (Z * list FrameEvent) :=
  [(1000, [tap_event 0]); (2000, [tap_event 1])].

(** The planner in the middle of the frame of ms 3000, after a third tap. *)
Definition third_tap_handled : Res PlanState :=
  st ← plan (env_of pop_smallest) two_taps;
  handle (env_of pop_smallest) 3000 (set_now 3000 (fst st), snd st, false) (tap_event 2).

Definition manager_of (r : Res PlanState) : PointerManager :=
  match r with Ok (m, _, _) => m | Raise _ => PointerManager_init 1000 1 end.

Definition two_taps_planned : PointerManager * gmap Z (list VirtualTouchEvent) :=
  match plan (env_of pop_smallest) two_taps with
  | Ok st => st
  | Raise _ => (PointerManager_init 1000 1, ∅)
  end.

Definition result_of (r : Res PlanState) : gmap Z (list VirtualTouchEvent) :=
  match r with Ok (_, result, _) => result | Raise _ => ∅ end.

Definition sixteen_taps : list (Z * list FrameEvent) :=
  [(1000, tap_event <$> seqZ 0 14); (2000, [tap_event 14]); (3000, [tap_event 15])].

Definition sixteen_taps_chart : list JudgeLine :=
  [still_line (replicate 14 (tap_at 1000) ++ [tap_at 2000; tap_at 3000])].


Definition flick_at (t : Z) : Note := mkNote NoteType.FLICK (inject_Z t) 0 0.
Definition hold_at (t : Z) (len : Z) : Note := mkNote NoteType.HOLD (inject_Z t) 0 (inject_Z len).

Definition drag_event (id : Z) : FrameEvent :=
  mkFrameEvent FrameEventAction.DRAG (0%Q, 0%Q) id.

(** Four taps a second apart. *)
Definition four_taps_chart : list JudgeLine :=
  [still_line [tap_at 1000; tap_at 2000; tap_at 3000; tap_at 4000]].

(** A tap, a hold, a flick and a later tap. *)
Definition mixed_chart : list JudgeLine :=
  [still_line [tap_at 1000; hold_at 1500 100; flick_at 3000; tap_at 5000]].

Definition solved (E : Env) (chart : list JudgeLine) : gmap Z (list VirtualTouchEvent) :=
  match solve E chart with Ok result => result | Raise _ => ∅ end.

(** A manager with event id 0 bound to a fresh pointer. *)
Definition one_acquired : PointerManager :=
  fst (fresh_pointer (env_of pop_smallest) (tap_event 0) (PointerManager_init 1000 1)).

(** The manager a [recycle] leaves, for a recycle that returns. *)
Definition recycled_of (x : list UpItem * Res PointerManager) : PointerManager :=
  match snd x with Ok m => m | Raise _ => PointerManager_init 1000 1 end.

(** The frame of a single DRAG at ms 3000. *)
Definition drag_frame : Z * list FrameEvent := (3000, [drag_event 2]).

Definition planned_of (x : Res (PointerManager * gmap Z (list VirtualTouchEvent)))
    : PointerManager * gmap Z (list VirtualTouchEvent) :=
  match x with Ok st => st | Raise _ => (PointerManager_init 1000 1, ∅) end.


(** * The frame synthesizer *)

Section TimelineFacts.
Context {A : Type}.
Implicit Types (d : gmap Z (list A)).

Lemma tl_append_lookup ms x d t :
  default [] (tl_append ms x d !! t)
  = default [] (d !! t) ++ (if decide (t = ms) then [x] else []).
Proof.
  unfold tl_append. case_decide as Ht.
  - subst. by rewrite lookup_insert_eq.
  - rewrite lookup_insert_ne by done. by rewrite app_nil_r.
Qed.

Lemma tl_append_dom ms x d : dom (tl_append ms x d) = {[ms]} ∪ dom d.
Proof. unfold tl_append. by rewrite dom_insert_L. Qed.
End TimelineFacts.

Section SynthFacts.
Variable E : Env.

Lemma frame_event_eta (e : FrameEvent) :
  mkFrameEvent (action e) (fe_point e) (fe_id e) = e.
Proof. by destruct e. Qed.

Lemma add_events_lookup evs frames t :
  default [] (add_events evs frames !! t)
  = default [] (frames !! t) ++ (snd <$> filter (fun e => fst e = t) evs).
Proof.
  unfold add_events. revert frames.
  induction evs as [|e evs IH]; intros frames; simpl.
  - by rewrite app_nil_r.
  - rewrite IH. unfold add_frame_event. rewrite tl_append_lookup, frame_event_eta.
    rewrite filter_cons. case_decide; case_decide; try (exfalso; congruence);
      simpl; by rewrite <- ?app_assoc, ?app_nil_r.
Qed.

Lemma note_events_ids line event id :
  Forall (fun e => fe_id (snd e) = id) (note_events E line event id).
Proof.
  unfold note_events. destruct (note_type event);
    repeat first [apply Forall_cons; split; [done|] | apply Forall_nil_2
                 | apply Forall_app; split | apply Forall_fmap, Forall_true; done ].
Qed.

Lemma synth_note_ids_below line st event :
  0 <= snd st -> frame_ids_below st -> frame_ids_below (synth_note E line st event).
Proof.
  intros H0 Hst t ev. unfold synth_note; simpl.
  rewrite add_events_lookup, elem_of_app. intros [Hin|Hin].
  - apply Hst in Hin. lia.
  - apply list_elem_of_fmap in Hin as [e [-> He]].
    apply list_elem_of_filter in He as [_ He].
    pose proof (note_events_ids line event (snd st)) as Hall.
    rewrite Forall_forall in Hall. apply Hall in He. lia.
Qed.

Lemma synth_notes_ids_below line notes st :
  0 <= snd st -> frame_ids_below st ->
  0 <= snd (fold_left (synth_note E line) notes st)
  /\ frame_ids_below (fold_left (synth_note E line) notes st).
Proof.
  revert st. induction notes as [|n notes IH]; intros st H0 Hst; simpl; [done|].
  apply IH; [simpl; lia|]. by apply synth_note_ids_below.
Qed.



(** The state [synth_upto] is the one [synthesize] passes through. *)
Lemma synthesize_through pre line post before event after :
  notes_above line ++ notes_below line = before ++ event :: after ->
  synthesize E (pre ++ line :: post)
  = fst (fold_left (synth_line E) post
           (fold_left (synth_note E line) after
              (synth_note E line (synth_upto E pre line before) event))).
Proof.
  intros Hn. unfold synthesize, synth_upto.
  rewrite fold_left_app. simpl. unfold synth_line at 2. rewrite Hn.
  by rewrite fold_left_app.
Qed.

Lemma flick_offsets_eq : flick_offsets =
  [-18; -16; -14; -12; -10; -8; -6; -4; -2; 0; 2; 4; 6; 8; 10; 12; 14; 16; 18; 19].
Proof. vm_compute. reflexivity. Qed.

Lemma elem_of_flick_offsets o :
  o ∈ flick_offsets <-> -20 < o < 20 /\ (Z.even o = true \/ o = 19).
Proof.
  unfold flick_offsets. rewrite list_elem_of_filter, elem_of_seqZ.
  unfold FLICK_START, FLICK_END. rewrite Zmod_even.
  destruct (Z.even o); intuition lia.
Qed.


Lemma elem_of_hold_offsets h o :
  o ∈ hold_offsets h
  <-> 1 <= o <= h - 1 /\ (o mod Z.max 1 (h / 20) = 0 \/ o = h - 1).
Proof.
  unfold hold_offsets. rewrite list_elem_of_filter, elem_of_seqZ. intuition lia.
Qed.


Lemma micro_adjust_first line off_x t l1 dt l2 :
  Forall (fun d => in_screen E (g_point (geometry_at E line off_x (t + inject_Z d)%Q)) = false) l1 ->
  in_screen E (g_point (geometry_at E line off_x (t + inject_Z dt)%Q)) = true ->
  micro_adjust E line off_x t (l1 ++ dt :: l2)
  = Some (geometry_at E line off_x (t + inject_Z dt)%Q).
Proof.
  intros Hoff Hon. induction Hoff as [|d l1 Hd _ IH]; simpl.
  - by rewrite Hon.
  - by rewrite Hd.
Qed.

Lemma micro_adjust_none line off_x t l :
  Forall (fun d => in_screen E (g_point (geometry_at E line off_x (t + inject_Z d)%Q)) = false) l ->
  micro_adjust E line off_x t l = None.
Proof. intros Hoff. induction Hoff as [|d l Hd _ IH]; simpl; [done|by rewrite Hd]. Qed.

Lemma geometry_at_eq line off_x t :
  geometry_at E line off_x t
  = let alpha := (- angle line t * pi E / 180)%Q in
    mkGeometry (fst (line_pos line t)) (snd (line_pos line t)) alpha
      (sin E alpha) (cos E alpha)
      (fst (line_pos line t) + off_x * cos E alpha)%Q
      (snd (line_pos line t) + off_x * sin E alpha)%Q.
Proof. unfold geometry_at. by destruct (line_pos line t). Qed.

(** C7. The geometry a FLICK is synthesized from.  The geometry at a chart
    time [t] is written out here as the code computes it: [x, y] from
    [line.pos(t)], [alpha = -line.angle(t) * pi / 180], its sine and cosine,
    and the judge point [(x + off_x * ca, y + off_x * sa)] with
    [off_x = event.x * 72].  The FLICK uses the geometry at [event.time]
    when that judge point is on screen; otherwise the geometry recomputed at
    [event.time + dt] for the first [dt] in [-5, -4, ..., 5] whose judge
    point is on screen; and when there is none, the geometry at
    [event.time] with its point replaced by [recalc_pos((px, py), sa, ca)].
    Every frame event of the note is laid out from that geometry. *)
Theorem flick_off_screen_fallback line event :
  let off_x := (note_x event * 72)%Q in
  let alpha t := (- angle line t * pi E / 180)%Q in
  let geom t :=
    mkGeometry (fst (line_pos line t)) (snd (line_pos line t)) (alpha t)
      (sin E (alpha t)) (cos E (alpha t))
      (fst (line_pos line t) + off_x * cos E (alpha t))%Q
      (snd (line_pos line t) + off_x * sin E (alpha t))%Q in
  let raw := geom (note_time event) in
  let cand dt := geom (note_time event + inject_Z dt)%Q in
  let g := flick_geometry E line event in
  (in_screen E (g_point raw) = true -> g = raw)
  /\ (in_screen E (g_point raw) = false ->
      (forall dt, -5 <= dt <= 5 ->
         in_screen E (g_point (cand dt)) = true ->
         (forall dt', -5 <= dt' < dt -> in_screen E (g_point (cand dt')) = false) ->
         g = cand dt)
      /\ ((forall dt, -5 <= dt <= 5 -> in_screen E (g_point (cand dt)) = false) ->
          g = mkGeometry (g_x raw) (g_y raw) (g_alpha raw) (g_sa raw) (g_ca raw)
                (fst (recalc_pos E (g_point raw) (g_sa raw) (g_ca raw)))
                (snd (recalc_pos E (g_point raw) (g_sa raw) (g_ca raw)))))
  /\ (forall id, note_type event = NoteType.FLICK ->
      Forall (fun e => exists o, fst e = note_ms line event + o /\
                fe_point (snd e)
                = recalc_pos E (flick_pos (g_px g) (g_py g) o (g_sa g) (g_ca g))
                    (g_sa g) (g_ca g))
        (note_events E line event id)).
Proof.
  intros off_x alpha geom raw cand g.
  assert (Hgeom : forall t, geometry_at E line off_x t = geom t).
  { intros t. apply geometry_at_eq. }
  assert (Hg : g = if in_screen E (g_point raw) then raw
                   else match micro_adjust E line off_x (note_time event) (seqZ (-5) 11) with
                        | Some g' => g'
                        | None =>
                            let '(px, py) := recalc_pos E (g_point raw) (g_sa raw) (g_ca raw) in
                            mkGeometry (g_x raw) (g_y raw) (g_alpha raw) (g_sa raw) (g_ca raw) px py
                        end).
  { subst g. unfold flick_geometry. fold off_x. by rewrite (Hgeom (note_time event)). }
  split_and!.
  - intros Hon. by rewrite Hg, Hon.
  - intros Hoff. rewrite Hg, Hoff. clear Hg.
    split.
    + intros dt Hdt Hon Hbefore.
      replace (seqZ (-5) 11) with (seqZ (-5) (dt + 5) ++ dt :: seqZ (Z.succ dt) (5 - dt)).
      * rewrite micro_adjust_first; [apply Hgeom| |by rewrite Hgeom].
        apply Forall_seqZ. intros d Hd. rewrite Hgeom. apply Hbefore. lia.
      * replace 11 with ((dt + 5) + (6 - dt)) by lia.
        rewrite (seqZ_app (-5) (dt + 5) (6 - dt)) by lia. f_equal.
        rewrite (seqZ_cons (-5 + (dt + 5))) by lia.
        replace (-5 + (dt + 5)) with dt by lia.
        replace (Z.pred (6 - dt)) with (5 - dt) by lia. done.
    + intros Hnone. rewrite micro_adjust_none.
      * by destruct (recalc_pos E (g_point raw) (g_sa raw) (g_ca raw)) as [px py].
      * apply Forall_seqZ. intros d Hd. rewrite Hgeom. apply Hnone. lia.
  - clear Hg. intros id Hty. unfold note_events. rewrite Hty. cbv beta zeta iota. fold g.
    apply Forall_app; split; [|apply Forall_app; split].
    + apply Forall_singleton. by exists FLICK_START.
    + apply Forall_fmap, Forall_true. intros o. by exists o.
    + apply Forall_singleton. by exists FLICK_END.
Qed.

End SynthFacts.



Example hold_offsets_100 :
  hold_offsets 100
  = [5; 10; 15; 20; 25; 30; 35; 40; 45; 50; 55; 60; 65; 70; 75; 80; 85; 90; 95; 99].
Proof. vm_compute. reflexivity. Qed.

Lemma flick_off_screen_fallback_witness :
  in_screen screen_env (line_pos (sliding_line [flick_at 997]) 997) = false
  /\ flick_geometry screen_env (sliding_line [flick_at 997]) (flick_at 997)
     = mkGeometry 0 0 (0 # 20340) 0 1 0 0.
Proof.
  split; [reflexivity|].
  destruct (flick_off_screen_fallback screen_env (sliding_line [flick_at 997]) (flick_at 997))
    as (_ & H & _).
  destruct (H eq_refl) as [H1 _].
  apply (H1 3); [lia|reflexivity|].
  intros dt' Hdt'.
  assert (dt' = -5 \/ dt' = -4 \/ dt' = -3 \/ dt' = -2 \/ dt' = -1 \/ dt' = 0
          \/ dt' = 1 \/ dt' = 2) as Hc by lia.
  destruct Hc as [->|[->|[->|[->|[->|[->|[->| ->]]]]]]]; reflexivity.
Defined.


(** * Dictionaries *)

Section DictFacts.
Context {V : Type}.
Implicit Types (d : list (Z * V)) (k : Z) (v : V).

Lemma dict_keys_cons k v d : dict_keys ((k, v) :: d) = k :: dict_keys d.
Proof. reflexivity. Qed.

Lemma dict_get_Some_elem k v d : dict_get k d = Some v -> (k, v) ∈ d.
Proof.
  induction d as [|[k' v'] d IH]; simpl; [done|].
  case_decide as Hk.
  - intros [= ->]. subst. left.
  - intros H. right. by apply IH.
Qed.

Lemma dict_get_None k d : dict_get k d = None <-> k ∉ dict_keys d.
Proof.
  unfold dict_keys. induction d as [|[k' v'] d IH]; simpl.
  - split; [intros _; apply not_elem_of_nil|done].
  - rewrite not_elem_of_cons. case_decide as Hk; [|tauto].
    split; [done|]. intros [? _]. done.
Qed.

Lemma dict_get_is_Some k d : is_Some (dict_get k d) <-> k ∈ dict_keys d.
Proof.
  rewrite <- not_eq_None_Some, dict_get_None.
  destruct (decide (k ∈ dict_keys d)); tauto.
Qed.

Lemma elem_dict_keys k v d : (k, v) ∈ d -> k ∈ dict_keys d.
Proof. intros H. unfold dict_keys. apply list_elem_of_fmap. by exists (k, v). Qed.

Lemma elem_dict_values k v d : (k, v) ∈ d -> v ∈ dict_values d.
Proof. intros H. unfold dict_values. apply list_elem_of_fmap. by exists (k, v). Qed.

Lemma dict_get_elem k v d : NoDup (dict_keys d) -> (k, v) ∈ d -> dict_get k d = Some v.
Proof.
  induction d as [|[k' v'] d IH]; simpl.
  - by intros _ ?%elem_of_nil.
  - rewrite ?dict_keys_cons, NoDup_cons. intros [Hk' Hnd] Hin.
    apply elem_of_cons in Hin as [[= -> ->]|Hin].
    + by rewrite decide_True.
    + rewrite decide_False; [by apply IH|].
      intros ->. apply Hk'. by eapply elem_dict_keys.
Qed.

Lemma dict_set_notin k v d : k ∉ dict_keys d -> dict_set k v d = d ++ [(k, v)].
Proof.
  unfold dict_keys. induction d as [|[k' v'] d IH]; simpl; [done|].
  rewrite not_elem_of_cons. intros [Hk Hin].
  rewrite decide_False by done. f_equal. by apply IH.
Qed.

Lemma dict_set_same k v d : NoDup (dict_keys d) -> (k, v) ∈ d -> dict_set k v d = d.
Proof.
  induction d as [|[k' v'] d IH]; simpl.
  - by intros _ ?%elem_of_nil.
  - rewrite ?dict_keys_cons, NoDup_cons. intros [Hk' Hnd] Hin.
    apply elem_of_cons in Hin as [[= -> ->]|Hin].
    + by rewrite decide_True.
    + rewrite decide_False; [f_equal; by apply IH|].
      intros ->. apply Hk'. by eapply elem_dict_keys.
Qed.

Lemma dict_get_set k k' v d :
  dict_get k' (dict_set k v d) = if decide (k' = k) then Some v else dict_get k' d.
Proof.
  induction d as [|[k0 v0] d IH]; simpl.
  - repeat case_decide; done.
  - repeat (case_decide; simpl; subst); try done.
Qed.

Lemma dict_del_notin k d : k ∉ dict_keys d -> dict_del k d = None.
Proof.
  unfold dict_keys. induction d as [|[k' v'] d IH]; simpl; [done|].
  rewrite not_elem_of_cons. intros [Hk Hin].
  rewrite decide_False by done. by rewrite IH.
Qed.

Lemma filter_keys_notin k d :
  k ∉ dict_keys d -> filter (fun kv => fst kv <> k) d = d.
Proof.
  unfold dict_keys. induction d as [|[k' v'] d IH]; [done|].
  rewrite fmap_cons, not_elem_of_cons. simpl. intros [Hk Hin].
  rewrite filter_cons_True by (simpl; congruence). f_equal. by apply IH.
Qed.

Lemma dict_del_in k d :
  NoDup (dict_keys d) -> k ∈ dict_keys d ->
  dict_del k d = Some (filter (fun kv => fst kv <> k) d).
Proof.
  induction d as [|[k' v'] d IH]; simpl.
  - by intros _ ?%elem_of_nil.
  - rewrite ?dict_keys_cons, NoDup_cons. intros [Hk' Hnd] Hin.
    case_decide as Hk.
    + subst k'. rewrite filter_cons_False by (simpl; tauto).
      by rewrite filter_keys_notin.
    + rewrite filter_cons_True by (simpl; congruence).
      apply elem_of_cons in Hin as [?|Hin]; [done|].
      by rewrite (IH Hnd Hin).
Qed.

Lemma dict_del_Some k d d' : dict_del k d = Some d' -> k ∈ dict_keys d.
Proof.
  intros H. destruct (decide (k ∈ dict_keys d)) as [|Hn]; [done|].
  by rewrite dict_del_notin in H.
Qed.

Lemma dict_update_disjoint d1 d2 :
  NoDup (dict_keys d2) ->
  (forall k, k ∈ dict_keys d2 -> k ∉ dict_keys d1) ->
  dict_update d1 d2 = d1 ++ d2.
Proof.
  unfold dict_update. revert d1.
  induction d2 as [|[k v] d2 IH]; intros d1; simpl.
  - by rewrite app_nil_r.
  - rewrite ?dict_keys_cons, NoDup_cons. intros [Hk Hnd] Hdis.
    rewrite dict_set_notin by (apply Hdis; left).
    rewrite IH; [by rewrite <- app_assoc|done|].
    intros k' Hk'. unfold dict_keys. rewrite fmap_app, elem_of_app. simpl.
    intros [Hin|Hin%list_elem_of_singleton].
    + revert Hin. apply Hdis. by right.
    + by subst.
Qed.

Lemma dict_keys_filter (Q : Z * V -> Prop) `{!forall x, Decision (Q x)} d :
  NoDup (dict_keys d) -> NoDup (dict_keys (filter Q d)).
Proof.
  unfold dict_keys. induction d as [|kv d IH]; [done|].
  rewrite fmap_cons, NoDup_cons. intros [Hk Hnd].
  rewrite filter_cons. case_decide; [|by apply IH].
  rewrite fmap_cons, NoDup_cons. split; [|by apply IH].
  intros Hin. apply Hk. apply list_elem_of_fmap in Hin as [x [-> Hx]].
  apply list_elem_of_filter in Hx as [_ Hx]. apply list_elem_of_fmap. by exists x.
Qed.
End DictFacts.

(** * The structure of the manager is preserved *)

Section HeapFacts.
Implicit Types (h : list Pointer) (a b : addr) (p : Pointer).

Lemma deref_insert_eq h a p : (a < length h)%nat -> deref (<[a := p]> h) a = p.
Proof. intros H. unfold deref. by rewrite list_lookup_insert_eq. Qed.

Lemma deref_insert_ne h a b p : a <> b -> deref (<[a := p]> h) b = deref h b.
Proof. intros H. unfold deref. by rewrite list_lookup_insert_ne. Qed.

Lemma deref_app_l h h' a : (a < length h)%nat -> deref (h ++ h') a = deref h a.
Proof. intros H. unfold deref. by rewrite lookup_app_l. Qed.

Lemma deref_app_new h p : deref (h ++ [p]) (length h) = p.
Proof. unfold deref. by rewrite list_lookup_middle. Qed.

Lemma pid_touch_pointer h a ts pt occ b :
  pid (deref (touch_pointer a ts pt occ h) b) = pid (deref h b).
Proof.
  unfold touch_pointer. destruct (decide (a = b)) as [->|Hne].
  - destruct (decide (b < length h)%nat).
    + by rewrite deref_insert_eq.
    + by rewrite list_insert_ge by lia.
  - by rewrite deref_insert_ne.
Qed.

Lemma length_touch_pointer h a ts pt occ :
  length (touch_pointer a ts pt occ h) = length h.
Proof. unfold touch_pointer. apply length_insert. Qed.
End HeapFacts.

Section AllocOk.
Implicit Types (m : PointerManager) (lv : list addr).

(** [alloc_ok] only reads the allocator fields, the heap length and the
    pids of the objects in use. *)
Lemma alloc_ok_ext m m' lv lv' :
  begin m' = begin m -> delta m' = delta m ->
  max_pointer_id m' = max_pointer_id m -> recycled m' = recycled m ->
  (length (heap m) <= length (heap m'))%nat ->
  (forall a, a ∈ lv -> pid_of m' a = pid_of m a) ->
  lv' ≡ₚ lv ->
  alloc_ok m lv -> alloc_ok m' lv'.
Proof.
  intros Hb Hd Hm Hr Hlen Hpid Hperm [H1 H2 H3 H4 (n & H5 & H6 & H7) H8].
  assert (Hin : forall a, a ∈ lv' <-> a ∈ lv) by (intros a; by rewrite Hperm).
  split.
  - by rewrite Hd.
  - intros a Ha%Hin. specialize (H2 a Ha). lia.
  - by rewrite Hperm.
  - intros a b Ha%Hin Hb'%Hin. rewrite !Hpid by done. by apply H4.
  - exists n. unfold allocated_below in *. rewrite Hm, Hb, Hd, Hr. split_and!; [done|done|].
    intros a Ha%Hin. rewrite Hpid by done. by apply H7.
  - intros a Ha%Hin. rewrite Hpid, Hr by done. by apply H8.
Qed.

Lemma alloc_ok_perm m lv lv' : lv' ≡ₚ lv -> alloc_ok m lv -> alloc_ok m lv'.
Proof. intros. by eapply (alloc_ok_ext m m lv lv'). Qed.

Lemma alloc_ok_pids m lv : alloc_ok m lv -> NoDup (pid_of m <$> lv).
Proof.
  intros H. apply NoDup_fmap_2_strong; [|by apply ok_nodup with m].
  intros a b ? ? ?. by eapply ok_inj.
Qed.
End AllocOk.

Section Preservation.
Variable E : Env.
Implicit Types (m : PointerManager) (lv : list addr).

Lemma pm_inv_init begin_ : pm_inv (PointerManager_init begin_ 1).
Proof.
  split; simpl; try done; try (intros * H; by apply elem_of_nil in H); try apply NoDup_nil_2.
  split; simpl; try done; try (intros * H; by apply elem_of_nil in H); try apply NoDup_nil_2.
  exists 0%nat. split_and!; [lia| |]; intros * H; [set_solver|by apply elem_of_nil in H].
Qed.

Lemma pm_inv_set_now ms m : pm_inv m -> pm_inv (set_now ms m).
Proof.
  intros [H1 H2 H3 H4 H5 H6 H7]. split; try done.
  by eapply (alloc_ok_ext m).
Qed.

(** Writing to live objects without changing their pids, or growing the
    heap, keeps the structure. *)
Lemma pm_inv_heap h' m :
  (length (heap m) <= length h')%nat ->
  (forall b, (b < length (heap m))%nat -> pid (deref h' b) = pid_of m b) ->
  pm_inv m -> pm_inv (set_heap h' m).
Proof.
  intros Hlen Hpid [H1 H2 H3 H4 H5 H6 H7].
  assert (Hlive : forall a, a ∈ live m -> pid_of (set_heap h' m) a = pid_of m a).
  { intros a Ha. apply Hpid. by eapply ok_valid. }
  assert (Hptr : forall e a, (e, a) ∈ pointers m -> pid_of (set_heap h' m) a = pid_of m a).
  { intros e a Ha. apply Hlive. unfold live. rewrite elem_of_app. left.
    by eapply elem_dict_values. }
  split; simpl; try done.
  - by eapply (alloc_ok_ext m).
  - intros k a Hin. rewrite Hlive; [by apply H5|].
    unfold live. rewrite elem_of_app. right. by eapply elem_dict_values.
  - intros k a Hin. destruct (H6 k a Hin) as [Hk (e & He & Hm)].
    split; [|by exists e]. by rewrite (Hptr e a).
  - intros e He. destruct (H7 e He) as (a & Ha & Hn). exists a. split; [done|].
    by rewrite (Hptr e a).
Qed.

(** What [_new] does to the allocator. *)
Lemma _new_fields m :
  let m1 := snd (_new E m) in
  pointers m1 = pointers m /\ begin m1 = begin m /\ delta m1 = delta m
  /\ now m1 = now m /\ unused m1 = unused m /\ unused_now m1 = unused_now m
  /\ mark_as_released m1 = mark_as_released m /\ heap m1 = heap m.
Proof. unfold _new. case_decide; simpl; done. Qed.

Lemma _new_fresh m lv :
  alloc_ok m lv ->
  let p := fst (_new E m) in
  let m1 := snd (_new E m) in
  p ∉ recycled m1
  /\ (forall a, a ∈ lv -> pid_of m a <> p /\ pid_of m a ∉ recycled m1)
  /\ exists n : nat,
      max_pointer_id m1 = begin m + Z.of_nat n * delta m
      /\ (forall q, q ∈ recycled m1 -> allocated_below m n q)
      /\ (forall a, a ∈ lv -> allocated_below m n (pid_of m a))
      /\ allocated_below m n p.
Proof.
  intros [H1 H2 H3 H4 (n & H5 & H6 & H7) H8]. unfold _new.
  case_decide as Hr; simpl.
  - split_and!.
    + rewrite Hr. set_solver.
    + intros a Ha. split; [|by apply H8].
      destruct (H7 a Ha) as (i & Hi & ->). rewrite H5.
      intros Heq. assert (Z.of_nat i = Z.of_nat n) by nia. lia.
    + exists (S n). unfold allocated_below. split_and!.
      * rewrite H5. lia.
      * intros q Hq. rewrite Hr in Hq. set_solver.
      * intros a Ha. destruct (H7 a Ha) as (i & Hi & ->). exists i. split; [lia|done].
      * exists n. split; [lia|done].
  - pose proof (set_pop_elem (pop E) (pops m) (recycled m) Hr) as Hp.
    split_and!.
    + set_solver.
    + intros a Ha. specialize (H8 a Ha). split; [|set_solver].
      intros Heq. apply H8. by rewrite Heq.
    + exists n. split_and!; [done| |done|by apply H6].
      intros q Hq. apply H6. set_solver.
Qed.

Lemma pm_inv_fresh_pointer event m :
  pm_inv m -> dict_get (fe_id event) (pointers m) = None ->
  pm_inv (fst (fresh_pointer E event m)).
Proof.
  intros [H1 H2 H3 H4 H5 H6 H7] Hget. unfold fresh_pointer.
  destruct (_new_fresh m (live m) H1) as (Hp & Hlv & n & Hn1 & Hn2 & Hn3 & Hn4).
  destruct (_new_fields m) as (F1 & F2 & F3 & F4 & F5 & F6 & F7 & F8).
  destruct (_new E m) as [p m1] eqn:Hnew. simpl in *.
  apply dict_get_None in Hget.
  set (a := length (heap m1)).
  set (m' := set_pointers _ _).
  assert (Ha : a = length (heap m)) by (subst a; by rewrite F8).
  assert (Hold : forall b, (b < length (heap m))%nat -> pid_of m' b = pid_of m b).
  { intros b Hb. unfold pid_of, m'. simpl. rewrite F8. by rewrite deref_app_l. }
  assert (Hnewpid : pid_of m' a = p).
  { unfold pid_of, m', a. simpl. by rewrite deref_app_new. }
  assert (Hvalid : forall b, b ∈ live m -> (b < length (heap m))%nat)
    by (intros b Hb; by eapply ok_valid).
  assert (Hfresh : a ∉ live m).
  { intros Hin. apply Hvalid in Hin. lia. }
  assert (Hlive : live m' ≡ₚ a :: live m).
  { unfold live, m'. simpl. rewrite F1, F5, dict_set_notin by done.
    unfold dict_values. rewrite fmap_app. simpl. solve_Permutation. }
  assert (Hin : forall b, b ∈ live m' <-> b = a \/ b ∈ live m).
  { intros b. rewrite Hlive. apply elem_of_cons. }
  assert (Hptr : forall e b, (e, b) ∈ pointers m -> pid_of m' b = pid_of m b).
  { intros e b Hb. apply Hold, Hvalid. unfold live. rewrite elem_of_app. left.
    by eapply elem_dict_values. }
  destruct H1 as [A1 A2 A3 A4 _ A6].
  split.
  - split.
    + unfold m'. simpl. by rewrite F3.
    + intros b [->|Hb]%Hin; unfold m'; simpl; rewrite length_app; simpl; [lia|].
      apply Hvalid in Hb. lia.
    + rewrite Hlive. apply NoDup_cons. split; [done|done].
    + intros b c [->|Hb]%Hin [->|Hc]%Hin; try done.
      * rewrite Hnewpid, Hold by auto. intros Heq. by destruct (Hlv c Hc) as [Hne _].
      * rewrite Hnewpid, Hold by auto. intros Heq. by destruct (Hlv b Hb) as [Hne _].
      * rewrite !Hold by auto. by apply A4.
    + exists n. unfold allocated_below in *. unfold m' at 1 2 3 4 5 6. simpl.
      rewrite F2, F3. split_and!; [done|done|].
      intros b [->|Hb]%Hin; [by rewrite Hnewpid|]. rewrite Hold by auto. by apply Hn3.
    + intros b [->|Hb]%Hin.
      * by rewrite Hnewpid.
      * rewrite Hold by auto. unfold m'. simpl. by apply Hlv.
  - unfold m'. simpl. rewrite F1, dict_set_notin by done.
    unfold dict_keys. rewrite fmap_app. simpl. apply NoDup_app. split_and!; [done| |apply NoDup_singleton].
    intros k Hk ->%list_elem_of_singleton. done.
  - unfold m'. simpl. by rewrite F5.
  - unfold m'. simpl. by rewrite F6.
  - intros k b. unfold m' at 1. simpl. rewrite F5. intros Hb.
    rewrite Hold; [by apply H5|]. apply Hvalid. unfold live. rewrite elem_of_app. right.
    by eapply elem_dict_values.
  - intros k b. unfold m' at 1. simpl. rewrite F6. intros Hb.
    destruct (H6 k b Hb) as [Hk (e & He & Hm)].
    split; [by rewrite (Hptr e b)|].
    exists e. unfold m'. simpl. rewrite F1, F7, dict_set_notin by done.
    split; [|done]. apply elem_of_app. by left.
  - intros e. unfold m' at 1. simpl. rewrite F7. intros He.
    destruct (H7 e He) as (b & Hb & Hn). exists b.
    rewrite (Hptr e b) by done. unfold m'. simpl.
    rewrite F1, F6, dict_set_notin by done. split; [|done]. apply elem_of_app. by left.
Qed.

Lemma pm_inv_touch a ts pt occ m :
  pm_inv m -> pm_inv (set_heap (touch_pointer a ts pt occ (heap m)) m).
Proof.
  intros Hinv. apply pm_inv_heap; [|intros; apply pid_touch_pointer|done].
  by rewrite length_touch_pointer.
Qed.

(** Moving an object from [unused] to [pointers]. *)
Lemma pm_inv_reuse e np a m :
  pm_inv m -> e ∉ dict_keys (pointers m) -> (np, a) ∈ unused m ->
  pm_inv (set_pointers (pointers m ++ [(e, a)])
            (set_unused (filter (fun kv => fst kv <> np) (unused m)) m)).
Proof.
  intros [H1 H2 H3 H4 H5 H6 H7] He Ha.
  set (m' := set_pointers _ _).
  apply list_elem_of_split in Ha as (u1 & u2 & Hu).
  assert (Hk : np ∉ dict_keys u1 /\ np ∉ dict_keys u2).
  { rewrite Hu in H3. unfold dict_keys in *. rewrite fmap_app, fmap_cons in H3.
    apply NoDup_app in H3 as (_ & Hd & H3). apply NoDup_cons in H3 as [H3 _].
    split; [|done]. intros Hin. apply (Hd np Hin). left. }
  assert (Hf : filter (fun kv : Z * addr => fst kv <> np) (unused m) = u1 ++ u2).
  { rewrite Hu, filter_app, filter_cons_False by (simpl; tauto).
    by rewrite !filter_keys_notin by tauto. }
  assert (Hlive : live m' ≡ₚ live m).
  { unfold live, m'. simpl. rewrite Hf, Hu. unfold dict_values.
    rewrite !fmap_app, fmap_cons. simpl. solve_Permutation. }
  split.
  - by eapply (alloc_ok_ext m).
  - unfold m'. simpl. unfold dict_keys. rewrite fmap_app. simpl.
    apply NoDup_app. split_and!; [done| |apply NoDup_singleton].
    intros k Hk' ->%list_elem_of_singleton. done.
  - unfold m'. simpl. by apply dict_keys_filter.
  - done.
  - intros k b. unfold m' at 1. simpl. intros [_ Hb]%list_elem_of_filter. by apply H5.
  - intros k b Hb. destruct (H6 k b Hb) as [Hpid (e' & He' & Hm)].
    split; [done|]. exists e'. split; [|done]. unfold m'. simpl. apply elem_of_app. by left.
  - intros e' He'. destruct (H7 e' He') as (b & Hb & Hn). exists b.
    split; [|done]. unfold m'. simpl. apply elem_of_app. by left.
Qed.

Lemma acquire_cases event new m m' r :
  acquire E event new m = Ok (m', r) ->
  (exists a, dict_get (fe_id event) (pointers m) = Some a
     /\ m' = set_heap (touch_pointer a (now m) (fe_point event) None (heap m)) m
     /\ r = (pid_of m a, false))
  \/ (exists np a, dict_get (fe_id event) (pointers m) = None /\ new = false
     /\ snd (scan E m (fe_point event)) = Some np
     /\ dict_get np (unused m) = Some a
     /\ dict_del np (unused m) <> None
     /\ m' = set_heap (touch_pointer a (now m) (fe_point event) (Some 0) (heap m))
               (set_pointers (dict_set (fe_id event) a (pointers m))
                  (set_unused (default [] (dict_del np (unused m))) m))
     /\ r = (pid_of m a, false))
  \/ (dict_get (fe_id event) (pointers m) = None
     /\ (if new then None else snd (scan E m (fe_point event))) = None
     /\ (m', r) = fresh_pointer E event m).
Proof.
  unfold acquire. destruct (dict_get (fe_id event) (pointers m)) as [a|] eqn:Hget.
  - intros [= <- <-]. left. by exists a.
  - destruct (if new then None else snd (scan E m (fe_point event))) as [np|] eqn:Hscan.
    + destruct new; [done|].
      destruct (dict_get np (unused m)) as [a|] eqn:Hu; [|done].
      destruct (dict_del np (unused m)) as [u'|] eqn:Hd; [|done].
      intros [= <- <-]. right. left. exists np, a. by rewrite Hd.
    + intros [= Heq]. right. right. by rewrite Heq.
Qed.

Lemma pm_inv_acquire event new m m' r :
  pm_inv m -> acquire E event new m = Ok (m', r) -> pm_inv m'.
Proof.
  intros Hinv Hacq.
  destruct (acquire_cases _ _ _ _ _ Hacq)
    as [(a & Hget & -> & _)|[(np & a & Hget & _ & _ & Hu & Hd & -> & _)|(Hget & _ & Heq)]].
  - by apply pm_inv_touch.
  - apply dict_get_None in Hget. apply dict_get_Some_elem in Hu.
    rewrite dict_del_in, dict_set_notin; simpl; [|done|by apply inv_unused_keys|by eapply elem_dict_keys].
    apply (pm_inv_touch a (now m) (fe_point event) (Some 0)
             (set_pointers (pointers m ++ [(fe_id event, a)])
                (set_unused (filter (fun kv => fst kv <> np) (unused m)) m))).
    by apply pm_inv_reuse.
  - replace m' with (fst (fresh_pointer E event m)) by (by rewrite <- Heq).
    by apply pm_inv_fresh_pointer.
Qed.

Lemma pm_inv_release event m : pm_inv m -> pm_inv (release event m).
Proof.
  intros Hinv. unfold release.
  destruct (dict_get (fe_id event) (pointers m)) as [a|] eqn:Hget; [|done].
  apply dict_get_Some_elem in Hget.
  destruct Hinv as [H1 H2 H3 H4 H5 H6 H7].
  fold (pid_of m a). set (m' := set_mark_as_released _ _).
  assert (Hlive : forall e b, (e, b) ∈ pointers m -> b ∈ live m).
  { intros e b Hb. unfold live. rewrite elem_of_app. left. by eapply elem_dict_values. }
  assert (Hnow : unused_now m' = unused_now m
                 \/ (pid_of m a ∉ dict_keys (unused_now m)
                     /\ unused_now m' = unused_now m ++ [(pid_of m a, a)])).
  { unfold m'. simpl.
    destruct (decide (pid_of m a ∈ dict_keys (unused_now m))) as [Hin|Hin].
    - left. apply dict_get_is_Some in Hin as [b Hb].
      apply dict_get_Some_elem in Hb.
      destruct (H6 _ _ Hb) as [Hpid (e' & He' & _)].
      assert (b = a) as ->.
      { eapply ok_inj; eauto. }
      by apply dict_set_same.
    - right. split; [done|]. by apply dict_set_notin. }
  split.
  - by eapply (alloc_ok_ext m).
  - exact H2.
  - exact H3.
  - destruct Hnow as [->|[Hn ->]]; [done|].
    unfold dict_keys. rewrite fmap_app. simpl. apply NoDup_app.
    split_and!; [done| |apply NoDup_singleton].
    intros k Hk ->%list_elem_of_singleton. done.
  - exact H5.
  - intros k b Hb.
    assert (Hcase : (k, b) ∈ unused_now m \/ (k, b) = (pid_of m a, a)).
    { destruct Hnow as [Heq|[_ Heq]]; rewrite Heq in Hb; [by left|].
      apply elem_of_app in Hb as [?|?%list_elem_of_singleton]; [by left|by right]. }
    destruct Hcase as [Hold|[= -> ->]].
    + destruct (H6 k b Hold) as [Hpid (e' & He' & Hm)]. split; [done|].
      exists e'. split; [done|]. unfold m'. simpl. apply elem_of_app. by left.
    + split; [done|]. exists (fe_id event). split; [done|].
      unfold m'. simpl. apply elem_of_app. right. by apply list_elem_of_singleton.
  - intros e He. change (e ∈ mark_as_released m ++ [fe_id event]) in He.
    apply elem_of_app in He as [He|Hev%list_elem_of_singleton]; [|subst e].
    + destruct (H7 e He) as (b & Hb & Hn). exists b. split; [done|].
      destruct Hnow as [->|[_ ->]]; [done|]. apply elem_of_app. by left.
    + exists a. split; [done|].
      destruct Hnow as [Heq|[_ ->]].
      * rewrite Heq. unfold m' in Heq. simpl in Heq.
        assert (Hg : dict_get (pid_of m a) (dict_set (pid_of m a) a (unused_now m)) = Some a).
        { rewrite dict_get_set. by rewrite decide_True. }
        rewrite Heq in Hg. by apply dict_get_Some_elem.
      * apply elem_of_app. right. by apply list_elem_of_singleton.
Qed.
End Preservation.

Section ListFacts.
Context {A : Type}.

Lemma filter_ext_elem (P Q : A -> Prop) `{!forall x, Decision (P x), !forall x, Decision (Q x)}
    (l : list A) :
  (forall x, x ∈ l -> (P x <-> Q x)) -> filter P l = filter Q l.
Proof.
  induction l as [|x l IH]; intros Hext; [done|].
  rewrite !filter_cons. rewrite IH by (intros y Hy; apply Hext; by right).
  destruct (decide (P x)) as [HP|HP], (decide (Q x)) as [HQ|HQ]; try done.
  - exfalso. apply HQ, Hext; [left|done].
  - exfalso. apply HP, Hext; [left|done].
Qed.

Lemma filter_all (P : A -> Prop) `{!forall x, Decision (P x)} (l : list A) :
  (forall x, P x) -> filter P l = l.
Proof.
  intros HP. induction l as [|x l IH]; [done|].
  rewrite filter_cons_True by done. by rewrite IH.
Qed.

Lemma values_inj {V : Type} (d : list (Z * V)) k k' v :
  NoDup (dict_values d) -> (k, v) ∈ d -> (k', v) ∈ d -> k = k'.
Proof.
  unfold dict_values. induction d as [|[k0 v0] d IH]; [by intros _ ?%elem_of_nil|].
  rewrite fmap_cons, NoDup_cons. simpl. intros [Hv Hnd].
  intros [[= -> ->]|H1]%elem_of_cons [[= -> ]|H2]%elem_of_cons; try done.
  - exfalso. apply Hv. apply list_elem_of_fmap. by exists (k', v0).
  - subst. exfalso. apply Hv. apply list_elem_of_fmap. by exists (k, v0).
  - by apply IH.
Qed.
End ListFacts.

Section Recycle.
Implicit Types (m : PointerManager) (lv : list addr).

Lemma del_all_Ok (ks : list Z) (d d' : list (Z * addr)) :
  NoDup (dict_keys d) -> del_all ks d = Ok d' ->
  NoDup ks /\ (forall k, k ∈ ks -> k ∈ dict_keys d)
  /\ d' = filter (fun kv => fst kv ∉ ks) d.
Proof.
  revert d. induction ks as [|k ks IH]; intros d Hnd; simpl.
  - intros [= <-]. split_and!; [apply NoDup_nil_2|by intros k ?%elem_of_nil|].
    symmetry. apply filter_all. intros kv. apply not_elem_of_nil.
  - destruct (dict_del k d) as [d1|] eqn:Hdel; [|done].
    pose proof (dict_del_Some _ _ _ Hdel) as Hk.
    rewrite dict_del_in in Hdel by done. injection Hdel as <-.
    intros Hrest. apply IH in Hrest as (Hnd' & Hsub & ->); [|by apply dict_keys_filter].
    assert (Hsub' : forall k', k' ∈ ks -> k' ∈ dict_keys d /\ k' <> k).
    { intros k' Hk'. apply Hsub in Hk'. unfold dict_keys in Hk'.
      apply list_elem_of_fmap in Hk' as ([k0 v0] & -> & Hin).
      apply list_elem_of_filter in Hin as [Hne Hin]. split; [|done].
      by eapply elem_dict_keys. }
    split_and!.
    + apply NoDup_cons. split; [|done]. intros Hin. by destruct (Hsub' k Hin).
    + intros k' [->|Hk']%elem_of_cons; [done|]. by apply Hsub'.
    + rewrite list_filter_filter. apply list_filter_iff. intros [k0 v0]. simpl.
      rewrite not_elem_of_cons. tauto.
Qed.

Lemma del_all_succeeds (ks : list Z) (d : list (Z * addr)) :
  NoDup (dict_keys d) -> NoDup ks -> (forall k, k ∈ ks -> k ∈ dict_keys d) ->
  del_all ks d = Ok (filter (fun kv => fst kv ∉ ks) d).
Proof.
  revert d. induction ks as [|k ks IH]; intros d Hnd Hks Hsub; simpl.
  - f_equal. symmetry. apply filter_all. intros kv. apply not_elem_of_nil.
  - apply NoDup_cons in Hks as [Hk Hks].
    rewrite dict_del_in; [|done|apply Hsub; left].
    rewrite IH; [|by apply dict_keys_filter|done|].
    + f_equal. rewrite list_filter_filter. apply list_filter_iff. intros [k0 v0]. simpl.
      rewrite not_elem_of_cons. tauto.
    + intros k' Hk'. assert (k' <> k) by (intros ->; done).
      assert (Hin0 : k' ∈ k :: ks) by (by right). specialize (Hsub k' Hin0).
      unfold dict_keys in *. apply list_elem_of_fmap in Hsub as ([k0 v0] & -> & Hin).
      apply list_elem_of_fmap. exists (k0, v0). split; [done|].
      by apply list_elem_of_filter.
Qed.

Lemma _del_cases p m :
  delta m <> 0 ->
  (Z.of_nat (size ({[p]} ∪ recycled m)) * delta m = max_pointer_id m - begin m
   /\ _del p m = Ok (set_recycled ∅ (set_max_pointer_id (begin m) m)))
  \/ (Z.of_nat (size ({[p]} ∪ recycled m)) * delta m <> max_pointer_id m - begin m
      /\ _del p m = Ok (set_recycled ({[p]} ∪ recycled m) m)).
Proof.
  intros Hd. unfold _del. rewrite decide_False by done. case_decide; [left|right]; done.
Qed.

Lemma _del_set_heap p h m :
  _del p (set_heap h m)
  = match _del p m with Ok m' => Ok (set_heap h m') | Raise e => Raise e end.
Proof. unfold _del. simpl. repeat case_decide; done. Qed.

Lemma _del_fields p m m' :
  _del p m = Ok m' ->
  pointers m' = pointers m /\ begin m' = begin m /\ delta m' = delta m
  /\ now m' = now m /\ unused m' = unused m /\ unused_now m' = unused_now m
  /\ mark_as_released m' = mark_as_released m /\ heap m' = heap m.
Proof. unfold _del. repeat case_decide; intros [= <-]; done. Qed.

Lemma free_all_set_heap ps h m :
  free_all ps (set_heap h m)
  = match free_all ps m with Ok m' => Ok (set_heap h m') | Raise e => Raise e end.
Proof.
  revert m. induction ps as [|p ps IH]; intros m; simpl; [done|].
  unfold free_all in *. simpl. rewrite _del_set_heap.
  destruct (_del p m) as [m1|e]; simpl; [apply IH|done].
Qed.

Lemma free_all_fields ps m m' :
  free_all ps m = Ok m' ->
  pointers m' = pointers m /\ begin m' = begin m /\ delta m' = delta m
  /\ now m' = now m /\ unused m' = unused m /\ unused_now m' = unused_now m
  /\ mark_as_released m' = mark_as_released m /\ heap m' = heap m.
Proof.
  revert m. induction ps as [|p ps IH]; intros m; unfold free_all; simpl.
  - by intros [= <-].
  - destruct (_del p m) as [m1|e] eqn:Hd; simpl; [|done].
    intros H. apply IH in H. apply _del_fields in Hd. intuition congruence.
Qed.

Lemma age_heap_deref l h a :
  NoDup l -> (forall b, b ∈ l -> (b < length h)%nat) ->
  deref (age_heap l h) a = if decide (a ∈ l) then aged (deref h a) else deref h a.
Proof.
  revert h. induction l as [|b l IH]; intros h Hnd Hv.
  - destruct (decide (a ∈ [])) as [Hin|_]; [by apply elem_of_nil in Hin|done].
  - apply NoDup_cons in Hnd as [Hb Hnd].
    change (age_heap (b :: l) h) with (age_heap l (<[b := aged (deref h b)]> h)).
    rewrite IH; [|done|intros c Hc; rewrite length_insert; apply Hv; by right].
    destruct (decide (a = b)) as [->|Hne].
    + destruct (decide (b ∈ l)) as [|_]; [done|].
      destruct (decide (b ∈ b :: l)) as [_|Hn]; [|exfalso; apply Hn; left].
      rewrite deref_insert_eq; [done|apply Hv; left].
    + rewrite deref_insert_ne by done.
      destruct (decide (a ∈ l)) as [Hin|Hin], (decide (a ∈ b :: l)) as [Hin'|Hin']; try done.
      * exfalso. apply Hin'. by right.
      * exfalso. by apply elem_of_cons in Hin' as [?|?].
Qed.

Lemma length_age_heap l h : length (age_heap l h) = length h.
Proof.
  revert h. induction l as [|b l IH]; intros h; simpl; [done|].
  by rewrite IH, length_insert.
Qed.

Lemma set_heap_set_heap h h' m : set_heap h (set_heap h' m) = set_heap h m.
Proof. done. Qed.

Lemma _del_Ok p m : delta m <> 0 -> exists m', _del p m = Ok m'.
Proof. intros Hd. destruct (_del_cases p m Hd) as [[_ ->]|[_ ->]]; eauto. Qed.

(** The keyframe loop: which items it yields and what it leaves. *)
Lemma age_spec l m marked :
  NoDup l -> (forall a, a ∈ l -> (a < length (heap m))%nat) -> delta m <> 0 ->
  let exp := filter (expired (heap m)) l in
  exists mf,
    free_all (pid_of m <$> exp) m = Ok mf
    /\ age l m marked
       = ((fun a => up_of (aged (deref (heap m) a))) <$> exp,
          Ok (set_heap (age_heap l (heap m)) mf, marked ++ (pid_of m <$> exp))).
Proof.
  revert m marked. induction l as [|a l IH]; intros m marked Hnd Hv Hd.
  - exists m. split; [done|]. simpl. rewrite app_nil_r. by destruct m.
  - apply NoDup_cons in Hnd as [Ha Hnd].
    set (h1 := <[a := aged (deref (heap m) a)]> (heap m)).
    assert (Hsame : forall b, b ∈ l -> deref h1 b = deref (heap m) b).
    { intros b Hb. unfold h1. apply deref_insert_ne. by intros ->. }
    assert (Hfilter : filter (expired h1) l = filter (expired (heap m)) l).
    { apply filter_ext_elem. intros b Hb. unfold expired. by rewrite Hsame. }
    assert (Hsub : forall b, b ∈ filter (expired (heap m)) l -> b ∈ l).
    { intros b Hb. by apply list_elem_of_filter in Hb as [_ ?]. }
    assert (Hpids : forall md, pid_of (set_heap h1 md) <$> filter (expired (heap m)) l
                               = pid_of m <$> filter (expired (heap m)) l).
    { intros md. apply list_fmap_ext. intros i b Hb. unfold pid_of. simpl.
      rewrite Hsame; [done|]. apply Hsub. by eapply list_elem_of_lookup_2. }
    assert (Hups : (fun b => up_of (aged (deref h1 b))) <$> filter (expired (heap m)) l
                   = (fun b => up_of (aged (deref (heap m) b))) <$> filter (expired (heap m)) l).
    { apply list_fmap_ext. intros i b Hb.
      rewrite Hsame; [done|]. apply Hsub. by eapply list_elem_of_lookup_2. }
    assert (Hv1 : forall b, b ∈ l -> (b < length h1)%nat).
    { intros b Hb. unfold h1. rewrite length_insert. apply Hv. by right. }
    assert (Hstep : age (a :: l) m marked
      = if decide (expired (heap m) a) then
          match _del (pid_of m a) m with
          | Raise e => ([up_of (aged (deref (heap m) a))], Raise e)
          | Ok md =>
              let '(ups, r) := age l (set_heap h1 md) (marked ++ [pid_of m a]) in
              (up_of (aged (deref (heap m) a)) :: ups, r)
          end
        else age l (set_heap h1 m) marked).
    { cbn [age]. unfold expired. cbn [occupied]. fold (aged (deref (heap m) a)). fold h1.
      destruct (decide (1 < occupied (deref (heap m) a) + 1)); [|done].
      cbn [pid aged]. fold (pid_of m a). rewrite _del_set_heap.
      by destruct (_del (pid_of m a) m). }
    rewrite Hstep. clear Hstep. cbv zeta. rewrite filter_cons.
    destruct (decide (expired (heap m) a)) as [Hexp|Hexp].
    + destruct (_del_Ok (pid_of m a) m Hd) as [md Hdel]. rewrite Hdel.
      pose proof (_del_fields _ _ _ Hdel) as (_ & _ & Hdd & _ & _ & _ & _ & Hh).
      destruct (IH (set_heap h1 md) (marked ++ [pid_of m a]) Hnd Hv1) as (mf & Hfree & Hage).
      { simpl. by rewrite Hdd. }
      cbv zeta in Hfree, Hage. cbn [heap set_heap] in Hfree, Hage.
      rewrite Hfilter, Hpids in Hfree. rewrite Hfilter, Hpids, Hups in Hage.
      rewrite free_all_set_heap in Hfree.
      destruct (free_all (pid_of m <$> filter (expired (heap m)) l) md) as [mf0|] eqn:Hfree0; [|done].
      injection Hfree as <-. exists mf0. split.
      * rewrite fmap_cons. unfold free_all. cbn [fold_res]. rewrite Hdel. exact Hfree0.
      * rewrite Hage, set_heap_set_heap, !fmap_cons, <- app_assoc. reflexivity.
    + destruct (IH (set_heap h1 m) marked Hnd Hv1 Hd) as (mf & Hfree & Hage).
      cbv zeta in Hfree, Hage. cbn [heap set_heap] in Hfree, Hage.
      rewrite Hfilter, Hpids in Hfree. rewrite Hfilter, Hpids, Hups in Hage.
      rewrite free_all_set_heap in Hfree.
      destruct (free_all (pid_of m <$> filter (expired (heap m)) l) m) as [mf0|] eqn:Hfree0; [|done].
      injection Hfree as <-. exists mf0. split; [done|].
      rewrite Hage, set_heap_set_heap. reflexivity.
Qed.
End Recycle.

Section RecycleInv.
Implicit Types (m : PointerManager) (lv : list addr).

Lemma alloc_ok_subset m lv lv' :
  NoDup lv' -> (forall a, a ∈ lv' -> a ∈ lv) -> alloc_ok m lv -> alloc_ok m lv'.
Proof.
  intros Hnd Hsub [H1 H2 H3 H4 (n & H5 & H6 & H7) H8]. split; auto.
  exists n. auto.
Qed.

Lemma elem_of_handed_out m n p : p ∈ handed_out m n <-> allocated_below m n p.
Proof.
  unfold handed_out, allocated_below. rewrite elem_of_list_to_set, list_elem_of_fmap.
  split.
  - intros (i & -> & Hi). apply elem_of_seq in Hi. exists i. split; [lia|done].
  - intros (i & Hi & ->). exists i. split; [done|]. apply elem_of_seq. lia.
Qed.

Lemma size_handed_out m n : delta m <> 0 -> size (handed_out m n) = n.
Proof.
  intros Hd. unfold handed_out. rewrite size_list_to_set.
  - by rewrite length_fmap, length_seq.
  - apply NoDup_fmap_2_strong; [|apply NoDup_seq].
    intros i j _ _ Heq. assert (Z.of_nat i = Z.of_nat j) by nia. lia.
Qed.

(** Freeing the pid of an object in use. *)
Lemma _del_alloc m lv a m' :
  alloc_ok m lv -> a ∈ lv -> _del (pid_of m a) m = Ok m' ->
  alloc_ok m' (filter (fun b => b <> a) lv).
Proof.
  intros [H1 H2 H3 H4 (n & H5 & H6 & H7) H8] Ha Hdel.
  assert (Hsub : forall b, b ∈ filter (fun b => b <> a) lv -> b ∈ lv /\ b <> a).
  { intros b Hb. apply list_elem_of_filter in Hb. tauto. }
  assert (Hpid : forall b, b ∈ lv -> b <> a -> pid_of m b <> pid_of m a).
  { intros b Hb Hne Heq. apply Hne. by apply H4. }
  destruct (_del_cases (pid_of m a) m H1) as [[Hfull Heq]|[_ Heq]];
    rewrite Heq in Hdel; injection Hdel as <-.
  - (* every pid handed out is recycled: nothing else is in use *)
    assert (Hsize : size ({[pid_of m a]} ∪ recycled m) = n).
    { assert (Z.of_nat (size ({[pid_of m a]} ∪ recycled m)) = Z.of_nat n) by nia. lia. }
    assert (Hall : {[pid_of m a]} ∪ recycled m = handed_out m n).
    { apply set_subseteq_size_eq.
      - intros p [->%elem_of_singleton|Hp]%elem_of_union; apply elem_of_handed_out; auto.
      - rewrite size_handed_out by done. lia. }
    assert (Hnil : filter (fun b => b <> a) lv = []).
    { apply elem_of_nil_inv. intros b [Hb Hne]%Hsub.
      assert (Hin : pid_of m b ∈ handed_out m n) by (apply elem_of_handed_out; auto).
      rewrite <- Hall in Hin.
      apply elem_of_union in Hin as [Hin%elem_of_singleton|Hin].
      - by apply (Hpid b).
      - by apply (H8 b). }
    rewrite Hnil. split; simpl; try done; try (intros * Hb; by apply elem_of_nil in Hb).
    + apply NoDup_nil_2.
    + exists 0%nat. split_and!; [lia| |]; intros * Hb; [set_solver|by apply elem_of_nil in Hb].
  - split; simpl; auto.
    + intros b Hb. apply H2. by apply Hsub.
    + by apply NoDup_filter.
    + intros b c Hb%Hsub Hc%Hsub. apply H4; tauto.
    + exists n. split_and!; [done| |].
      * intros p [->%elem_of_singleton|Hp]%elem_of_union;
          [exact (H7 a Ha)|exact (H6 p Hp)].
      * intros b Hb%Hsub. apply (H7 b). tauto.
    + intros b [Hb Hne]%Hsub [Hp%elem_of_singleton|Hp]%elem_of_union.
      * by apply (Hpid b).
      * by apply (H8 b).
Qed.

Lemma free_all_alloc exp m lv mf :
  alloc_ok m lv -> NoDup exp -> (forall a, a ∈ exp -> a ∈ lv) ->
  free_all (pid_of m <$> exp) m = Ok mf ->
  alloc_ok mf (filter (fun b => b ∉ exp) lv).
Proof.
  revert m lv. induction exp as [|a exp IH]; intros m lv Hok Hnd Hsub.
  - unfold free_all. simpl. intros [= <-].
    rewrite filter_all; [done|]. intros b. apply not_elem_of_nil.
  - apply NoDup_cons in Hnd as [Ha Hnd].
    unfold free_all. rewrite fmap_cons. cbn [fold_res].
    destruct (_del (pid_of m a) m) as [m1|] eqn:Hdel; [|done]. cbn.
    intros Hfree. fold (free_all (pid_of m <$> exp) m1) in Hfree.
    pose proof (_del_fields _ _ _ Hdel) as (_ & _ & _ & _ & _ & _ & _ & Hh).
    assert (Hpid : pid_of m1 = pid_of m).
    { unfold pid_of. by rewrite Hh. }
    rewrite <- Hpid in Hfree.
    apply (IH m1 (filter (fun b => b <> a) lv)) in Hfree.
    + rewrite list_filter_filter in Hfree.
      erewrite list_filter_iff; [exact Hfree|].
      intros b. simpl. rewrite not_elem_of_cons. tauto.
    + eapply _del_alloc; [done| |done]. apply Hsub. left.
    + done.
    + intros b Hb. apply list_elem_of_filter. split; [by intros ->|].
      apply Hsub. by right.
Qed.

Lemma _del_set_released p x y m :
  _del p (set_mark_as_released x (set_pointers y m))
  = match _del p m with
    | Ok m' => Ok (set_mark_as_released x (set_pointers y m'))
    | Raise e => Raise e
    end.
Proof. unfold _del. simpl. repeat case_decide; done. Qed.

Lemma free_all_set_released ps x y m :
  free_all ps (set_mark_as_released x (set_pointers y m))
  = match free_all ps m with
    | Ok m' => Ok (set_mark_as_released x (set_pointers y m'))
    | Raise e => Raise e
    end.
Proof.
  revert m. induction ps as [|p ps IH]; intros m; [done|].
  unfold free_all in *. cbn [fold_res]. rewrite _del_set_released.
  destruct (_del p m) as [m1|e]; cbn; [apply IH|done].
Qed.

Lemma live_pointer m e a : (e, a) ∈ pointers m -> a ∈ live m.
Proof.
  intros H. unfold live. apply elem_of_app. left. by eapply elem_dict_values.
Qed.

Lemma live_unused m k a : (k, a) ∈ unused m -> a ∈ live m.
Proof.
  intros H. unfold live. apply elem_of_app. right. by eapply elem_dict_values.
Qed.

Lemma pm_inv_apart m e a k :
  pm_inv m -> (e, a) ∈ pointers m -> (k, a) ∈ unused m -> False.
Proof.
  intros Hinv Hp Hu. pose proof (ok_nodup _ _ (inv_alloc _ Hinv)) as Hnd.
  unfold live in Hnd. apply NoDup_app in Hnd as (_ & Hd & _).
  apply (Hd a); by eapply elem_dict_values.
Qed.

Local Arguments dict_update : simpl never.
Local Arguments del_all : simpl never.
Local Arguments age_heap : simpl never.

Lemma dict_values_filter (Q : Z * addr -> Prop) `{!forall x, Decision (Q x)} d :
  NoDup (dict_values d) -> NoDup (dict_values (filter Q d)).
Proof.
  unfold dict_values. induction d as [|kv d IH]; [done|].
  rewrite fmap_cons, NoDup_cons. intros [Hk Hnd].
  rewrite filter_cons. case_decide; [|by apply IH].
  rewrite fmap_cons, NoDup_cons. split; [|by apply IH].
  intros Hin. apply Hk. apply list_elem_of_fmap in Hin as [x [-> Hx]].
  apply list_elem_of_filter in Hx as [_ Hx]. apply list_elem_of_fmap. by exists x.
Qed.

Lemma dict_values_keyed (f : addr -> Z) (d : list (Z * addr)) :
  NoDup (dict_keys d) -> (forall k a, (k, a) ∈ d -> f a = k) -> NoDup (dict_values d).
Proof.
  unfold dict_keys, dict_values. induction d as [|[k a] d IH]; [intros; apply NoDup_nil_2|].
  rewrite !fmap_cons, !NoDup_cons. simpl. intros [Hk Hnd] Hf. split.
  - intros Hin. apply Hk. apply list_elem_of_fmap in Hin as ([k' a'] & Heq & Hin).
    simpl in Heq. subst a'. apply list_elem_of_fmap. exists (k', a). split; [|done].
    simpl. rewrite <- (Hf k a) by left. apply Hf. by right.
  - apply IH; [done|]. intros k' a' Hin. apply Hf. by right.
Qed.

Lemma pid_age_heap l h a : pid (deref (age_heap l h) a) = pid (deref h a).
Proof.
  revert h. induction l as [|b l IH]; intros h; [done|].
  change (age_heap (b :: l) h) with (age_heap l (<[b := aged (deref h b)]> h)).
  rewrite IH. destruct (decide (b = a)) as [->|Hne]; [|by rewrite deref_insert_ne].
  destruct (decide (a < length h)%nat).
  - by rewrite deref_insert_eq.
  - by rewrite list_insert_ge by lia.
Qed.

Lemma elem_dict_values_inv (d : list (Z * addr)) a :
  a ∈ dict_values d -> exists k, (k, a) ∈ d.
Proof.
  unfold dict_values. intros ([k b] & -> & Hin)%list_elem_of_fmap. by exists k.
Qed.

Lemma free_all_Ok ps m : delta m <> 0 -> exists mf, free_all ps m = Ok mf.
Proof.
  revert m. induction ps as [|p ps IH]; intros m Hd; [by exists m|].
  destruct (_del_Ok p m Hd) as [m1 Hdel].
  destruct (IH m1) as [mf Hf].
  { apply _del_fields in Hdel as (_ & _ & -> & _). done. }
  exists mf. unfold free_all in *. cbn [fold_res]. by rewrite Hdel.
Qed.


(** [recycle] on a well-formed manager, in closed form. *)
Lemma recycle_eq is_keyframe m :
  pm_inv m -> NoDup (mark_as_released m) ->
  exists mf,
    free_all (pid_of m <$> expiring is_keyframe m) m = Ok mf
    /\ recycle is_keyframe m
       = ((fun a => up_of (aged (deref (heap m) a))) <$> expiring is_keyframe m,
          let m' := recycled_state is_keyframe m mf in
          if decide (max_on_screen < length (unused m') + length (pointers m'))%nat
          then Raise (RuntimeError (length (unused m')) (length (pointers m')) (now m))
          else Ok m').
Proof.
  intros Hinv Hmarks. set (exp := expiring is_keyframe m).
  pose proof Hinv as [H1 H2 H3 H4 H5 H6 H7].
  pose proof H1 as [A1 A2 A3 A4 A5 A6].
  destruct (free_all_Ok (pid_of m <$> exp) m A1) as [mf Hfree].
  exists mf. split; [done|].
  pose proof (free_all_fields _ _ _ Hfree) as (F1 & F2 & F3 & F4 & F5 & F6 & F7 & F8).
  unfold recycle. rewrite del_all_succeeds; [|done|done|].
  2:{ intros e He. destruct (H7 e He) as (a & Ha & _). by eapply elem_dict_keys. }
  set (ptrs' := filter _ (pointers m)) in *.
  set (m1 := set_mark_as_released [] (set_pointers ptrs' m)) in *.
  assert (Hnd_unused : NoDup (dict_values (unused m))).
  { unfold live in A3. by apply NoDup_app in A3 as (_ & _ & ?). }
  assert (Hsub : forall a, a ∈ exp -> exists k, (k, a) ∈ unused m).
  { intros a Ha. unfold exp, expiring in Ha. destruct is_keyframe; [|by apply elem_of_nil in Ha].
    apply list_elem_of_filter in Ha as [_ Ha]. by apply elem_dict_values_inv. }
  assert (Hfree1 : free_all (pid_of m <$> exp) m1
                   = Ok (set_mark_as_released [] (set_pointers ptrs' mf))).
  { unfold m1. by rewrite free_all_set_released, Hfree. }
  assert (Hage : (if is_keyframe then age (dict_values (unused m1)) m1 [] else ([], Ok (m1, [])))
               = ((fun a => up_of (aged (deref (heap m) a))) <$> exp,
                  Ok (set_heap (if is_keyframe
                                then age_heap (dict_values (unused m)) (heap m)
                                else heap m)
                        (set_mark_as_released [] (set_pointers ptrs' mf)),
                      pid_of m <$> exp))).
  { unfold exp, expiring in *. destruct is_keyframe.
    - destruct (age_spec (dict_values (unused m1)) m1 []) as (mf1 & Hf & Ha); try done.
      { intros a Ha. apply A2. unfold live. apply elem_of_app. by right. }
      cbv zeta in Hf. change (heap m1) with (heap m) in Hf.
      change (unused m1) with (unused m) in Hf.
      change (pid_of m1) with (pid_of m) in Hf. rewrite Hfree1 in Hf.
      assert (mf1 = set_mark_as_released [] (set_pointers ptrs' mf)) by congruence.
      subst mf1. exact Ha.
    - cbn in Hfree, Hfree1. assert (mf = m) by congruence. subst mf.
      simpl. by destruct m. }
  rewrite Hage. clear Hage. f_equal.
  cbn [mbind Res_bind]. unfold settle. cbn [unused set_heap set_mark_as_released set_pointers].
  rewrite F5.
  assert (Hpids_nd : NoDup (pid_of m <$> exp)).
  { apply NoDup_fmap_2_strong.
    - intros a b Ha Hb. destruct (Hsub a Ha) as [k Hk], (Hsub b Hb) as [k' Hk'].
      apply A4; by eapply live_unused.
    - unfold exp, expiring. destruct is_keyframe; [|apply NoDup_nil_2]. by apply NoDup_filter. }
  assert (Hkey : forall k a, (k, a) ∈ unused m -> (k ∈ pid_of m <$> exp <-> a ∈ exp)).
  { intros k a Hka. rewrite <- (H5 k a Hka). split.
    - intros (b & Hpid & Hb)%list_elem_of_fmap. destruct (Hsub b Hb) as [k' Hk'].
      assert (a = b) as -> by (apply A4; [by eapply live_unused..|done]). done.
    - intros Ha. apply list_elem_of_fmap. by exists a. }
  rewrite del_all_succeeds; [|done|done|].
  2:{ intros k (b & -> & Hb)%list_elem_of_fmap. destruct (Hsub b Hb) as [k' Hk'].
      rewrite (H5 _ _ Hk'). by eapply elem_dict_keys. }
  cbn [mbind Res_bind].
  rewrite (filter_ext_elem _ (fun kv => snd kv ∉ exp)).
  2:{ intros [k a] Hka. simpl. by rewrite (Hkey k a Hka). }
  cbn [unused_now set_heap set_mark_as_released set_pointers]. rewrite F6.
  rewrite dict_update_disjoint; [|done|].
  2:{ intros k Hk Hk'. unfold dict_keys in Hk, Hk'.
      apply list_elem_of_fmap in Hk as ([k0 b] & -> & Hb).
      apply list_elem_of_fmap in Hk' as ([k1 a] & Heq & Ha). simpl in Heq. subst k1.
      apply list_elem_of_filter in Ha as [_ Ha].
      destruct (H6 _ _ Hb) as [Hpb (e & He & _)].
      assert (a = b) as ->.
      { apply A4; [by eapply live_unused|by eapply live_pointer|].
        by rewrite (H5 _ _ Ha), Hpb. }
      by eapply pm_inv_apart. }
  unfold recycled_state. fold exp. fold ptrs'.
  cbn -[max_on_screen]. rewrite F4. reflexivity.
Qed.

(** What [recycle] does to a well-formed manager when it returns. *)
Lemma recycle_spec is_keyframe m ups m' :
  pm_inv m -> recycle is_keyframe m = (ups, Ok m') ->
  let exp := expiring is_keyframe m in
  exists mf,
    free_all (pid_of m <$> exp) m = Ok mf
    /\ ups = (fun a => up_of (aged (deref (heap m) a))) <$> exp
    /\ NoDup (mark_as_released m)
    /\ m' = recycled_state is_keyframe m mf
    /\ (length (unused m') + length (pointers m') <= max_on_screen)%nat.
Proof.
  intros Hinv Hrec exp.
  assert (Hmarks : NoDup (mark_as_released m)).
  { unfold recycle in Hrec.
    destruct (del_all (mark_as_released m) (pointers m)) as [ptrs'|] eqn:Hdel; [|done].
    apply del_all_Ok in Hdel as (? & _); [done|]. by apply inv_pointer_keys. }
  destruct (recycle_eq is_keyframe m Hinv Hmarks) as (mf & Hfree & Heq).
  rewrite Heq in Hrec. cbv zeta in Hrec. case_decide as Hbudget; [done|].
  injection Hrec as Hu Hm. subst ups m'.
  exists mf. split_and!; try done. lia.
Qed.

Lemma pm_inv_recycle is_keyframe m ups m' :
  pm_inv m -> recycle is_keyframe m = (ups, Ok m') ->
  pm_inv m' /\ unused_now m' = [] /\ mark_as_released m' = [].
Proof.
  intros Hinv Hrec.
  destruct (recycle_spec _ _ _ _ Hinv Hrec) as (mf & Hfree & _ & _ & -> & _).
  unfold recycled_state.
  pose proof Hinv as [H1 H2 H3 H4 H5 H6 H7].
  pose proof H1 as [A1 A2 A3 A4 A5 A6].
  pose proof (free_all_fields _ _ _ Hfree) as (F1 & F2 & F3 & F4 & F5 & F6 & F7 & F8).
  set (exp := expiring is_keyframe m) in *.
  set (H := if is_keyframe then _ else _).
  set (ptrs' := filter _ (pointers m)).
  set (ufilt := filter _ (unused m)).
  set (m' := set_unused_now _ _).
  assert (Hsub : forall a, a ∈ exp -> exists k, (k, a) ∈ unused m).
  { intros a Ha. unfold exp, expiring in Ha. destruct is_keyframe; [|by apply elem_of_nil in Ha].
    apply list_elem_of_filter in Ha as [_ Ha]. by apply elem_dict_values_inv. }
  assert (Hexp_nd : NoDup exp).
  { unfold exp, expiring. destruct is_keyframe; [|apply NoDup_nil_2].
    apply NoDup_filter. unfold live in A3. by apply NoDup_app in A3 as (_ & _ & ?). }
  assert (HpidH : forall a, pid (deref H a) = pid_of m a).
  { intros a. unfold H. destruct is_keyframe; [|done]. apply pid_age_heap. }
  assert (HlenH : length H = length (heap m)).
  { unfold H. destruct is_keyframe; [|done]. apply length_age_heap. }
  assert (Hpid' : forall a, pid_of m' a = pid_of m a).
  { intros a. unfold pid_of at 1. unfold m'. cbn. apply HpidH. }
  assert (Hnd_p : NoDup (dict_values (pointers m)) /\ NoDup (dict_values (unused m))).
  { unfold live in A3. apply NoDup_app in A3 as (? & _ & ?). done. }
  destruct Hnd_p as [Hnd_p Hnd_u].
  assert (Hlive' : live m' = dict_values ptrs' ++ dict_values ufilt ++ dict_values (unused_now m)).
  { unfold live, m'. cbn. unfold dict_values. by rewrite fmap_app. }
  assert (Hin_p : forall a, a ∈ dict_values ptrs' ->
            exists e, (e, a) ∈ pointers m /\ e ∉ mark_as_released m).
  { intros a [e He]%elem_dict_values_inv. apply list_elem_of_filter in He as [Hne He].
    by exists e. }
  assert (Hin_u : forall a, a ∈ dict_values ufilt -> exists k, (k, a) ∈ unused m /\ a ∉ exp).
  { intros a [k Hk]%elem_dict_values_inv. apply list_elem_of_filter in Hk as [Hne Hk].
    by exists k. }
  assert (Hin_n : forall a, a ∈ dict_values (unused_now m) ->
            exists e, (e, a) ∈ pointers m /\ e ∈ mark_as_released m).
  { intros a [k Hk]%elem_dict_values_inv. by destruct (H6 _ _ Hk) as [_ ?]. }
  assert (Hnd' : NoDup (live m')).
  { rewrite Hlive'. apply NoDup_app. split_and!.
    - by apply dict_values_filter.
    - intros a (e & He & Hne)%Hin_p [(k & Hk & _)%Hin_u|(e' & He' & Hin)%Hin_n]%elem_of_app.
      + by eapply pm_inv_apart.
      + assert (e = e') by exact (values_inj (pointers m) e e' a Hnd_p He He'). by subst.
    - apply NoDup_app. split_and!.
      + by apply dict_values_filter.
      + intros a (k & Hk & _)%Hin_u (e & He & _)%Hin_n. by eapply pm_inv_apart.
      + by apply (dict_values_keyed (pid_of m)); [|intros k a Hk; apply (H6 k a Hk)]. }
  assert (Hsub' : forall a, a ∈ live m' -> a ∈ filter (fun b => b ∉ exp) (live m)).
  { intros a. rewrite Hlive', !elem_of_app, list_elem_of_filter.
    intros [(e & He & _)%Hin_p|[(k & Hk & Hne)%Hin_u|(e & He & _)%Hin_n]].
    - split; [|by eapply live_pointer]. intros [k Hk]%Hsub. by eapply pm_inv_apart.
    - split; [done|by eapply live_unused].
    - split; [|by eapply live_pointer]. intros [k Hk]%Hsub. by eapply pm_inv_apart. }
  assert (Halloc : alloc_ok m' (live m')).
  { apply (alloc_ok_ext mf m' (live m') (live m')); try done.
    - unfold m'. cbn. rewrite HlenH, F8. done.
    - intros a _. rewrite Hpid'. unfold pid_of. by rewrite F8.
    - apply (alloc_ok_subset mf (filter (fun b => b ∉ exp) (live m))); [done|done|].
      apply (free_all_alloc exp m); [done|done| |done].
      intros a [k Hk]%Hsub. by eapply live_unused. }
  split; [|done]. split.
  - exact Halloc.
  - unfold m'. cbn. by apply dict_keys_filter.
  - unfold m'. cbn. unfold dict_keys. rewrite fmap_app. apply NoDup_app. split_and!.
    + by apply dict_keys_filter.
    + intros k ([k0 a] & -> & Ha)%list_elem_of_fmap ([k1 b] & Heq & Hb)%list_elem_of_fmap.
      simpl in Heq. subst k1. apply list_elem_of_filter in Ha as [_ Ha].
      destruct (H6 _ _ Hb) as [Hpb (e & He & _)].
      assert (a = b) as ->.
      { apply A4; [by eapply live_unused|by eapply live_pointer|].
        by rewrite (H5 _ _ Ha), Hpb. }
      by eapply pm_inv_apart.
    + done.
  - apply NoDup_nil_2.
  - intros k a. unfold m' at 1. cbn. rewrite Hpid'.
    intros [[_ Hk]%list_elem_of_filter|Hk]%elem_of_app; [by apply H5|by apply (H6 k a Hk)].
  - intros k a Hk. by apply elem_of_nil in Hk.
  - intros e He. by apply elem_of_nil in He.
Qed.

(** Every state the planner reaches is well-formed. *)
Lemma reachable_inv E m : reachable E m -> pm_inv m.
Proof.
  induction 1 as [b|m ms _ IH|m event new m' r _ IH Hacq|m event _ IH|m kf ups m' _ IH Hrec].
  - apply pm_inv_init.
  - by apply pm_inv_set_now.
  - by eapply pm_inv_acquire.
  - by apply pm_inv_release.
  - by eapply pm_inv_recycle.
Qed.
End RecycleInv.

(** * The id allocator *)

Section AllocFacts.
Variable E : Env.

(** C8 (amended).  When [acquire] finds no live pointer for the event id
    and no reusable one, it allocates through [_new]: with [recycled]
    empty the pid is [max_pointer_id], which is then advanced by [delta];
    otherwise the pid is the element of [recycled] that [set.pop()]
    yields, some element of the set, which is removed from it. *)
Theorem fresh_pid_allocation (event : FrameEvent) (new : bool) (m : PointerManager) :
  dict_get (fe_id event) (pointers m) = None ->
  (if new then None else snd (scan E m (fe_point event))) = None ->
  acquire E event new m = Ok (fresh_pointer E event m)
  /\ snd (fresh_pointer E event m) = (fst (_new E m), true)
  /\ (recycled m = ∅ ->
      fst (_new E m) = max_pointer_id m
      /\ max_pointer_id (snd (_new E m)) = max_pointer_id m + delta m
      /\ recycled (snd (_new E m)) = ∅)
  /\ (recycled m <> ∅ ->
      fst (_new E m) = set_pop (pop E) (pops m) (recycled m)
      /\ fst (_new E m) ∈ recycled m
      /\ recycled (snd (_new E m)) = recycled m ∖ {[fst (_new E m)]}
      /\ max_pointer_id (snd (_new E m)) = max_pointer_id m).
Proof.
  intros Hlive Hscan. split_and!.
  - unfold acquire. by rewrite Hlive, Hscan.
  - unfold fresh_pointer. by destruct (_new E m).
  - intros Hr. unfold _new. rewrite decide_True by done. done.
  - intros Hr. unfold _new. rewrite decide_False by done. simpl.
    split_and!; try done. by apply set_pop_elem.
Qed.
End AllocFacts.

Lemma fresh_pid_allocation_witness :
  (dict_get 7 (pointers before_eighth_tap) = None
   /\ recycled before_eighth_tap = {[1000; 1003]}
   /\ acquire (env_of cpython_pops) (tap_event 7) true before_eighth_tap
      = Ok (fresh_pointer (env_of cpython_pops) (tap_event 7) before_eighth_tap)
   /\ fst (_new (env_of cpython_pops) before_eighth_tap) ∈ recycled before_eighth_tap
   /\ recycled (snd (_new (env_of cpython_pops) before_eighth_tap))
      = recycled before_eighth_tap ∖ {[fst (_new (env_of cpython_pops) before_eighth_tap)]})
  /\ (dict_get 0 (pointers (PointerManager_init 1000 1)) = None
      /\ fst (_new (env_of pop_smallest) (PointerManager_init 1000 1)) = 1000
      /\ max_pointer_id (snd (_new (env_of pop_smallest) (PointerManager_init 1000 1))) = 1001).
Proof.
  assert (Hrec : recycled before_eighth_tap = {[1000; 1003]}) by (vm_compute; reflexivity).
  split.
  - destruct (fresh_pid_allocation (env_of cpython_pops) (tap_event 7) true before_eighth_tap)
      as (H1 & _ & _ & H4); [reflexivity|reflexivity|].
    destruct H4 as (_ & H5 & H6 & _).
    { rewrite Hrec. intros He. assert (Hin : 1000 ∈ (∅ : gset Z)) by (rewrite <- He; set_solver).
      set_solver. }
    split_and!; [reflexivity|exact Hrec|exact H1|exact H5|exact H6].
  - destruct (fresh_pid_allocation (env_of pop_smallest) (tap_event 0) true
                (PointerManager_init 1000 1)) as (_ & _ & H3 & _); [reflexivity|reflexivity|].
    destruct (H3 eq_refl) as (H5 & H6 & _).
    split_and!; [reflexivity|exact H5|exact H6].
Defined.

(** C8 as stated fails under CPython: with two taps at 1000 ms and one tap
    each second after, the pops of [recycled] answer 1000, 1001, 1002 and
    then, for the eighth tap, 1003 while the set is {1000, 1003}: the
    smallest recycled pid is passed over. *)
Lemma fresh_pid_not_smallest :
  sorted_items (synthesize (env_of cpython_pops) eight_taps_chart) = eight_taps
  /\ (exists m r m',
        plan (env_of cpython_pops) (take 6 eight_taps) = Ok (m, r)
        /\ recycled m = {[1000; 1003]}
        /\ acquire (env_of cpython_pops) (tap_event 7) true (set_now 7000 m)
           = Ok (m', (1003, true)))
  /\ (fun t => pointer_id <$> touches (events_at (solved (env_of cpython_pops) eight_taps_chart) t))
       <$> [1000; 2000; 3000; 4000; 5000; 6000; 7000]
     = [[1000; 1001]; [1002]; [1003]; [1000]; [1001]; [1002]; [1003]].
Proof.
  split_and!.
  - vm_compute; reflexivity.
  - eexists _, _, _. split_and!; vm_compute; reflexivity.
  - vm_compute; reflexivity.
Qed.

(** * The planner keeps the manager well-formed *)

Section PlannerReach.
Variable E : Env.

Lemma acquire_now event new m m' r :
  acquire E event new m = Ok (m', r) -> now m' = now m.
Proof.
  intros Hacq.
  destruct (acquire_cases _ _ _ _ _ _ Hacq)
    as [(a & _ & -> & _)|[(np & a & _ & _ & _ & _ & _ & -> & _)|(_ & _ & Heq)]]; try done.
  unfold fresh_pointer in Heq. destruct (_new_fields E m) as (_ & _ & _ & Hn & _).
  destruct (_new E m) as [p m1]. injection Heq as -> _. simpl in *. done.
Qed.

Lemma release_now event m : now (release event m) = now m.
Proof. unfold release. by destruct (dict_get _ _). Qed.

Lemma handle_reachable ms m result kf event m' result' kf' :
  reachable E m -> handle E ms (m, result, kf) event = Ok (m', result', kf') ->
  reachable E m' /\ now m' = now m.
Proof.
  intros Hr. unfold handle.
  destruct (action event).
  all: destruct (acquire E event _ m) as [[m1 [p fresh]]|] eqn:Hacq.
  all: cbn. all: try done.
  all: intros Heq; injection Heq as <- _ _.
  all: pose proof (acquire_now _ _ _ _ _ Hacq) as Hn.
  all: pose proof (reach_acquire _ _ _ _ _ _ Hr Hacq) as Hr1.
  all: rewrite ?release_now.
  all: split; [|exact Hn].
  all: first [exact Hr1 | apply reach_release; exact Hr1].
Qed.

Lemma handle_all_reachable ms events m result kf m' result' kf' :
  reachable E m ->
  fold_res (handle E ms) events (m, result, kf) = Ok (m', result', kf') ->
  reachable E m' /\ now m' = now m.
Proof.
  revert m result kf. induction events as [|ev events IH]; intros m result kf Hr; cbn [fold_res].
  - by intros [= <- _ _].
  - destruct (handle E ms (m, result, kf) ev) as [[[m1 r1] kf1]|] eqn:Hh; cbn; [|done].
    intros Hrest. destruct (handle_reachable _ _ _ _ _ _ _ _ Hr Hh) as [Hr1 Hn1].
    destruct (IH _ _ _ Hr1 Hrest) as [Hr2 Hn2]. split; [done|congruence].
Qed.

Lemma plan_frame_reachable st item st' :
  reachable E (fst st) -> plan_frame E st item = Ok st' -> reachable E (fst st').
Proof.
  intros Hr. unfold plan_frame.
  destruct (fold_res _ _ _) as [[[m1 r1] kf1]|] eqn:Hfold; cbn; [|done].
  destruct (recycle kf1 m1) as [ups [m2|]] eqn:Hrec; cbn; [|done]. intros [= <-]. cbn.
  apply handle_all_reachable in Hfold as [Hr1 _]; [|by apply reach_now].
  by eapply reach_recycle.
Qed.

Lemma plan_from_reachable batches st st' :
  reachable E (fst st) -> fold_res (plan_frame E) batches st = Ok st' ->
  reachable E (fst st').
Proof.
  revert st. induction batches as [|item batches IH]; intros st Hr; cbn [fold_res].
  - by intros [= <-].
  - destruct (plan_frame E st item) as [st1|] eqn:Hf; cbn; [|done].
    apply IH. by eapply plan_frame_reachable.
Qed.

Lemma plan_reachable batches m result :
  plan E batches = Ok (m, result) -> reachable E m.
Proof.
  intros Hp. apply (plan_from_reachable batches _ (m, result)) in Hp; [done|].
  apply reach_init.
Qed.

(** C9 (amended).  At every point of planning the pointers held by
    [pointers] and by [unused] have pairwise distinct pids, so a pid is in
    at most one of the two and only once; [unused] is keyed by these pids.
    A pointer in [unused_now] is the pointer of an event id released in the
    current ms: it is still in [pointers], under an id listed in
    [mark_as_released], and its pid is not in [unused].  When [recycle]
    returns, [unused_now] and [mark_as_released] are empty. *)
Theorem pids_in_one_collection m :
  reachable E m ->
  NoDup (pid_of m <$> (dict_values (pointers m) ++ dict_values (unused m)))
  /\ (forall k a, (k, a) ∈ unused m -> pid_of m a = k)
  /\ (forall k a, (k, a) ∈ unused_now m ->
        pid_of m a = k /\ k ∉ dict_keys (unused m)
        /\ exists e, (e, a) ∈ pointers m /\ e ∈ mark_as_released m)
  /\ (forall is_keyframe ups m', recycle is_keyframe m = (ups, Ok m') ->
        unused_now m' = [] /\ mark_as_released m' = []).
Proof.
  intros Hinv%reachable_inv. pose proof Hinv as [H1 H2 H3 H4 H5 H6 H7]. split_and!.
  - by apply alloc_ok_pids.
  - exact H5.
  - intros k a Hk. destruct (H6 k a Hk) as [Hpid (e & He & Hm)]. split_and!; [done| |by exists e].
    intros [b Hb]%dict_get_is_Some. apply dict_get_Some_elem in Hb.
    assert (b = a) as ->.
    { eapply ok_inj; [exact H1|by eapply live_unused|by eapply live_pointer|].
      by rewrite (H5 _ _ Hb). }
    by eapply pm_inv_apart.
  - intros kf ups m' Hrec. by destruct (pm_inv_recycle _ _ _ _ Hinv Hrec) as (_ & ? & ?).
Qed.
End PlannerReach.

Lemma third_tap_reachable : reachable (env_of pop_smallest) (manager_of third_tap_handled).
Proof.
  assert (Hp : exists m r, plan (env_of pop_smallest) two_taps = Ok (m, r)
             /\ third_tap_handled
                = handle (env_of pop_smallest) 3000 (set_now 3000 m, r, false) (tap_event 2)).
  { eexists _, _. split; [vm_compute; reflexivity|].
    unfold third_tap_handled. vm_compute. reflexivity. }
  destruct Hp as (m & r & Hplan & Heq). rewrite Heq.
  destruct (handle _ 3000 _ _) as [[[m1 r1] kf1]|] eqn:Hh; [|apply reach_init].
  eapply handle_reachable; [|exact Hh]. apply reach_now. by eapply plan_reachable.
Defined.

Lemma pids_in_one_collection_witness :
  reachable (env_of pop_smallest) (manager_of third_tap_handled)
  /\ NoDup (pid_of (manager_of third_tap_handled)
            <$> (dict_values (pointers (manager_of third_tap_handled))
                 ++ dict_values (unused (manager_of third_tap_handled)))).
Proof.
  split; [exact third_tap_reachable|].
  apply (pids_in_one_collection (env_of pop_smallest) _ third_tap_reachable).
Defined.

(** C9 as stated fails: after a TAP is handled its pointer, pid 1002 here,
    is in [pointers] and in [unused_now] until [recycle] runs. *)
Lemma pid_in_two_collections :
  let m := manager_of third_tap_handled in
  reachable (env_of pop_smallest) m
  /\ 1002 ∈ pid_of m <$> dict_values (pointers m)
  /\ 1002 ∈ pid_of m <$> dict_values (unused_now m).
Proof.
  split; [exact third_tap_reachable|].
  split; apply (bool_decide_unpack _); vm_compute; exact I.
Qed.

(** * Recycling and the pointer budget *)

Section RecycleFacts.
Variable E : Env.

Lemma del_all_Raise ks (d : list (Z * addr)) e :
  del_all ks d = Raise e -> exists k, e = KeyError k.
Proof.
  revert d. induction ks as [|k ks IH]; intros d; simpl; [done|].
  destruct (dict_del k d); [apply IH|]. intros [= <-]. by exists k.
Qed.

Lemma recycle_runtime_error is_keyframe m ups nu np t :
  pm_inv m -> recycle is_keyframe m = (ups, Raise (RuntimeError nu np t)) ->
  t = now m /\ (max_on_screen < nu + np)%nat.
Proof.
  intros Hinv Hrec.
  destruct (del_all (mark_as_released m) (pointers m)) as [ptrs'|e] eqn:Hdel.
  - apply del_all_Ok in Hdel as (Hmarks & _); [|by apply inv_pointer_keys].
    destruct (recycle_eq is_keyframe m Hinv Hmarks) as (mf & _ & Heq).
    rewrite Heq in Hrec. cbv zeta in Hrec. case_decide as Hb; [|done].
    injection Hrec as _ <- <- <-. split; [done|exact Hb].
  - unfold recycle in Hrec. rewrite Hdel in Hrec.
    apply del_all_Raise in Hdel as [k ->]. done.
Qed.

(** C3 (amended).  [recycle(is_keyframe=false)] yields nothing.
    [recycle(is_keyframe=true)] increments the [occupied] counter of every
    pointer in [unused]; each pointer whose counter then exceeds 1 yields
    one item [(pid, ptr.timestamp + 1, pos)], the millisecond after the
    pointer was last touched, has its pid freed by [_del], and is removed
    from [unused]. *)
Theorem recycle_keyframe_ups m :
  reachable E m ->
  (forall ups r, recycle false m = (ups, r) -> ups = [])
  /\ (forall ups m', recycle true m = (ups, Ok m') ->
      let exp := filter (fun a => 1 < occupied (deref (heap m) a) + 1)
                   (dict_values (unused m)) in
      ups = (fun a => (pid_of m a, timestamp (deref (heap m) a) + 1, pos (deref (heap m) a)))
              <$> exp
      /\ NoDup exp
      /\ (forall a, a ∈ dict_values (unused m) ->
            deref (heap m') a = aged (deref (heap m) a))
      /\ (exists mf, free_all (pid_of m <$> exp) m = Ok mf
            /\ recycled m' = recycled mf /\ max_pointer_id m' = max_pointer_id mf)
      /\ unused m' = filter (fun kv => snd kv ∉ exp) (unused m) ++ unused_now m
      /\ (forall a, a ∈ exp -> pid_of m a ∉ dict_keys (unused m'))).
Proof.
  intros Hinv%reachable_inv. split.
  - intros ups r. unfold recycle.
    destruct (del_all _ _); [|by intros [= <- _]]. by intros [= <- _].
  - intros ups m' Hrec exp.
    destruct (recycle_spec _ _ _ _ Hinv Hrec) as (mf & Hfree & -> & _ & -> & _).
    change (expiring true m) with exp in *.
    pose proof Hinv as [H1 H2 H3 H4 H5 H6 H7].
    pose proof H1 as [A1 A2 A3 A4 A5 A6].
    pose proof (free_all_fields _ _ _ Hfree) as (F1 & F2 & F3 & F4 & F5 & F6 & F7 & F8).
    assert (Hnd_u : NoDup (dict_values (unused m))).
    { unfold live in A3. by apply NoDup_app in A3 as (_ & _ & ?). }
    assert (Hsub : forall a, a ∈ exp -> exists k, (k, a) ∈ unused m).
    { intros a [_ Ha]%list_elem_of_filter. by apply elem_dict_values_inv. }
    split_and!.
    + done.
    + by apply NoDup_filter.
    + intros a Ha. unfold recycled_state. cbn.
      rewrite age_heap_deref, decide_True; [done|done|done|].
      intros b Hb. apply A2. unfold live. apply elem_of_app. by right.
    + exists mf. done.
    + unfold recycled_state. cbn. change (expiring true m) with exp. done.
    + intros a Ha. unfold recycled_state. cbn. change (expiring true m) with exp.
      destruct (Hsub a Ha) as [k Hk].
      unfold dict_keys. rewrite fmap_app, elem_of_app.
      intros [([k1 b] & Heq & Hb)%list_elem_of_fmap|([k1 b] & Heq & Hb)%list_elem_of_fmap];
        simpl in Heq.
      * apply list_elem_of_filter in Hb as [Hne Hb]. simpl in Hne.
        assert (a = b) as ->; [|done].
        apply A4; [by eapply live_unused..|]. by rewrite (H5 _ _ Hb).
      * destruct (H6 _ _ Hb) as [Hpb (e & He & _)].
        assert (a = b) as ->.
        { apply A4; [by eapply live_unused|by eapply live_pointer|]. by rewrite Hpb. }
        by eapply pm_inv_apart.
Qed.
End RecycleFacts.

Lemma recycle_keyframe_ups_witness :
  reachable (env_of pop_smallest) (manager_of third_tap_handled)
  /\ forall ups r, recycle false (manager_of third_tap_handled) = (ups, r) -> ups = [].
Proof.
  split; [exact third_tap_reachable|].
  apply (recycle_keyframe_ups (env_of pop_smallest) _ third_tap_reachable).
Defined.

(** C3 as stated fails: in the frame of ms 3000 the keyframe recycle sends
    pointer 1000 UP at ms 1001, one past its last touch, not at
    [now + 1 = 3001]. *)
Lemma recycle_up_not_at_now :
  reachable (env_of pop_smallest) (manager_of third_tap_handled)
  /\ now (manager_of third_tap_handled) = 3000
  /\ fst (recycle true (manager_of third_tap_handled)) = [(1000, 1001, (0%Q, 0%Q))].
Proof.
  split; [exact third_tap_reachable|]. split; vm_compute; reflexivity.
Qed.

Section Budget.
Variable E : Env.

Lemma fold_res_app {A S : Type} (f : S -> A -> Res S) l1 l2 s :
  fold_res f (l1 ++ l2) s = fold_res f l1 s ≫= fold_res f l2.
Proof.
  revert s. induction l1 as [|x l1 IH]; intros s; [done|].
  cbn [fold_res app]. destruct (f s x) as [s'|e]; cbn; [apply IH|done].
Qed.

Lemma plan_frame_budget st item st' :
  reachable E (fst st) -> plan_frame E st item = Ok st' ->
  (length (unused (fst st')) + length (pointers (fst st')) <= max_on_screen)%nat.
Proof.
  intros Hr. unfold plan_frame.
  destruct (fold_res _ _ _) as [[[m1 r1] kf1]|] eqn:Hfold; cbn; [|done].
  destruct (recycle kf1 m1) as [ups [m2|]] eqn:Hrec; cbn; [|done]. intros [= <-]. cbn.
  apply handle_all_reachable in Hfold as [Hr1 _]; [|by apply reach_now].
  apply reachable_inv in Hr1.
  by destruct (recycle_spec _ _ _ _ Hr1 Hrec) as (mf & _ & _ & _ & _ & ?).
Qed.

Lemma plan_budget batches st :
  plan E batches = Ok st ->
  (length (unused (fst st)) + length (pointers (fst st)) <= max_on_screen)%nat.
Proof.
  unfold plan.
  assert (Hgen : forall st0, reachable E (fst st0) ->
            (length (unused (fst st0)) + length (pointers (fst st0)) <= max_on_screen)%nat ->
            fold_res (plan_frame E) batches st0 = Ok st ->
            (length (unused (fst st)) + length (pointers (fst st)) <= max_on_screen)%nat).
  { induction batches as [|item batches IH]; intros st0 Hr Hb; cbn [fold_res].
    - by intros [= <-].
    - destruct (plan_frame E st0 item) as [st1|] eqn:Hf; cbn; [|done].
      apply IH; [by eapply plan_frame_reachable|by eapply plan_frame_budget]. }
  apply Hgen; [apply reach_init|]. cbn. unfold max_on_screen. lia.
Qed.

(** C2 (amended).  The budget is checked once per millisecond, at the end
    of [recycle]: between frames [len(pointers) + len(unused)] is at most
    15, while inside a frame it can be larger.  When [recycle] finds the
    count above 15 after merging the released pointers it raises the
    planning error, which carries the two lengths and the current ms, and
    planning returns that error: there is no output at all. *)
Theorem pointer_budget done item st m1 result is_keyframe :
  plan E done = Ok st ->
  fold_res (handle E (fst item)) (snd item) (set_now (fst item) (fst st), snd st, false)
  = Ok (m1, result, is_keyframe) ->
  (length (unused (fst st)) + length (pointers (fst st)) <= 15)%nat
  /\ now m1 = fst item
  /\ (forall ups m2, recycle is_keyframe m1 = (ups, Ok m2) ->
        (length (unused m2) + length (pointers m2) <= 15)%nat
        /\ plan E (done ++ [item]) = Ok (m2, add_ups ups result))
  /\ (forall ups nu np t, recycle is_keyframe m1 = (ups, Raise (RuntimeError nu np t)) ->
        t = fst item /\ (15 < nu + np)%nat
        /\ forall rest, plan_and_finish E (done ++ item :: rest)
                        = Raise (RuntimeError nu np (fst item)))
  /\ (NoDup (mark_as_released m1) ->
      exists mf, free_all (pid_of m1 <$> expiring is_keyframe m1) m1 = Ok mf
        /\ let m' := recycled_state is_keyframe m1 mf in
           snd (recycle is_keyframe m1)
           = if decide (15 < length (unused m') + length (pointers m'))%nat
             then Raise (RuntimeError (length (unused m')) (length (pointers m')) (fst item))
             else Ok m').
Proof.
  intros Hplan Hfold.
  pose proof (plan_budget _ _ Hplan) as Hb0.
  assert (Hr : reachable E (fst st)) by (destruct st; by eapply plan_reachable).
  destruct (handle_all_reachable E _ _ _ _ _ _ _ _ (reach_now _ _ (fst item) Hr) Hfold)
    as [Hr1 Hn1].
  pose proof (reachable_inv _ _ Hr1) as Hinv1.
  assert (Hframe : forall _ : unit, plan_frame E st item
            = (m2 ← snd (recycle is_keyframe m1); Ok (m2, add_ups (fst (recycle is_keyframe m1)) result))).
  { intros _. unfold plan_frame. rewrite Hfold. cbn. by destruct (recycle is_keyframe m1). }
  split_and!.
  - exact Hb0.
  - exact Hn1.
  - intros ups m2 Hrec. split.
    + by destruct (recycle_spec _ _ _ _ Hinv1 Hrec) as (mf & _ & _ & _ & _ & ?).
    + unfold plan in *. rewrite fold_res_app, Hplan. cbn. rewrite (Hframe tt), Hrec. done.
  - intros ups nu np t Hrec.
    destruct (recycle_runtime_error _ _ _ _ _ _ Hinv1 Hrec) as [-> Hlt].
    split_and!; [done|exact Hlt|]. intros rest.
    unfold plan_and_finish, plan in *. rewrite fold_res_app, Hplan. cbn.
    rewrite (Hframe tt), Hrec. cbn. by rewrite Hn1.
  - intros Hmarks. destruct (recycle_eq is_keyframe m1 Hinv1 Hmarks) as (mf & Hfree & Heq).
    exists mf. split; [done|]. rewrite Heq. cbn [snd]. cbv zeta. by rewrite Hn1.
Qed.
End Budget.

Lemma pointer_budget_witness :
  plan (env_of pop_smallest) two_taps = Ok two_taps_planned
  /\ fold_res (handle (env_of pop_smallest) 3000) [tap_event 2]
       (set_now 3000 (fst two_taps_planned), snd two_taps_planned, false)
     = Ok (manager_of third_tap_handled, result_of third_tap_handled, true)
  /\ now (manager_of third_tap_handled) = 3000.
Proof.
  assert (H1 : plan (env_of pop_smallest) two_taps = Ok two_taps_planned)
    by (vm_compute; reflexivity).
  assert (H2 : fold_res (handle (env_of pop_smallest) (fst (3000, [tap_event 2])))
                 (snd (3000, [tap_event 2]))
                 (set_now (fst (3000, [tap_event 2])) (fst two_taps_planned),
                  snd two_taps_planned, false)
               = Ok (manager_of third_tap_handled, result_of third_tap_handled, true))
    by (vm_compute; reflexivity).
  split; [exact H1|]. split; [exact H2|].
  exact (proj1 (proj2 (pointer_budget (env_of pop_smallest) two_taps (3000, [tap_event 2])
                         _ _ _ _ H1 H2))).
Defined.

(** C2 as stated fails inside a frame: with fifteen pointers idle in
    [unused], the sixteenth tap brings the count to 16 while it is handled,
    and planning still succeeds, since the recycle at the end of that frame
    sends fourteen of them UP before it counts. *)
Lemma budget_exceeded_inside_frame :
  sorted_items (synthesize (env_of pop_smallest) sixteen_taps_chart) = sixteen_taps
  /\ exists st m1 result out,
      plan (env_of pop_smallest) (take 2 sixteen_taps) = Ok st
      /\ handle (env_of pop_smallest) 3000 (set_now 3000 (fst st), snd st, false)
           (tap_event 15) = Ok (m1, result, true)
      /\ (length (pointers m1) + length (unused m1) = 16)%nat
      /\ solve (env_of pop_smallest) sixteen_taps_chart = Ok out.
Proof.
  split; [vm_compute; reflexivity|].
  eexists _, _, _, _. split_and!; vm_compute; reflexivity.
Qed.

(** * Reuse of idle pointers *)

Section Reuse.
Variable E : Env.

Lemma Qltb_lt (a b : Q) : Qltb a b = true <-> (a < b)%Q.
Proof.
  unfold Qltb. rewrite negb_true_iff, <- not_true_iff_false, Qle_bool_iff.
  split; [apply Qnot_le_lt|apply Qlt_not_le].
Qed.

(** The search loop of [acquire] ends on a nearest eligible pointer, if any
    pointer is eligible. *)
Lemma scan_spec m pt (l : list (Z * addr)) :
  let dist a := distance_of E pt (pos (deref (heap m) a)) in
  let score a := score_of E m pt (deref (heap m) a) in
  (fold_left (scan_step E m pt) l (None, None) = (None, None)
   /\ forall kv, kv ∈ l -> ~ (dist (snd kv) < nearest_distance)%Q)
  \/ (exists k a, (k, a) ∈ l
      /\ fold_left (scan_step E m pt) l (None, None) = (Some (score a), Some (pid_of m a))
      /\ (dist a < nearest_distance)%Q
      /\ forall kv, kv ∈ l -> (dist (snd kv) < nearest_distance)%Q ->
                    (score a <= score (snd kv))%Q).
Proof.
  intros dist score. induction l as [|[k a] l IH] using rev_ind.
  - left. split; [done|]. by intros kv ?%elem_of_nil.
  - rewrite fold_left_app. cbn [fold_left].
    assert (Hstep : forall acc, scan_step E m pt acc (k, a)
              = if below (score a) (fst acc) && Qltb (dist a) nearest_distance
                then (Some (score a), Some (pid_of m a)) else acc) by done.
    rewrite Hstep. clear Hstep.
    destruct IH as [[-> Hnone]|(k0 & a0 & Hin & -> & Hlt & Hmin)]; cbn [fst below].
    + destruct (Qltb (dist a) nearest_distance) eqn:Hd; cbn [andb].
      * right. exists k, a. apply Qltb_lt in Hd. split_and!; [|done|done|].
        { apply elem_of_app. right. apply list_elem_of_singleton. done. }
        intros kv [Hkv|Hkv%list_elem_of_singleton]%elem_of_app Hkd; [|subst kv].
        -- by destruct (Hnone kv Hkv).
        -- apply Qle_refl.
      * left. split; [done|].
        intros kv [Hkv|Hkv%list_elem_of_singleton]%elem_of_app; [|subst kv]; [by apply Hnone|].
        cbn. rewrite <- Qltb_lt. by rewrite Hd.
    + destruct (Qltb (score a) (score a0)) eqn:Hs;
        destruct (Qltb (dist a) nearest_distance) eqn:Hd; cbn [andb].
      * right. exists k, a. apply Qltb_lt in Hd, Hs. split_and!; [|done|done|].
        { apply elem_of_app. right. apply list_elem_of_singleton. done. }
        intros kv [Hkv|Hkv%list_elem_of_singleton]%elem_of_app Hkd; [|subst kv].
        -- apply Qle_trans with (score a0); [by apply Qlt_le_weak|by apply Hmin].
        -- apply Qle_refl.
      * right. exists k0, a0. split_and!; [|done|done|].
        { apply elem_of_app. by left. }
        intros kv [Hkv|Hkv%list_elem_of_singleton]%elem_of_app Hkd; [|subst kv]; [by apply Hmin|].
        cbn in Hkd. apply Qltb_lt in Hkd. congruence.
      * right. exists k0, a0. split_and!; [|done|done|].
        { apply elem_of_app. by left. }
        intros kv [Hkv|Hkv%list_elem_of_singleton]%elem_of_app Hkd; [|subst kv]; [by apply Hmin|].
        cbn. apply Qnot_lt_le. rewrite <- Qltb_lt. by rewrite Hs.
      * right. exists k0, a0. split_and!; [|done|done|].
        { apply elem_of_app. by left. }
        intros kv [Hkv|Hkv%list_elem_of_singleton]%elem_of_app Hkd; [|subst kv]; [by apply Hmin|].
        cbn in Hkd. apply Qltb_lt in Hkd. congruence.
Qed.

(** C6.  [acquire(event, new=false)] for an event id without a live
    pointer returns; when it reuses a pointer, that pointer is one of
    [unused] at distance less than 120 from the event point whose score
    [distance + (now - timestamp) / 50] is minimal among the pointers of
    [unused] at distance less than 120; it is reset and bound to the event
    id.  A fresh pid is allocated exactly when no pointer of [unused] is at
    distance less than 120. *)
Theorem acquire_reuse_nearest event m :
  reachable E m -> dict_get (fe_id event) (pointers m) = None ->
  let dist a := distance_of E (fe_point event) (pos (deref (heap m) a)) in
  let score a := (dist a + inject_Z (now m - timestamp (deref (heap m) a)) / 50)%Q in
  exists m' p fresh,
    acquire E event false m = Ok (m', (p, fresh))
    /\ (fresh = false ->
        exists a, (p, a) ∈ unused m
          /\ (dist a < 120)%Q
          /\ (forall k' a', (k', a') ∈ unused m -> (dist a' < 120)%Q ->
                (score a <= score a')%Q)
          /\ dict_get (fe_id event) (pointers m') = Some a
          /\ p ∉ dict_keys (unused m')
          /\ deref (heap m') a = mkPointer p (fe_point event) (now m) 0)
    /\ (fresh = true <-> forall k a, (k, a) ∈ unused m -> ~ (dist a < 120)%Q)
    /\ (fresh = true -> (m', (p, fresh)) = fresh_pointer E event m).
Proof.
  intros Hinv%reachable_inv Hget dist score.
  pose proof Hinv as [H1 H2 H3 H4 H5 H6 H7].
  destruct (scan_spec m (fe_point event) (unused m))
    as [[Hscan Hnone]|(k & a & Hin & Hscan & Hlt & Hmin)].
  - exists (fst (fresh_pointer E event m)), (fst (_new E m)), true.
    assert (Hacq : acquire E event false m = Ok (fresh_pointer E event m)).
    { unfold acquire, scan. by rewrite Hget, Hscan. }
    assert (Hfp : fresh_pointer E event m
                  = (fst (fresh_pointer E event m), (fst (_new E m), true))).
    { unfold fresh_pointer. by destruct (_new E m). }
    split_and!.
    + by rewrite Hacq, Hfp at 1.
    + done.
    + split; [|done]. intros _ k a Hk. apply (Hnone (k, a) Hk).
    + intros _. by rewrite <- Hfp.
  - assert (Hk : pid_of m a = k) by (by apply H5).
    assert (Hga : dict_get k (unused m) = Some a) by (by apply dict_get_elem).
    assert (Hva : (a < length (heap m))%nat).
    { eapply ok_valid; [exact H1|]. by eapply live_unused. }
    eexists _, k, false. split_and!.
    + unfold acquire, scan. rewrite Hget, Hscan. cbn [snd]. rewrite Hk, Hga.
      rewrite dict_del_in; [|done|by eapply elem_dict_keys].
      fold (pid_of m a). rewrite Hk. reflexivity.
    + intros _. exists a. split_and!; try done.
      * intros k' a' Hin'. apply (Hmin (k', a') Hin').
      * cbn. rewrite dict_get_set. by rewrite decide_True.
      * cbn. unfold dict_keys. intros ([k1 b] & Heq & Hb)%list_elem_of_fmap.
        apply list_elem_of_filter in Hb as [Hne _]. simpl in *. congruence.
      * cbn. unfold touch_pointer. rewrite deref_insert_eq by done.
        fold (pid_of m a). by rewrite Hk.
    + split; [done|]. intros Hno. by destruct (Hno k a Hin).
    + done.
Qed.
End Reuse.

Lemma acquire_reuse_nearest_witness :
  reachable (env_of pop_smallest) (set_now 3000 (fst two_taps_planned))
  /\ dict_get 2 (pointers (set_now 3000 (fst two_taps_planned))) = None
  /\ exists m' p fresh,
      acquire (env_of pop_smallest) (drag_event 2) false (set_now 3000 (fst two_taps_planned))
      = Ok (m', (p, fresh)).
Proof.
  assert (Hr : reachable (env_of pop_smallest) (set_now 3000 (fst two_taps_planned))).
  { apply reach_now. apply (plan_reachable _ two_taps _ (snd two_taps_planned)).
    vm_compute. reflexivity. }
  split; [exact Hr|]. split; [reflexivity|].
  destruct (acquire_reuse_nearest (env_of pop_smallest) (drag_event 2) _ Hr eq_refl)
    as (m' & p & fresh & Hacq & _).
  by exists m', p, fresh.
Defined.
(** * Timelines: chronological order against insertion order *)

Section TimelineOrder.
Context {A : Type} (P : A -> Prop) `{!forall x, Decision (P x)}.
Implicit Types (d : gmap Z (list A)) (ks : list Z).

Lemma sorted_keys_sorted d : StronglySorted Z.le (sorted_keys d).
Proof. apply Sorted_StronglySorted; [apply _|]. unfold sorted_keys. apply Sorted_merge_sort. apply _. Qed.

Lemma sorted_keys_elem d k : k ∈ sorted_keys d <-> k ∈ dom d.
Proof. unfold sorted_keys. by rewrite merge_sort_Permutation, elem_of_elements. Qed.

Lemma sorted_keys_NoDup d : NoDup (sorted_keys d).
Proof. unfold sorted_keys. rewrite merge_sort_Permutation. apply NoDup_elements. Qed.

Lemma events_at_notin d k : k ∉ dom d -> events_at d k = [].
Proof. intros Hk. unfold events_at. apply not_elem_of_dom in Hk. by rewrite Hk. Qed.

Lemma chrono_sel_keys d :
  chrono_sel P d = sorted_keys d ≫= (fun k => filter P (events_at d k)).
Proof.
  unfold chrono_sel, chrono, sorted_items. rewrite list_fmap_bind.
  induction (sorted_keys d) as [|k ks IH]; [done|].
  rewrite !bind_cons, fmap_app, filter_app, IH. f_equal.
  simpl. rewrite <- list_fmap_compose. simpl. by rewrite list_fmap_id.
Qed.

Lemma StronglySorted_filter (Q : Z -> Prop) `{!forall x, Decision (Q x)} ks :
  StronglySorted Z.le ks -> StronglySorted Z.le (filter Q ks).
Proof.
  induction 1 as [|k ks Hs IH Hk]; [constructor|].
  rewrite filter_cons. case_decide; [|done]. constructor; [done|].
  rewrite Forall_forall in *. intros x [_ Hx]%list_elem_of_filter. by apply Hk.
Qed.

(** Any sorted list of distinct keys covering the domain can stand for the
    sorted keys. *)
Lemma chrono_sel_cover d ks :
  StronglySorted Z.le ks -> NoDup ks -> (forall k, k ∈ dom d -> k ∈ ks) ->
  chrono_sel P d = ks ≫= (fun k => filter P (events_at d k)).
Proof.
  intros Hs Hnd Hcov. rewrite chrono_sel_keys.
  assert (Hf : filter (fun k => k ∈ dom d) ks = sorted_keys d).
  { apply (StronglySorted_unique Z.le).
    - by apply StronglySorted_filter.
    - apply sorted_keys_sorted.
    - apply NoDup_Permutation; [by apply NoDup_filter|apply sorted_keys_NoDup|].
      intros k. rewrite list_elem_of_filter, sorted_keys_elem. naive_solver. }
  rewrite <- Hf. clear Hf Hs Hnd Hcov.
  induction ks as [|k ks IH]; [done|].
  rewrite filter_cons, bind_cons. case_decide as Hk.
  - by rewrite bind_cons, IH.
  - by rewrite events_at_notin, IH.
Qed.

Lemma events_at_append ms x d k :
  events_at (tl_append ms x d) k
  = events_at d k ++ (if decide (k = ms) then [x] else []).
Proof. apply tl_append_lookup. Qed.

Lemma bind_all_nil {B C : Type} (f : B -> list C) (l : list B) :
  (forall k, k ∈ l -> f k = []) -> l ≫= f = [].
Proof.
  induction l as [|k l IH]; intros Hl; [done|].
  rewrite bind_cons, Hl by left. apply IH. intros k' Hk'. apply Hl. by right.
Qed.

(** An entry outside [P] does not disturb the selection. *)
Lemma chrono_sel_append_other ms x d :
  ~ P x -> chrono_sel P (tl_append ms x d) = chrono_sel P d.
Proof.
  intros Hx. rewrite (chrono_sel_keys (tl_append ms x d)).
  rewrite (chrono_sel_cover d (sorted_keys (tl_append ms x d)));
    [|apply sorted_keys_sorted|apply sorted_keys_NoDup|].
  2:{ intros k Hk. apply sorted_keys_elem. rewrite tl_append_dom. set_solver. }
  apply list_bind_ext; [|done]. intros k.
  rewrite events_at_append, filter_app. case_decide; [|by rewrite app_nil_r].
  by rewrite filter_cons_False, app_nil_r.
Qed.

(** An entry of [P] added at or after every other one comes last. *)
Lemma chrono_sel_append_last ms x d :
  P x -> none_after P d ms -> chrono_sel P (tl_append ms x d) = chrono_sel P d ++ [x].
Proof.
  intros Hx Hlast. set (d' := tl_append ms x d).
  assert (Hms : ms ∈ sorted_keys d').
  { apply sorted_keys_elem. unfold d'. rewrite tl_append_dom. set_solver. }
  apply list_elem_of_split in Hms as (l1 & l2 & Hks).
  pose proof (sorted_keys_sorted d') as Hs. pose proof (sorted_keys_NoDup d') as Hnd.
  rewrite Hks in Hs, Hnd.
  assert (H1 : forall k, k ∈ l1 -> k <> ms).
  { intros k Hk ->. apply NoDup_app in Hnd as (_ & Hd & _). apply (Hd ms Hk). left. }
  assert (H2 : forall k, k ∈ l2 -> ms < k).
  { intros k Hk. apply StronglySorted_app_1_r, StronglySorted_cons in Hs as [Hle _].
    rewrite Forall_forall in Hle. specialize (Hle k Hk).
    apply NoDup_app in Hnd as (_ & _ & Hnd). apply NoDup_cons in Hnd as [Hn _].
    assert (k <> ms) by (by intros ->). lia. }
  rewrite (chrono_sel_keys d').
  rewrite (chrono_sel_cover d (sorted_keys d'));
    [|apply sorted_keys_sorted|apply sorted_keys_NoDup|].
  2:{ intros k Hk. apply sorted_keys_elem. unfold d'. rewrite tl_append_dom. set_solver. }
  rewrite Hks, !bind_app, !bind_cons.
  assert (E1 : l1 ≫= (fun k => filter P (events_at d' k))
               = l1 ≫= (fun k => filter P (events_at d k))).
  { apply Forall_bind_ext, Forall_forall. intros k Hk. unfold d'.
    rewrite events_at_append, decide_False by (by apply H1). by rewrite app_nil_r. }
  assert (E2 : forall d0, (d0 = d \/ d0 = d') ->
               l2 ≫= (fun k => filter P (events_at d0 k)) = []).
  { intros d0 Hd0. apply bind_all_nil. intros k Hk%H2.
    assert (Hd : events_at d0 k = events_at d k).
    { destruct Hd0 as [->| ->]; [done|]. unfold d'.
      rewrite events_at_append, decide_False by lia. by rewrite app_nil_r. }
    rewrite Hd. apply elem_of_nil_inv. intros y [Hy Hin]%list_elem_of_filter.
    specialize (Hlast k y Hin Hy). lia. }
  rewrite E1, !E2 by auto. rewrite !app_nil_r. unfold d'.
  rewrite events_at_append, decide_True by done.
  rewrite filter_app, filter_cons_True by done. by rewrite app_assoc.
Qed.

Lemma none_after_append ms x d t :
  none_after P d t -> (P x -> ms <= t) -> none_after P (tl_append ms x d) t.
Proof.
  intros Hd Hx k y. rewrite events_at_append.
  intros [Hy|Hy]%elem_of_app HP; [by eapply Hd|].
  case_decide; [|by apply elem_of_nil in Hy].
  apply list_elem_of_singleton in Hy. subst. by apply Hx.
Qed.

Lemma none_after_mono d t t' : t <= t' -> none_after P d t -> none_after P d t'.
Proof. intros Hle Hd k y Hy HP. specialize (Hd k y Hy HP). lia. Qed.

Lemma none_after_empty t : none_after P (∅ : gmap Z (list A)) t.
Proof. intros k y. unfold events_at. rewrite lookup_empty. by intros ?%elem_of_nil. Qed.

Lemma chrono_sel_empty : chrono_sel P (∅ : gmap Z (list A)) = [].
Proof. rewrite chrono_sel_keys. apply bind_all_nil. intros k _.
  unfold events_at. by rewrite lookup_empty. Qed.
End TimelineOrder.

(** * Touch sequences *)

Section TouchRuns.
Implicit Types (l : list TouchAction.t) (s : touch_state).

Lemma touch_run_app s l a :
  touch_run s (l ++ [a]) = touch_run s l ≫= fun s' => touch_step s' a.
Proof. unfold touch_run. by rewrite fold_left_app. Qed.

Lemma touch_run_cons s a l :
  touch_run s (a :: l) = touch_step s a ≫= fun s' => touch_run s' l.
Proof.
  unfold touch_run. cbn [fold_left mbind option_bind].
  destruct (touch_step s a) as [s'|]; [done|].
  cbn [mbind option_bind]. induction l as [|b l IH]; [done|]. exact IH.
Qed.

Lemma touch_run_concat s l1 l2 :
  touch_run s (l1 ++ l2) = touch_run s l1 ≫= fun s' => touch_run s' l2.
Proof.
  revert s. induction l1 as [|a l1 IH]; intros s; [done|].
  cbn [app]. rewrite !touch_run_cons. destruct (touch_step s a) as [s'|]; [|done].
  cbn. apply IH.
Qed.

Lemma moves_then_up_run l : moves_then_up l = true -> touch_run Touching l = Some Lifted.
Proof.
  induction l as [|a l IH]; [done|]. destruct a; cbn [moves_then_up].
  - done.
  - destruct l; [|done]. done.
  - intros H. rewrite touch_run_cons. cbn. by apply IH.
Qed.

Lemma is_run_balanced l : is_run l = true -> balanced l.
Proof.
  destruct l as [|[] l]; try done. cbn. intros H. unfold balanced.
  rewrite touch_run_cons. cbn. by apply moves_then_up_run.
Qed.

Lemma touching_splits l :
  touch_run Touching l = Some Lifted ->
  exists l1 l2, l = l1 ++ l2 /\ moves_then_up l1 = true /\ touch_run Lifted l2 = Some Lifted.
Proof.
  induction l as [|a l IH]; [done|]. rewrite touch_run_cons.
  destruct a; cbn; [done| |].
  - intros H. exists [TouchAction.UP], l. done.
  - intros (l1 & l2 & -> & H1 & H2)%IH. exists (TouchAction.MOVE :: l1), l2. done.
Qed.

(** [balanced] is membership in [(DOWN MOVE* UP)*]. *)
Lemma balanced_runs l :
  balanced l <-> exists runs, l = concat runs /\ Forall (fun r => is_run r = true) runs.
Proof.
  split.
  - unfold balanced. remember (length l) as n eqn:Hn. revert l Hn.
    induction n as [n IHn] using lt_wf_ind. intros l Hn Hl.
    destruct l as [|a l]; [by exists []|].
    rewrite touch_run_cons in Hl. destruct a; try done. cbn in Hl.
    apply touching_splits in Hl as (l1 & l2 & -> & H1 & H2).
    destruct (IHn (length l2)) with (l := l2) as (runs & -> & Hruns); [|done|done|].
    { subst n. cbn. rewrite length_app. lia. }
    exists ((TouchAction.DOWN :: l1) :: runs). split; [done|]. by constructor.
  - intros (runs & -> & Hruns). unfold balanced.
    induction Hruns as [|r runs Hr _ IH]; [done|].
    cbn [concat]. rewrite touch_run_concat.
    apply is_run_balanced in Hr. unfold balanced in Hr. by rewrite Hr.
Qed.
End TouchRuns.

Section ResultFacts.
Implicit Types (r : gmap Z (list VirtualTouchEvent)) (p q ms t : Z).

Lemma pid_actions_own ms pt act p r :
  pid_keys_le r p ms ->
  pid_actions (add_touch_event ms pt act p r) p = pid_actions r p ++ [act].
Proof.
  intros Hle. unfold pid_actions, add_touch_event.
  rewrite chrono_sel_append_last; [|done|done]. by rewrite fmap_app.
Qed.

Lemma pid_actions_other ms pt act p q r :
  q <> p -> pid_actions (add_touch_event ms pt act p r) q = pid_actions r q.
Proof.
  intros Hne. unfold pid_actions, add_touch_event.
  rewrite chrono_sel_append_other; [done|]. simpl. congruence.
Qed.

Lemma pid_keys_le_add ms pt act p q r t :
  pid_keys_le r q t -> (q = p -> ms <= t) ->
  pid_keys_le (add_touch_event ms pt act p r) q t.
Proof.
  intros Hle Hq. unfold pid_keys_le, add_touch_event.
  apply none_after_append; [done|]. simpl. intros ->. by apply Hq.
Qed.

Lemma pstate_own ms pt act p r s :
  pid_keys_le r p ms -> pstate r p = Some s ->
  pstate (add_touch_event ms pt act p r) p = touch_step s act.
Proof.
  intros Hle Hs. unfold pstate in *. rewrite pid_actions_own by done.
  rewrite touch_run_app, Hs. done.
Qed.

Lemma pstate_other ms pt act p q r :
  q <> p -> pstate (add_touch_event ms pt act p r) q = pstate r q.
Proof. intros Hne. unfold pstate. by rewrite pid_actions_other. Qed.

Lemma trace_inv_mono t t' m r : t <= t' -> trace_inv t m r -> trace_inv t' m r.
Proof.
  intros Hle [H1 H2]. split.
  - intros a Ha. destruct (H1 a Ha) as (? & ? & ?). split_and!; [done|done|lia].
  - intros p Hp. destruct (H2 p Hp) as [? ?]. split; [done|].
    by eapply none_after_mono.
Qed.
End ResultFacts.

(** * The output against the manager: [acquire] *)

Section AcquireTrace.
Variable E : Env.
Implicit Types (m : PointerManager) (r : gmap Z (list VirtualTouchEvent)).

Lemma deref_touch_pointer_eq h a ts pt occ :
  (a < length h)%nat -> timestamp (deref (touch_pointer a ts pt occ h) a) = ts.
Proof. intros Ha. unfold touch_pointer. by rewrite deref_insert_eq. Qed.

Lemma deref_touch_pointer_ne h a b ts pt occ :
  a <> b -> deref (touch_pointer a ts pt occ h) b = deref h b.
Proof. intros Hne. unfold touch_pointer. by rewrite deref_insert_ne. Qed.

(** Writing a MOVE for a pointer in use, which is touched at [ms]. *)
Lemma trace_touch t m m0 r a ms pt pt' occ :
  pm_inv m -> a ∈ live m ->
  (forall b, b ∈ live m0 <-> b ∈ live m) -> heap m0 = heap m ->
  trace_inv t m r -> t <= ms ->
  trace_inv ms (set_heap (touch_pointer a ms pt occ (heap m0)) m0)
    (add_touch_event ms pt' TouchAction.MOVE (pid_of m a) r).
Proof.
  intros Hinv Ha Hlive Hheap [H1 H2] Hle.
  set (m' := set_heap _ m0). set (p := pid_of m a).
  pose proof (inv_alloc _ Hinv) as Hok.
  assert (Hlive' : forall b, b ∈ live m' <-> b ∈ live m) by exact Hlive.
  assert (Hpid : forall b, pid_of m' b = pid_of m b).
  { intros b. unfold pid_of, m'. cbn. rewrite Hheap. apply pid_touch_pointer. }
  assert (Hva : (a < length (heap m))%nat) by (by eapply ok_valid).
  destruct (H1 a Ha) as (Hs & Hk & Hts).
  assert (Hkp : pid_keys_le r p ms).
  { eapply none_after_mono; [|exact Hk]. lia. }
  split.
  - intros b Hb%Hlive'. rewrite Hpid. destruct (decide (b = a)) as [->|Hne].
    + fold p. split_and!.
      * by rewrite (pstate_own _ _ _ _ _ Touching).
      * unfold m'. cbn. rewrite Hheap, deref_touch_pointer_eq by done.
        by apply pid_keys_le_add.
      * unfold m'. cbn. rewrite Hheap, deref_touch_pointer_eq by done. lia.
    + assert (Hpne : pid_of m b <> p).
      { intros Heq. apply Hne. by eapply ok_inj. }
      destruct (H1 b Hb) as (Hsb & Hkb & Htb).
      unfold m'. cbn. rewrite Hheap, deref_touch_pointer_ne by done.
      split_and!.
      * by rewrite pstate_other.
      * by apply pid_keys_le_add.
      * lia.
  - intros q Hq.
    assert (Hq' : forall b, b ∈ live m -> pid_of m b <> q).
    { intros b Hb. rewrite <- Hpid. apply Hq. by apply Hlive'. }
    assert (q <> p) by (intros ->; by apply (Hq' a)).
    destruct (H2 q Hq') as [Hsq Hkq]. split.
    + by rewrite pstate_other.
    + apply pid_keys_le_add; [|done]. eapply none_after_mono; [|exact Hkq]. done.
Qed.

(** Writing a DOWN for a new pointer with an unused pid. *)
Lemma trace_fresh t m m' r a p ms pt :
  (forall b, b ∈ live m' <-> b = a \/ b ∈ live m) ->
  pid_of m' a = p -> timestamp (deref (heap m') a) = ms ->
  (forall b, b ∈ live m -> deref (heap m') b = deref (heap m) b) ->
  (forall b, b ∈ live m -> pid_of m b <> p) ->
  trace_inv t m r -> t <= ms ->
  trace_inv ms m' (add_touch_event ms pt TouchAction.DOWN p r).
Proof.
  intros Hlive Hpa Hta Hold Hfresh [H1 H2] Hle.
  assert (Hpid : forall b, b ∈ live m -> pid_of m' b = pid_of m b).
  { intros b Hb. unfold pid_of. by rewrite Hold. }
  destruct (H2 p Hfresh) as [Hs Hk].
  assert (Hkp : pid_keys_le r p ms) by (by eapply none_after_mono).
  split.
  - intros b [->|Hb]%Hlive.
    + rewrite Hpa, Hta. split_and!; [|by apply pid_keys_le_add|lia].
      by rewrite (pstate_own _ _ _ _ _ Lifted).
    + rewrite Hpid, Hold by done. destruct (H1 b Hb) as (Hsb & Hkb & Htb).
      pose proof (Hfresh b Hb). split_and!.
      * by rewrite pstate_other.
      * by apply pid_keys_le_add.
      * lia.
  - intros q Hq.
    assert (q <> p).
    { intros ->. apply (Hq a); [|done]. apply Hlive. by left. }
    assert (Hq' : forall b, b ∈ live m -> pid_of m b <> q).
    { intros b Hb. rewrite <- Hpid by done. apply Hq. apply Hlive. by right. }
    destruct (H2 q Hq') as [Hsq Hkq]. split.
    + by rewrite pstate_other.
    + apply pid_keys_le_add; [|done]. by eapply none_after_mono.
Qed.

Lemma fresh_pointer_facts event m :
  pm_inv m -> dict_get (fe_id event) (pointers m) = None ->
  let m' := fst (fresh_pointer E event m) in
  let p := fst (_new E m) in
  let a := length (heap m) in
  snd (fresh_pointer E event m) = (p, true)
  /\ (forall b, b ∈ live m' <-> b = a \/ b ∈ live m)
  /\ pid_of m' a = p /\ timestamp (deref (heap m') a) = now m
  /\ (forall b, b ∈ live m -> deref (heap m') b = deref (heap m) b)
  /\ (forall b, b ∈ live m -> pid_of m b <> p)
  /\ pointers m' = pointers m ++ [(fe_id event, a)]
  /\ mark_as_released m' = mark_as_released m
  /\ now m' = now m.
Proof.
  intros Hinv Hget. pose proof (inv_alloc _ Hinv) as Hok.
  destruct (_new_fresh E m (live m) Hok) as (_ & Hlv & _).
  destruct (_new_fields E m) as (F1 & F2 & F3 & F4 & F5 & F6 & F7 & F8).
  unfold fresh_pointer. destruct (_new E m) as [p m1]. cbn in *.
  apply dict_get_None in Hget.
  split_and!.
  - done.
  - intros b. unfold live. cbn. rewrite F1, F5, dict_set_notin by done.
    unfold dict_values. rewrite fmap_app, !elem_of_app. cbn. rewrite F8.
    rewrite list_elem_of_singleton. tauto.
  - unfold pid_of. cbn. rewrite F8. by rewrite deref_app_new.
  - rewrite F8, deref_app_new. cbn. done.
  - intros b Hb. rewrite F8. apply deref_app_l. by eapply ok_valid.
  - intros b Hb. by destruct (Hlv b Hb).
  - rewrite F1, F8. by apply dict_set_notin.
  - done.
  - done.
Qed.

Lemma live_reuse e np a m :
  pm_inv m -> (np, a) ∈ unused m ->
  let m0 := set_pointers (pointers m ++ [(e, a)])
              (set_unused (filter (fun kv => fst kv <> np) (unused m)) m) in
  forall b, b ∈ live m0 <-> b ∈ live m.
Proof.
  intros Hinv Ha m0 b. pose proof (inv_unused_keys _ Hinv) as H3.
  apply list_elem_of_split in Ha as (u1 & u2 & Hu).
  assert (Hk : np ∉ dict_keys u1 /\ np ∉ dict_keys u2).
  { rewrite Hu in H3. unfold dict_keys in *. rewrite fmap_app, fmap_cons in H3.
    apply NoDup_app in H3 as (_ & Hd & H3). apply NoDup_cons in H3 as [H3 _].
    split; [|done]. intros Hin. apply (Hd np Hin). left. }
  assert (Hf : filter (fun kv : Z * addr => fst kv <> np) (unused m) = u1 ++ u2).
  { rewrite Hu, filter_app, filter_cons_False by (simpl; tauto).
    by rewrite !filter_keys_notin by tauto. }
  unfold live, m0. cbn. rewrite Hf, Hu. unfold dict_values.
  rewrite !fmap_app, !fmap_cons, !elem_of_app, !elem_of_cons. cbn.
  rewrite elem_of_nil. tauto.
Qed.

(** What [acquire] means for the output: a fresh pid takes a DOWN, a pid
    in use takes a MOVE. *)
Lemma acquire_trace event new m m' p fresh r t pt :
  pm_inv m -> trace_inv t m r -> t <= now m ->
  acquire E event new m = Ok (m', (p, fresh)) ->
  trace_inv (now m) m'
    (add_touch_event (now m) pt (if fresh then TouchAction.DOWN else TouchAction.MOVE) p r)
  /\ (fresh = true -> fe_id event ∉ dict_keys (pointers m))
  /\ (new = true -> fe_id event ∉ dict_keys (pointers m) -> fresh = true)
  /\ (forall id, id ∈ dict_keys (pointers m') <->
                 id = fe_id event \/ id ∈ dict_keys (pointers m))
  /\ mark_as_released m' = mark_as_released m
  /\ now m' = now m.
Proof.
  intros Hinv Htr Hle Hacq.
  destruct (acquire_cases _ _ _ _ _ _ Hacq)
    as [(a & Hget & -> & Hr)|[(np & a & Hget & Hnew & _ & Hu & Hd & -> & Hr)|(Hget & _ & Heq)]].
  - injection Hr as -> ->. apply dict_get_Some_elem in Hget.
    pose proof (elem_dict_keys _ _ _ Hget) as Hk.
    split_and!; try done.
    + apply (trace_touch t m m); try done. by eapply live_pointer.
    + intros id. cbn. split; [by right|]. by intros [->|?].
  - injection Hr as -> ->. apply dict_get_None in Hget. apply dict_get_Some_elem in Hu.
    rewrite dict_del_in, dict_set_notin;
      [|done|by apply inv_unused_keys|by eapply elem_dict_keys]. cbn [default].
    split_and!; try done.
    + apply (trace_touch t m
               (set_pointers (pointers m ++ [(fe_id event, a)])
                  (set_unused (filter (fun kv => fst kv <> np) (unused m)) m)));
        try done.
      * by eapply live_unused.
      * by apply live_reuse.
    + by subst new.
    + intros id. cbn. unfold dict_keys. rewrite fmap_app, elem_of_app. cbn.
      rewrite list_elem_of_singleton. tauto.
  - destruct (fresh_pointer_facts event m Hinv Hget)
      as (Hsnd & Hlive & Hpa & Hta & Hold & Hfresh & Hptr & Hmarks & Hnow).
    rewrite <- Heq in Hsnd, Hlive, Hpa, Hta, Hold, Hptr, Hmarks, Hnow. cbn in *.
    injection Hsnd as -> ->.
    split_and!; try done.
    + eapply trace_fresh; try done.
    + intros _. by apply dict_get_None.
    + intros id. rewrite Hptr. unfold dict_keys. rewrite fmap_app, elem_of_app. cbn.
      rewrite list_elem_of_singleton. tauto.
Qed.
End AcquireTrace.

(** * The gesture of an event id *)

Section Gestures.
Implicit Types (s : gesture_state) (l : list FrameEventAction.t).

Lemma gesture_run_app s l a :
  gesture_run s (l ++ [a]) = gesture_run s l ≫= fun s' => gesture_step s' a.
Proof. unfold gesture_run. by rewrite fold_left_app. Qed.

Lemma gesture_run_None l :
  fold_left (fun os a => os ≫= fun s => gesture_step s a) l None = None.
Proof. induction l as [|a l IH]; [done|]. exact IH. Qed.

Lemma gesture_run_prefix s l1 l2 :
  is_Some (gesture_run s (l1 ++ l2)) -> is_Some (gesture_run s l1).
Proof.
  unfold gesture_run. rewrite fold_left_app.
  destruct (fold_left _ l1 (Some s)) as [s'|]; [by eexists|].
  rewrite gesture_run_None. by intros [? ?].
Qed.

Lemma gesture_of_app id evs1 evs2 :
  gesture_of id (evs1 ++ evs2) = gesture_of id evs1 ++ gesture_of id evs2.
Proof. unfold gesture_of. by rewrite filter_app, fmap_app. Qed.

Lemma gesture_of_snoc id evs ev :
  gesture_of id (evs ++ [ev])
  = gesture_of id evs ++ (if decide (fe_id ev = id) then [action ev] else []).
Proof. rewrite gesture_of_app. unfold gesture_of at 2. rewrite filter_cons.
  by case_decide. Qed.

Lemma disciplined_prefix evs1 evs2 id :
  disciplined (evs1 ++ evs2) -> is_Some (gesture_run Fresh (gesture_of id evs1)).
Proof.
  intros H. specialize (H id). rewrite gesture_of_app in H.
  by eapply gesture_run_prefix.
Qed.
End Gestures.

Section HandleInv.
Variable E : Env.
Implicit Types (m : PointerManager) (r : gmap Z (list VirtualTouchEvent)).

Lemma release_fields event m :
  pointers (release event m) = pointers m /\ heap (release event m) = heap m
  /\ unused (release event m) = unused m /\ now (release event m) = now m
  /\ (forall id, id ∈ mark_as_released (release event m) ->
                 id = fe_id event \/ id ∈ mark_as_released m).
Proof.
  unfold release. destruct (dict_get _ _); cbn; split_and!; try done.
  - intros id [?|?%list_elem_of_singleton]%elem_of_app; auto.
  - auto.
Qed.

Lemma trace_inv_release event t m r : trace_inv t m r -> trace_inv t (release event m) r.
Proof.
  destruct (release_fields event m) as (Hp & Hh & Hu & _).
  assert (Hl : live (release event m) = live m) by (unfold live; by rewrite Hp, Hu).
  assert (Hpid : pid_of (release event m) = pid_of m) by (unfold pid_of; by rewrite Hh).
  intros [H1 H2]. split.
  - intros a. rewrite Hl, Hpid, Hh. apply H1.
  - intros p. rewrite Hl, Hpid. apply H2.
Qed.

(** [handle], read as: acquire, write, maybe release. *)
Lemma handle_eq ms m r kf event :
  handle E ms (m, r, kf) event
  = '(m1, (p, fresh)) ← acquire E event (acquires_new (action event)) m;
    Ok (if releases (action event) then release event m1 else m1,
        add_touch_event ms (fe_point event) (written (action event) fresh) p r,
        match action event with
        | FrameEventAction.TAP | FrameEventAction.HOLD_START => true
        | _ => kf
        end).
Proof.
  unfold handle. destruct (action event); cbn;
    destruct (acquire E event _ m) as [[m1 [p fresh]]|]; done.
Qed.

Lemma handle_inv done m r kf event m' r' kf' :
  plan_inv done m r ->
  is_Some (gesture_run Fresh (gesture_of (fe_id event) (done ++ [event]))) ->
  handle E (now m) (m, r, kf) event = Ok (m', r', kf') ->
  plan_inv (done ++ [event]) m' r' /\ now m' = now m.
Proof.
  intros [Hinv Htr Hg] Hdisc. rewrite handle_eq.
  destruct (acquire E event _ m) as [[m1 [p fresh]]|] eqn:Hacq; cbn; [|done].
  intros [= <- <- _].
  destruct (acquire_trace E _ _ _ _ _ _ _ _ (fe_point event) Hinv Htr (Z.le_refl _) Hacq)
    as (Htr1 & Hfresh & Hnew & Hkeys & Hmarks & Hnow).
  pose proof (pm_inv_acquire _ _ _ _ _ _ Hinv Hacq) as Hinv1.
  rewrite gesture_of_snoc, decide_True, gesture_run_app in Hdisc by done.
  pose proof (Hg (fe_id event)) as Hge.
  destruct (gesture_run Fresh (gesture_of (fe_id event) done)) as [s|] eqn:Hs; [|done].
  cbn in Hdisc.
  assert (Hmk : fe_id event ∉ mark_as_released m).
  { destruct s; [|tauto|].
    - intros Hin. destruct (inv_marks _ Hinv _ Hin) as (a & Ha & _).
      apply Hge. by eapply elem_dict_keys.
    - by destruct (action event), Hdisc. }
  assert (Hact : written (action event) fresh = if fresh then TouchAction.DOWN else TouchAction.MOVE).
  { destruct (action event) eqn:Ha; cbn in *; try done.
    - (* TAP *) destruct s; try (by destruct Hdisc). by rewrite Hnew.
    - (* FLICK *) destruct s; try (by destruct Hdisc).
      destruct fresh; [|done]. by destruct Hge as [? _], (Hfresh eq_refl).
    - (* FLICK_END *) destruct s; try (by destruct Hdisc).
      destruct fresh; [|done]. by destruct Hge as [? _], (Hfresh eq_refl).
    - (* HOLD_START *) destruct s; try (by destruct Hdisc). by rewrite Hnew.
    - (* HOLD *) destruct s; try (by destruct Hdisc).
      destruct fresh; [|done]. by destruct Hge as [? _], (Hfresh eq_refl).
    - (* HOLD_END *) destruct s; try (by destruct Hdisc).
      destruct fresh; [|done]. by destruct Hge as [? _], (Hfresh eq_refl). }
  rewrite Hact.
  set (m' := if releases (action event) then release event m1 else m1).
  destruct (release_fields event m1) as (Rp & Rh & Ru & Rn & Rm).
  assert (Hp' : pointers m' = pointers m1) by (unfold m'; by destruct (releases _)).
  assert (Hn' : now m' = now m1) by (unfold m'; by destruct (releases _)).
  assert (Hm' : forall id, id ∈ mark_as_released m' ->
                  (releases (action event) = true /\ id = fe_id event)
                  \/ id ∈ mark_as_released m).
  { intros id. unfold m'. destruct (releases _).
    - intros [->|?]%Rm; [by left|]. right. by rewrite <- Hmarks.
    - intros ?. right. by rewrite <- Hmarks. }
  split; [|by rewrite Hn'].
  split.
  - unfold m'. destruct (releases _); [by apply pm_inv_release|done].
  - rewrite Hn', Hnow. unfold m'. destruct (releases _); [by apply trace_inv_release|done].
  - intros id. rewrite gesture_of_snoc, Hp'.
    destruct (decide (fe_id event = id)) as [<-|Hne].
    + rewrite gesture_run_app, Hs. cbn.
      destruct (gesture_step s (action event)) as [[]|] eqn:Hstep; [| |done|by destruct Hdisc].
      * by destruct s, (action event).
      * split; [apply Hkeys; by left|].
        intros [[Hrel _]|Hin]%Hm'; [|done].
        by destruct s, (action event).
    + rewrite app_nil_r. specialize (Hg id).
      destruct (gesture_run Fresh (gesture_of id done)) as [[]|]; try done.
      * rewrite Hkeys. intros [?|?]; done.
      * destruct Hg as [Hin Hnm]. split; [apply Hkeys; by right|].
        intros [[_ ->]|?]%Hm'; done.
Qed.
End HandleInv.

(** * A frame: its events, then [recycle] *)

Section PlanInv.
Variable E : Env.
Implicit Types (m : PointerManager) (r : gmap Z (list VirtualTouchEvent)).

Lemma handle_all_inv events done m r kf m' r' kf' :
  plan_inv done m r ->
  (forall id, is_Some (gesture_run Fresh (gesture_of id (done ++ events)))) ->
  fold_res (handle E (now m)) events (m, r, kf) = Ok (m', r', kf') ->
  plan_inv (done ++ events) m' r' /\ now m' = now m.
Proof.
  revert done m r kf. induction events as [|ev events IH]; intros done m r kf Hinv Hdisc.
  - cbn. intros [= <- <- _]. by rewrite app_nil_r.
  - cbn [fold_res].
    destruct (handle E (now m) (m, r, kf) ev) as [[[m1 r1] kf1]|] eqn:Hh; cbn; [|done].
    intros Hrest.
    assert (Hd1 : is_Some (gesture_run Fresh (gesture_of (fe_id ev) (done ++ [ev])))).
    { specialize (Hdisc (fe_id ev)).
      replace (done ++ ev :: events) with ((done ++ [ev]) ++ events) in Hdisc
        by (by rewrite <- app_assoc).
      rewrite gesture_of_app in Hdisc. by eapply gesture_run_prefix. }
    destruct (handle_inv E _ _ _ _ _ _ _ _ Hinv Hd1 Hh) as [Hinv1 Hn1].
    rewrite <- Hn1 in Hrest.
    destruct (IH (done ++ [ev]) m1 r1 kf1 Hinv1) as [Hinv2 Hn2]; [|exact Hrest|].
    { intros id. rewrite <- app_assoc. apply Hdisc. }
    rewrite <- app_assoc in Hinv2. split; [done|congruence].
Qed.

(** Sending pointers UP, each one ms after its last write. *)
Lemma add_ups_trace (ups : list UpItem) r :
  NoDup ((fun u => fst (fst u)) <$> ups) ->
  (forall u, u ∈ ups -> pstate r (fst (fst u)) = Some Touching
                        /\ pid_keys_le r (fst (fst u)) (snd (fst u) - 1)) ->
  (forall u, u ∈ ups -> pstate (add_ups ups r) (fst (fst u)) = Some Lifted
                        /\ pid_keys_le (add_ups ups r) (fst (fst u)) (snd (fst u)))
  /\ (forall q, q ∉ (fun u => fst (fst u)) <$> ups ->
        pstate (add_ups ups r) q = pstate r q
        /\ forall t, pid_keys_le r q t -> pid_keys_le (add_ups ups r) q t).
Proof.
  revert r. induction ups as [|[[p k] ps] ups IH]; intros r Hnd Hups.
  - split; [by intros u ?%elem_of_nil|]. intros q _. done.
  - rewrite fmap_cons in Hnd. apply NoDup_cons in Hnd as [Hp Hnd]. cbn in Hp.
    unfold add_ups. cbn [fold_left fst snd].
    set (r1 := add_touch_event k ps TouchAction.UP p r).
    fold (add_ups ups r1).
    destruct (Hups (p, k, ps)) as [Hs Hk]; [left|]. cbn in Hs, Hk.
    assert (Hk' : pid_keys_le r p k) by (eapply none_after_mono; [|exact Hk]; lia).
    assert (Hs1 : pstate r1 p = Some Lifted).
    { unfold r1. by rewrite (pstate_own _ _ _ _ _ Touching). }
    assert (Hk1 : pid_keys_le r1 p k) by (by apply pid_keys_le_add).
    destruct (IH r1 Hnd) as [IH1 IH2].
    { intros u Hu. assert (fst (fst u) <> p).
      { intros Heq. apply Hp. apply list_elem_of_fmap. by exists u. }
      destruct (Hups u) as [Hsu Hku]; [by right|]. split.
      - unfold r1. by rewrite pstate_other.
      - by apply pid_keys_le_add. }
    split.
    + intros u [->|Hu]%elem_of_cons; [|by apply IH1]. cbn.
      destruct (IH2 p Hp) as [-> Hkk]. split; [done|by apply Hkk].
    + intros q Hq. rewrite fmap_cons, not_elem_of_cons in Hq. cbn in Hq.
      destruct Hq as [Hne Hq]. destruct (IH2 q Hq) as [-> Hkk]. split.
      * unfold r1. by rewrite pstate_other.
      * intros t Ht. apply Hkk. by apply pid_keys_le_add.
Qed.

Lemma timestamp_age_heap l h a :
  timestamp (deref (age_heap l h) a) = timestamp (deref h a).
Proof.
  revert h. induction l as [|b l IH]; intros h; [done|].
  change (age_heap (b :: l) h) with (age_heap l (<[b := aged (deref h b)]> h)).
  rewrite IH. destruct (decide (b = a)) as [->|Hne]; [|by rewrite deref_insert_ne].
  destruct (decide (a < length h)%nat).
  - by rewrite deref_insert_eq.
  - by rewrite list_insert_ge by lia.
Qed.

Lemma expiring_unused is_keyframe m a :
  a ∈ expiring is_keyframe m -> exists k, (k, a) ∈ unused m.
Proof.
  unfold expiring. destruct is_keyframe; [|by intros ?%elem_of_nil].
  intros [_ Ha]%list_elem_of_filter. by apply elem_dict_values_inv.
Qed.

(** The objects in use after [recycle]: those in use before, except the
    ones sent UP. *)
Lemma live_recycled is_keyframe m mf b :
  pm_inv m ->
  b ∈ live (recycled_state is_keyframe m mf)
  <-> b ∈ live m /\ b ∉ expiring is_keyframe m.
Proof.
  intros Hinv. pose proof Hinv as [H1 H2 H3 H4 H5 H6 H7].
  unfold recycled_state, live. cbn. unfold dict_values.
  rewrite fmap_app, !elem_of_app. split.
  - intros [Hb|[Hb|Hb]].
    + apply elem_dict_values_inv in Hb as [e He].
      apply list_elem_of_filter in He as [_ He]. split.
      * left. by eapply elem_dict_values.
      * intros [k Hk]%expiring_unused. by eapply pm_inv_apart.
    + apply elem_dict_values_inv in Hb as [k Hk].
      apply list_elem_of_filter in Hk as [Hne Hk]. split; [|done].
      right. by eapply elem_dict_values.
    + apply elem_dict_values_inv in Hb as [k Hk].
      destruct (H6 _ _ Hk) as [_ (e & He & _)]. split.
      * left. by eapply elem_dict_values.
      * intros [k' Hk']%expiring_unused. by eapply pm_inv_apart.
  - intros [[Hb|Hb] Hne].
    + apply elem_dict_values_inv in Hb as [e He].
      destruct (decide (e ∈ mark_as_released m)) as [Hm|Hm].
      * right. right. destruct (H7 e Hm) as (a & Ha & Hn).
        assert (a = b) as ->.
        { apply (dict_get_elem _ _ _ H2) in Ha, He. congruence. }
        by eapply elem_dict_values.
      * left. apply (elem_dict_values e). by apply list_elem_of_filter.
    + apply elem_dict_values_inv in Hb as [k Hk].
      right. left. apply (elem_dict_values k). by apply list_elem_of_filter.
Qed.

Lemma recycle_trace is_keyframe m r ups m' t :
  pm_inv m -> trace_inv t m r ->
  recycle is_keyframe m = (ups, Ok m') ->
  trace_inv (t + 1) m' (add_ups ups r).
Proof.
  intros Hinv [T1 T2] Hrec.
  destruct (recycle_spec _ _ _ _ Hinv Hrec) as (mf & Hfree & -> & _ & -> & _).
  pose proof (inv_alloc _ Hinv) as Hok.
  set (exp := expiring is_keyframe m).
  set (ups := (fun a => up_of (aged (deref (heap m) a))) <$> exp).
  assert (Hexp_live : forall a, a ∈ exp -> a ∈ live m).
  { intros a [k Hk]%expiring_unused. by eapply live_unused. }
  assert (Hexp_nd : NoDup exp).
  { unfold exp, expiring. destruct is_keyframe; [|apply NoDup_nil_2].
    apply NoDup_filter. pose proof (ok_nodup _ _ Hok) as Hnd.
    unfold live in Hnd. by apply NoDup_app in Hnd as (_ & _ & ?). }
  assert (Hpids : (fun u : UpItem => fst (fst u)) <$> ups = pid_of m <$> exp).
  { unfold ups. rewrite <- list_fmap_compose. done. }
  assert (Hin_pids : forall q, q ∈ pid_of m <$> exp <-> exists a, a ∈ exp /\ pid_of m a = q).
  { intros q. rewrite list_elem_of_fmap. naive_solver. }
  destruct (add_ups_trace ups r) as [U1 U2].
  { change (NoDup ((fun u : UpItem => fst (fst u)) <$> ups)).
    rewrite Hpids. apply NoDup_fmap_2_strong; [|done].
    intros a b Ha Hb. apply (ok_inj _ _ Hok); auto. }
  { intros u (a & -> & Ha)%list_elem_of_fmap. cbn.
    destruct (T1 a (Hexp_live a Ha)) as (Hs & Hk & _). split; [done|].
    eapply none_after_mono; [|exact Hk]. lia. }
  assert (Hpid' : forall b, pid_of (recycled_state is_keyframe m mf) b = pid_of m b).
  { intros b. unfold pid_of, recycled_state. cbn.
    destruct is_keyframe; [apply pid_age_heap|done]. }
  assert (Hts' : forall b, timestamp (deref (heap (recycled_state is_keyframe m mf)) b)
                           = timestamp (deref (heap m) b)).
  { intros b. unfold recycled_state. cbn.
    destruct is_keyframe; [apply timestamp_age_heap|done]. }
  split.
  - intros b [Hb Hne]%live_recycled; [|done]. rewrite Hpid', Hts'.
    destruct (T1 b Hb) as (Hs & Hk & Ht).
    destruct (U2 (pid_of m b)) as [Hs' Hk'].
    { change (pid_of m b ∉ (fun u : UpItem => fst (fst u)) <$> ups).
      rewrite Hpids, Hin_pids. intros (a & Ha & Heq). apply Hne.
      assert (a = b) as -> by (apply (ok_inj _ _ Hok); auto). done. }
    rewrite Hs'. split_and!; [done|by apply Hk'|lia].
  - intros q Hq.
    destruct (decide (q ∈ pid_of m <$> exp)) as [Hin|Hin].
    + apply Hin_pids in Hin as (a & Ha & <-).
      destruct (U1 (up_of (aged (deref (heap m) a)))) as [Hs Hk].
      { unfold ups. apply list_elem_of_fmap. by exists a. }
      cbn in Hs, Hk. split; [done|].
      eapply none_after_mono; [|exact Hk].
      destruct (T1 a (Hexp_live a Ha)) as (_ & _ & Ht). lia.
    + assert (Hq' : forall b, b ∈ live m -> pid_of m b <> q).
      { intros b Hb. destruct (decide (b ∈ exp)) as [Hbe|Hbe].
        - intros <-. apply Hin. apply Hin_pids. by exists b.
        - rewrite <- Hpid'. apply Hq. by apply live_recycled. }
      destruct (T2 q Hq') as [Hs Hk].
      destruct (U2 q) as [Hs' Hk'].
      { change (q ∉ (fun u : UpItem => fst (fst u)) <$> ups). by rewrite Hpids. }
      rewrite Hs'. split; [done|]. apply Hk'. eapply none_after_mono; [|exact Hk]. lia.
Qed.
End PlanInv.

(** * The planning loop and [finish] *)

Lemma elem_dict_keys_inv {V} (d : list (Z * V)) k :
  k ∈ dict_keys d -> exists v, (k, v) ∈ d.
Proof.
  unfold dict_keys. intros ([k' v] & -> & Hin)%list_elem_of_fmap. by exists v.
Qed.

Section PlanLevel.
Variable E : Env.
Implicit Types (m : PointerManager) (r : gmap Z (list VirtualTouchEvent)).

Lemma frame_inv_init t : frame_inv t [] (PointerManager_init 1000 1) ∅.
Proof.
  split.
  - apply pm_inv_init.
  - done.
  - split.
    + intros a Ha. by apply elem_of_nil in Ha.
    + intros p _. split.
      * unfold pstate, pid_actions. by rewrite chrono_sel_empty.
      * apply none_after_empty.
  - intros id. cbn. apply not_elem_of_nil.
Qed.

Lemma gesture_inv_recycled is_keyframe done m mf :
  gesture_inv done m -> gesture_inv done (recycled_state is_keyframe m mf).
Proof.
  intros Hg id. specialize (Hg id).
  destruct (gesture_run Fresh (gesture_of id done)) as [[| |]|]; try done.
  - intros Hin. apply Hg. unfold recycled_state in Hin. cbn in Hin.
    apply elem_dict_keys_inv in Hin as [a Ha].
    apply list_elem_of_filter in Ha as [_ Ha]. by eapply elem_dict_keys.
  - destruct Hg as [Hin Hm]. split; [|apply not_elem_of_nil].
    unfold recycled_state. cbn.
    apply elem_dict_keys_inv in Hin as [a Ha]. apply (elem_dict_keys _ a).
    by apply list_elem_of_filter.
Qed.

Lemma plan_frame_inv t done m r item m' r' :
  frame_inv t done m r -> t <= fst item ->
  (forall id, is_Some (gesture_run Fresh (gesture_of id (done ++ snd item)))) ->
  plan_frame E (m, r) item = Ok (m', r') ->
  frame_inv (fst item + 1) (done ++ snd item) m' r'.
Proof.
  intros [Hinv Hnow Htr Hg] Hle Hdisc. unfold plan_frame. cbn [fst snd].
  set (ms := fst item).
  assert (Hinv0 : plan_inv done (set_now ms m) r).
  { split.
    - by apply pm_inv_set_now.
    - apply (trace_inv_mono t); [done|]. destruct Htr as [T1 T2]. by split.
    - exact Hg. }
  change ms with (now (set_now ms m)) at 1.
  destruct (fold_res _ (snd item) _) as [[[m1 r1] kf]|] eqn:Hfold; cbn; [|done].
  apply (handle_all_inv E (snd item) done (set_now ms m)) in Hfold
    as [[Hinv1 Htr1 Hg1] Hn1]; [|done|done].
  destruct (recycle kf m1) as [ups [m2|]] eqn:Hrec; cbn; [|done].
  intros [= <- <-].
  destruct (pm_inv_recycle _ _ _ _ Hinv1 Hrec) as (Hinv2 & Hun2 & _).
  split; [done|done| |].
  - change (now m1 = ms) in Hn1. rewrite <- Hn1. by eapply (recycle_trace kf m1).
  - destruct (recycle_spec _ _ _ _ Hinv1 Hrec) as (mf & _ & _ & _ & -> & _).
    by apply gesture_inv_recycled.
Qed.

Lemma plan_from_inv batches t done m r m' r' :
  frame_inv t done m r -> ascending t batches ->
  disciplined (done ++ flatten batches) ->
  fold_res (plan_frame E) batches (m, r) = Ok (m', r') ->
  exists t', frame_inv t' (done ++ flatten batches) m' r'.
Proof.
  revert t done m r. induction batches as [|item batches IH]; intros t done m r Hinv Hasc Hdisc.
  - cbn. intros [= <- <-]. exists t. by rewrite app_nil_r.
  - cbn [fold_res]. destruct (plan_frame E (m, r) item) as [[m1 r1]|] eqn:Hf; cbn; [|done].
    intros Hrest. destruct Hasc as [Hle Hasc].
    unfold flatten in *. rewrite bind_cons in *. rewrite app_assoc in *.
    eapply (plan_frame_inv t) in Hf; [|done|done|].
    + by eapply IH.
    + intros id. by eapply disciplined_prefix.
Qed.

(** [finish] lifts every pointer still in use. *)
Lemma finish_lifts t done m r p :
  frame_inv t done m r -> pstate (add_ups (finish m) r) p = Some Lifted.
Proof.
  intros [Hinv Hnow [T1 T2] _]. pose proof (inv_alloc _ Hinv) as Hok.
  unfold finish. rewrite Hnow. cbn [dict_values fmap list_fmap app].
  set (objs := dict_values (unused m) ++ dict_values (pointers m)).
  assert (Hlive : forall a, a ∈ objs <-> a ∈ live m).
  { intros a. unfold objs, live. rewrite !elem_of_app. tauto. }
  assert (Hnd : NoDup objs).
  { pose proof (ok_nodup _ _ Hok) as Hl. unfold live in Hl. unfold objs.
    apply NoDup_app in Hl as (L1 & L2 & L3). apply NoDup_app. split_and!; [done| |done].
    intros a Ha Hb. by apply (L2 a). }
  set (ups := (fun a => up_of (deref (heap m) a)) <$> objs).
  assert (Hpids : (fun u : UpItem => fst (fst u)) <$> ups = pid_of m <$> objs).
  { unfold ups. by rewrite <- list_fmap_compose. }
  destruct (add_ups_trace ups r) as [U1 U2].
  { change (NoDup ((fun u : UpItem => fst (fst u)) <$> ups)).
    rewrite Hpids. apply NoDup_fmap_2_strong; [|done].
    intros a b Ha Hb. apply (ok_inj _ _ Hok); by apply Hlive. }
  { intros u (a & -> & Ha)%list_elem_of_fmap. cbn.
    destruct (T1 a) as (Hs & Hk & _); [by apply Hlive|]. split; [done|].
    eapply none_after_mono; [|exact Hk]. lia. }
  destruct (decide (p ∈ pid_of m <$> objs)) as [Hin|Hin].
  - apply list_elem_of_fmap in Hin as (a & -> & Ha).
    destruct (U1 (up_of (deref (heap m) a))) as [Hs _]; [|exact Hs].
    unfold ups. apply list_elem_of_fmap. by exists a.
  - destruct (U2 p) as [-> _].
    { change (p ∉ (fun u : UpItem => fst (fst u)) <$> ups). by rewrite Hpids. }
    apply T2. intros a Ha <-. apply Hin. apply list_elem_of_fmap. exists a.
    split; [done|]. by apply Hlive.
Qed.

(** Planning an ascending, disciplined sequence of frames leaves every
    pid with balanced actions. *)
Lemma plan_balanced batches t result p :
  ascending t batches -> disciplined (flatten batches) ->
  plan_and_finish E batches = Ok result ->
  balanced (pid_actions result p).
Proof.
  intros Hasc Hdisc. unfold plan_and_finish, plan.
  destruct (fold_res _ batches _) as [[m r]|] eqn:Hplan; cbn; [|done].
  intros [= <-].
  eapply (plan_from_inv _ t []) in Hplan as [t' Hinv]; [|apply frame_inv_init|done|done].
  by eapply finish_lifts.
Qed.
End PlanLevel.

Section SortedItems.
Context {A : Type}.

Lemma ascending_keys (f : Z -> list FrameEvent) t ks :
  StronglySorted Z.le ks -> NoDup ks -> (forall k, k ∈ ks -> t <= k) ->
  ascending t ((fun k => (k, f k)) <$> ks).
Proof.
  revert t. induction ks as [|k ks IH]; intros t Hs Hnd Hlo; [done|].
  apply StronglySorted_inv in Hs as [Hs Hall]. apply NoDup_cons in Hnd as [Hk Hnd].
  cbn. split; [apply Hlo; left|]. apply IH; [done|done|].
  intros k' Hk'. rewrite Forall_forall in Hall. specialize (Hall k' Hk').
  assert (k <> k') by (intros ->; done). lia.
Qed.
End SortedItems.

Lemma sorted_items_ascending (d : gmap Z (list FrameEvent)) :
  exists t, ascending t (sorted_items d).
Proof.
  unfold sorted_items. pose proof (sorted_keys_sorted d) as Hs.
  pose proof (sorted_keys_NoDup d) as Hnd.
  destruct (sorted_keys d) as [|k ks] eqn:Hks; [by exists 0|].
  exists k. apply ascending_keys; [done|done|].
  intros k' [->|Hk']%elem_of_cons; [lia|].
  apply StronglySorted_inv in Hs as [_ Hall]. rewrite Forall_forall in Hall. by apply Hall.
Qed.

(** * The order of the synthesized events *)

Section SynthOrder.
Variable E : Env.

Lemma seqZ_sorted m n : StronglySorted Z.le (seqZ m n).
Proof.
  remember (Z.to_nat n) as k eqn:Hk. revert m n Hk.
  induction k as [|k IH]; intros m n Hk.
  - rewrite seqZ_nil by lia. constructor.
  - rewrite seqZ_cons by lia. constructor; [apply IH; lia|].
    apply Forall_forall. intros x Hx%elem_of_seqZ. lia.
Qed.

Lemma flatten_chrono {A} (d : gmap Z (list A)) :
  sorted_items d ≫= snd = snd <$> chrono d.
Proof.
  unfold chrono. induction (sorted_items d) as [|[k l] items IH]; [done|].
  rewrite !bind_cons, fmap_app, <- IH. f_equal.
  cbn. rewrite <- list_fmap_compose. cbn. by rewrite list_fmap_id.
Qed.

Lemma gesture_of_sorted_items id (frames : gmap Z (list FrameEvent)) :
  gesture_of id (flatten (sorted_items frames)) = action <$> id_events id frames.
Proof. unfold gesture_of, flatten, id_events, chrono_sel. by rewrite flatten_chrono. Qed.

Lemma chrono_sel_none {A} (P : A -> Prop) `{!forall x, Decision (P x)} (d : gmap Z (list A)) :
  (forall k x, x ∈ events_at d k -> ~ P x) -> chrono_sel P d = [].
Proof.
  intros Hd. rewrite chrono_sel_keys. apply bind_all_nil. intros k _.
  apply elem_of_nil_inv. intros x [Hx Hin]%list_elem_of_filter. by eapply Hd.
Qed.

Lemma add_events_cons e evs frames :
  add_events (e :: evs) frames = add_events evs (tl_append (fst e) (snd e) frames).
Proof. unfold add_events. cbn [fold_left]. unfold add_frame_event. by rewrite frame_event_eta. Qed.

Lemma add_events_other (P : FrameEvent -> Prop) `{!forall x, Decision (P x)} evs frames :
  Forall (fun e => ~ P (snd e)) evs ->
  chrono_sel P (add_events evs frames) = chrono_sel P frames.
Proof.
  revert frames. induction evs as [|e evs IH]; intros frames Hall; [done|].
  apply Forall_cons in Hall as [He Hall].
  rewrite add_events_cons, IH by done. by apply chrono_sel_append_other.
Qed.

(** Events added in non-decreasing ms, none before an earlier one of
    their kind, come last and in the order added. *)
Lemma add_events_last (P : FrameEvent -> Prop) `{!forall x, Decision (P x)} evs frames :
  StronglySorted Z.le (fst <$> evs) ->
  Forall (fun e => P (snd e)) evs ->
  (forall e, e ∈ evs -> none_after P frames (fst e)) ->
  chrono_sel P (add_events evs frames) = chrono_sel P frames ++ (snd <$> evs).
Proof.
  revert frames. induction evs as [|e evs IH]; intros frames Hs Hall Hlast.
  - by rewrite app_nil_r.
  - rewrite fmap_cons in Hs. apply StronglySorted_inv in Hs as [Hs Hle].
    apply Forall_cons in Hall as [He Hall].
    rewrite add_events_cons, IH; [|done|done|].
    + rewrite chrono_sel_append_last; [|done|apply Hlast; left].
      by rewrite <- app_assoc.
    + intros e' He'. apply none_after_append; [apply Hlast; by right|].
      intros _. rewrite Forall_forall in Hle. apply Hle.
      apply list_elem_of_fmap. by exists e'.
Qed.

Lemma gesture_run_samples a l :
  (a = FrameEventAction.FLICK \/ a = FrameEventAction.HOLD) ->
  Forall (eq a) l -> gesture_run Open l = Some Open.
Proof.
  intros Ha. induction 1 as [|b l <- _ IH]; [done|].
  unfold gesture_run in *. cbn [fold_left]. destruct Ha as [-> | ->]; exact IH.
Qed.

Lemma gesture_run_note a1 a l a2 :
  gesture_step Fresh a1 = Some Open ->
  (a = FrameEventAction.FLICK \/ a = FrameEventAction.HOLD) ->
  Forall (eq a) l ->
  gesture_step Open a2 = Some Closed ->
  gesture_run Fresh ([a1] ++ l ++ [a2]) = Some Closed.
Proof.
  intros H1 Ha Hl H2. rewrite app_assoc, gesture_run_app.
  unfold gesture_run at 1. rewrite fold_left_app. cbn [fold_left mbind option_bind].
  rewrite H1. fold (gesture_run Open l). by rewrite (gesture_run_samples a).
Qed.

(** The events of a note form one gesture. *)
Lemma note_events_gesture line event id :
  gesture_run Fresh (action <$> (snd <$> note_events E line event id)) = Some Closed.
Proof.
  unfold note_events. destruct (note_type event); [done|done| |].
  - cbv zeta. rewrite !fmap_app, <- !list_fmap_compose.
    apply (gesture_run_note _ FrameEventAction.FLICK); [done|by left| |done].
    apply Forall_fmap, Forall_true. done.
  - cbv zeta. rewrite !fmap_app, <- !list_fmap_compose.
    apply (gesture_run_note _ FrameEventAction.HOLD); [done|by right| |done].
    apply Forall_fmap, Forall_true. done.
Qed.

(** The events of a note are added in non-decreasing ms, when a HOLD does
    not end before it starts. *)
Lemma note_events_sorted line event id :
  (note_type event = NoteType.HOLD -> 0 <= hold_ms_of line event) ->
  StronglySorted Z.le (fst <$> note_events E line event id).
Proof.
  intros Hhold. unfold note_events.
  destruct (note_type event); [repeat constructor|repeat constructor| |].
  - cbv zeta. rewrite !fmap_app, <- !list_fmap_compose.
    set (ms := note_ms line event).
    apply StronglySorted_app_2; [|repeat constructor|apply StronglySorted_app_2].
    + intros x1 x2 ->%list_elem_of_singleton [Hx|Hx]%elem_of_app.
      * apply list_elem_of_fmap in Hx as (o & -> & Ho%elem_of_flick_offsets).
        cbn. unfold FLICK_START. lia.
      * apply list_elem_of_singleton in Hx as ->. cbn. unfold FLICK_START, FLICK_END. lia.
    + intros x1 x2 (o & -> & Ho%elem_of_flick_offsets)%list_elem_of_fmap
        ->%list_elem_of_singleton. cbn. unfold FLICK_END. lia.
    + apply (StronglySorted_fmap _ Z.le); [cbn; intros; lia|].
      apply StronglySorted_filter, seqZ_sorted.
    + repeat constructor.
  - specialize (Hhold eq_refl). cbv zeta. rewrite !fmap_app, <- !list_fmap_compose.
    set (ms := note_ms line event). set (h := hold_ms_of line event) in *.
    apply StronglySorted_app_2; [|repeat constructor|apply StronglySorted_app_2].
    + intros x1 x2 ->%list_elem_of_singleton [Hx|Hx]%elem_of_app.
      * apply list_elem_of_fmap in Hx as (o & -> & Ho%elem_of_hold_offsets).
        cbn. lia.
      * apply list_elem_of_singleton in Hx as ->. cbn. lia.
    + intros x1 x2 (o & -> & Ho%elem_of_hold_offsets)%list_elem_of_fmap
        ->%list_elem_of_singleton. cbn. lia.
    + apply (StronglySorted_fmap _ Z.le); [cbn; intros; lia|].
      apply StronglySorted_filter, seqZ_sorted.
    + repeat constructor.
Qed.

Lemma synth_note_closed line st event :
  (note_type event = NoteType.HOLD -> 0 <= hold_ms_of line event) ->
  frame_ids_below st -> gestures_closed (fst st) ->
  gestures_closed (fst (synth_note E line st event)).
Proof.
  intros Hhold Hids Hcl id. unfold synth_note, id_events. cbn [fst snd].
  pose proof (note_events_ids E line event (snd st)) as Hown.
  destruct (decide (id = snd st)) as [->|Hne].
  - assert (Hnone : forall k x, x ∈ events_at (fst st) k -> fe_id x <> snd st).
    { intros k x Hx. apply Hids in Hx. lia. }
    rewrite add_events_last.
    + rewrite chrono_sel_none by done. cbn [app]. rewrite note_events_gesture. by eexists.
    + by apply note_events_sorted.
    + exact Hown.
    + intros e _ k x Hx HP. by destruct (Hnone k x Hx).
  - rewrite add_events_other; [apply Hcl|].
    eapply Forall_impl; [exact Hown|]. cbn. intros e ->. congruence.
Qed.

Lemma synth_notes_closed line notes st :
  (forall event, event ∈ notes -> note_type event = NoteType.HOLD ->
     0 <= hold_ms_of line event) ->
  0 <= snd st -> frame_ids_below st -> gestures_closed (fst st) ->
  gestures_closed (fst (fold_left (synth_note E line) notes st)).
Proof.
  revert st. induction notes as [|n notes IH]; intros st Hhold H0 Hids Hcl; [done|].
  cbn [fold_left]. apply IH.
  - intros ev Hev. apply Hhold. by right.
  - cbn. lia.
  - by apply synth_note_ids_below.
  - apply synth_note_closed; [|done|done]. apply Hhold. left.
Qed.

Lemma synth_lines_closed lines st :
  holds_nonneg lines ->
  0 <= snd st -> frame_ids_below st -> gestures_closed (fst st) ->
  gestures_closed (fst (fold_left (synth_line E) lines st)).
Proof.
  revert st. induction lines as [|l lines IH]; intros st Hhold H0 Hids Hcl; [done|].
  cbn [fold_left].
  destruct (synth_notes_ids_below E l (notes_above l ++ notes_below l) st H0 Hids)
    as [H0' Hids'].
  apply IH; [|exact H0'|exact Hids'|].
  - intros line ev Hl. apply Hhold. by right.
  - apply synth_notes_closed; [|done|done|done].
    intros ev Hev. apply Hhold; [left|done].
Qed.

Lemma synthesize_disciplined chart :
  holds_nonneg chart -> disciplined (flatten (sorted_items (synthesize E chart))).
Proof.
  intros Hhold id. rewrite gesture_of_sorted_items.
  apply (synth_lines_closed chart (∅, 0)); [done|done| |].
  - intros t ev. cbn. rewrite lookup_empty. by intros ?%elem_of_nil.
  - intros id'. unfold id_events. cbn [fst]. rewrite chrono_sel_empty. by eexists.
Qed.
End SynthOrder.

(** * Balanced touch sequences *)

Lemma chrono_sel_elem {A} (P : A -> Prop) `{!forall x, Decision (P x)}
    (d : gmap Z (list A)) k x :
  x ∈ events_at d k -> P x -> x ∈ chrono_sel P d.
Proof.
  intros Hx HP. rewrite chrono_sel_keys. apply list_elem_of_bind. exists k. split.
  - by apply list_elem_of_filter.
  - apply sorted_keys_elem. destruct (decide (k ∈ dom d)) as [|Hk]; [done|].
    rewrite events_at_notin in Hx by done. by apply elem_of_nil in Hx.
Qed.

Lemma appears_actions result p : appears result p -> pid_actions result p <> [].
Proof.
  intros (ms & e & He & Hp) Hnil. unfold pid_actions in Hnil.
  apply fmap_nil_inv in Hnil.
  pose proof (chrono_sel_elem (fun e => pointer_id e = p) result ms e He Hp) as Hin.
  rewrite Hnil in Hin. by apply elem_of_nil in Hin.
Qed.

(** C1, amended.  For every chart whose HOLD notes do not end before they
    start, if [solve] returns, then the actions of every pointer id, in
    chronological order (by ms key, then by position in the list of that
    ms), are a concatenation of runs DOWN MOVE* UP, and of at least one
    such run when the pid appears in the output: a pid is recycled after
    its UP and can go DOWN again. *)
Theorem balanced_sequences (E : Env) (chart : list JudgeLine)
    (result : gmap Z (list VirtualTouchEvent)) (p : Z) :
  holds_nonneg chart ->
  solve E chart = Ok result ->
  exists runs,
    pid_actions result p = concat runs
    /\ Forall (fun run => is_run run = true) runs
    /\ (appears result p -> runs <> []).
Proof.
  intros Hhold Hsolve. unfold solve in Hsolve.
  destruct (sorted_items_ascending (synthesize E chart)) as [t Hasc].
  pose proof (synthesize_disciplined E chart Hhold) as Hdisc.
  pose proof (plan_balanced E _ t result p Hasc Hdisc Hsolve) as Hbal.
  apply balanced_runs in Hbal as (runs & Heq & Hruns).
  exists runs. split_and!; [done|done|].
  intros Happ ->. by apply (appears_actions result p).
Qed.

Lemma balanced_sequences_witness :
  holds_nonneg mixed_chart
  /\ solve (env_of pop_smallest) mixed_chart = Ok (solved (env_of pop_smallest) mixed_chart)
  /\ exists runs,
       pid_actions (solved (env_of pop_smallest) mixed_chart) 1001 = concat runs
       /\ Forall (fun run => is_run run = true) runs
       /\ (appears (solved (env_of pop_smallest) mixed_chart) 1001 -> runs <> []).
Proof.
  assert (H1 : holds_nonneg mixed_chart).
  { intros line event Hl Hev Ht. apply list_elem_of_singleton in Hl. subst line.
    cbn [still_line notes_above notes_below app] in Hev.
    rewrite !elem_of_cons, elem_of_nil in Hev.
    destruct Hev as [->|[->|[->|[->|[]]]]]; try discriminate Ht.
    vm_compute. discriminate. }
  assert (H2 : solve (env_of pop_smallest) mixed_chart
               = Ok (solved (env_of pop_smallest) mixed_chart))
    by (vm_compute; reflexivity).
  split; [exact H1|]. split; [exact H2|].
  exact (balanced_sequences (env_of pop_smallest) mixed_chart _ 1001 H1 H2).
Defined.

(** C1 as stated fails: with taps at 1000, 2000, 3000 and 4000 ms the pid
    1000 is sent UP by the recycle of the third frame and handed out again
    to the fourth tap, so its actions are DOWN UP DOWN UP, which is not in
    DOWN MOVE* UP.  The recycled set holds only that pid, so every
    [set.pop()] gives this output. *)
Lemma pid_reused_after_up :
  holds_nonneg four_taps_chart
  /\ solve (env_of pop_smallest) four_taps_chart
     = Ok (solved (env_of pop_smallest) four_taps_chart)
  /\ appears (solved (env_of pop_smallest) four_taps_chart) 1000
  /\ pid_actions (solved (env_of pop_smallest) four_taps_chart) 1000
     = [TouchAction.DOWN; TouchAction.UP; TouchAction.DOWN; TouchAction.UP]
  /\ is_run (pid_actions (solved (env_of pop_smallest) four_taps_chart) 1000) = false.
Proof.
  split_and!.
  - intros line event Hl Hev Ht. apply list_elem_of_singleton in Hl. subst line.
    cbn [still_line notes_above notes_below app] in Hev.
    rewrite !elem_of_cons, elem_of_nil in Hev.
    destruct Hev as [->|[->|[->|[->|[]]]]]; discriminate Ht.
  - vm_compute; reflexivity.
  - exists 1000, (mkVTE (0%Q, 0%Q) TouchAction.DOWN 1000). split; [|done].
    assert (Hev : events_at (solved (env_of pop_smallest) four_taps_chart) 1000
                  = [mkVTE (0%Q, 0%Q) TouchAction.DOWN 1000]) by (vm_compute; reflexivity).
    rewrite Hev. left.
  - vm_compute; reflexivity.
  - vm_compute; reflexivity.
Qed.


(** * Touch injection *)

Module ControlFacts.
Import Control.

Lemma clamp_range v bound : 1 <= bound -> 0 <= clamp v bound <= bound - 1.
Proof. unfold clamp. lia. Qed.

Lemma pack_field_raises lo hi n v e :
  pack_field lo hi n v = Propagated e -> e = struct_error.
Proof. unfold pack_field. case_decide; congruence. Qed.

Lemma pack_all_raises fields e :
  Forall (fun f => forall e', f = Propagated e' -> e' = struct_error) fields ->
  pack_all fields = Propagated e -> e = struct_error.
Proof.
  induction 1 as [|f fields Hf _ IH]; [done|]. simpl.
  destruct f as [bs|e0].
  - destruct (pack_all fields) as [bs'|e1]; [done|]. intros [= <-]. by apply IH.
  - intros [= <-]. by apply Hf.
Qed.

Lemma pack_touch_raises action pointer_id x y w h e :
  pack_touch action pointer_id x y w h = Propagated e -> e = struct_error.
Proof.
  apply pack_all_raises.
  repeat (apply Forall_cons; split; [intros e'; apply pack_field_raises|]).
  apply Forall_nil_2.
Qed.

(** C10.  [touch] returns for every input: the coordinates are clamped
    (into [0, device_width - 1] x [0, device_height - 1] when the device
    has a size), and whatever [struct.pack] or the socket raises is caught.
    A connection error is logged and clears [collector_running]; any other
    failure is only logged; in both cases nothing is sent. *)
Theorem touch_never_raises send x y action pointer_id c :
  let x' := Z.max 0 (Z.min x (device_width c - 1)) in
  let y' := Z.max 0 (Z.min y (device_height c - 1)) in
  exists c',
    touch send x y action pointer_id c = Returned c'
    /\ device_width c' = device_width c /\ device_height c' = device_height c
    /\ (1 <= device_width c -> 0 <= x' <= device_width c - 1)
    /\ (1 <= device_height c -> 0 <= y' <= device_height c - 1)
    /\ match pack_touch action pointer_id x' y' (device_width c) (device_height c) with
       | Propagated e =>
           e = struct_error /\ wire c' = wire c
           /\ collector_running c' = collector_running c
           /\ log c' = log c ++ [FailedToSendTouchEvent e]
       | Returned data =>
           match send data with
           | Returned _ =>
               wire c' = wire c ++ [data] /\ log c' = log c
               /\ collector_running c' = collector_running c
           | Propagated e =>
               wire c' = wire c
               /\ if is_connection_error e
                  then collector_running c' = false
                       /\ log c' = log c ++ [SocketConnectionLost e]
                  else collector_running c' = collector_running c
                       /\ log c' = log c ++ [FailedToSendTouchEvent e]
           end
       end.
Proof.
  intros x' y'. unfold touch, touch_try. fold (clamp x (device_width c)).
  change (clamp x (device_width c)) with x'. change (clamp y (device_height c)) with y'.
  destruct (pack_touch action pointer_id x' y' (device_width c) (device_height c))
    as [data|e] eqn:Hpack.
  - destruct (send data) as [[]|e] eqn:Hsend.
    + eexists. split_and!; try reflexivity; try (intros; subst x' y'; lia).
    + destruct (is_connection_error e) eqn:He;
        eexists; split_and!; try reflexivity; try (intros; subst x' y'; lia);
        rewrite ?He; done.
  - pose proof (pack_touch_raises _ _ _ _ _ _ _ Hpack) as ->. cbn.
    eexists. split_and!; try reflexivity; try (intros; subst x' y'; lia).
Qed.

(** A touch with a pointer id that does not fit the wire format is dropped
    and logged. *)
Example touch_bad_pointer_id send :
  touch send 10 10 TouchAction.DOWN (-1) (mkController 1080 1920 true [] [])
  = Returned (mkController 1080 1920 true [] [FailedToSendTouchEvent struct_error]).
Proof. reflexivity. Qed.

Example pack_touch_bytes :
  pack_touch TouchAction.DOWN 1000 5 7 1080 1920
  = Returned [2; 0; 0; 0; 0; 0; 0; 0; 3; 232; 0; 0; 0; 5; 0; 0; 0; 7;
              4; 56; 7; 128; 255; 255; 0; 0; 0; 1; 0; 0; 0; 1].
Proof. reflexivity. Qed.

End ControlFacts.
(** * Touch packets, [tap] and [swipe] *)

Module ControlOpsFacts.
Import Control ControlOps.

Lemma length_be_bytes n v : length (be_bytes n v) = n.
Proof. induction n as [|n IH]; [done|]. cbn. by rewrite IH. Qed.

Lemma be_bytes_byte n v : Forall (fun b => 0 <= b < 256) (be_bytes n v).
Proof.
  induction n as [|n IH]; [constructor|]. cbn [be_bytes]. constructor; [|done].
  change 255 with (Z.ones 8). rewrite Z.land_ones by lia.
  apply Z.mod_pos_bound. lia.
Qed.

Lemma be_value_acc bs acc :
  fold_left (fun acc b => acc * 256 + b) bs acc
  = acc * 256 ^ Z.of_nat (length bs) + be_value bs.
Proof.
  unfold be_value. revert acc. induction bs as [|b bs IH]; intros acc.
  - cbn. lia.
  - cbn [fold_left length]. rewrite IH, (IH (0 * 256 + b)).
    rewrite Nat2Z.inj_succ, Z.pow_succ_r by lia. lia.
Qed.

Lemma be_value_cons b bs :
  be_value (b :: bs) = b * 256 ^ Z.of_nat (length bs) + be_value bs.
Proof. unfold be_value at 1. cbn [fold_left]. rewrite be_value_acc. lia. Qed.

(** Reading back the bytes of [v] gives [v] modulo the width. *)
Lemma be_value_be_bytes n v : be_value (be_bytes n v) = v mod 256 ^ Z.of_nat n.
Proof.
  induction n as [|n IH].
  - cbn. by rewrite Z.mod_1_r.
  - cbn [be_bytes]. rewrite be_value_cons, length_be_bytes, IH.
    change 255 with (Z.ones 8). rewrite Z.land_ones, Z.shiftr_div_pow2 by lia.
    rewrite Nat2Z.inj_succ, Z.pow_succ_r by lia.
    replace (2 ^ (8 * Z.of_nat n)) with (256 ^ Z.of_nat n)
      by (change 256 with (2 ^ 8); rewrite <- Z.pow_mul_r by lia; done).
    set (b := 256 ^ Z.of_nat n). assert (0 < b) by (apply Z.pow_pos_nonneg; lia).
    rewrite (Z.mul_comm 256 b), Z.rem_mul_r by lia. change (2 ^ 8) with 256. lia.
Qed.

Lemma be_value_small n v :
  0 <= v < 256 ^ Z.of_nat n -> be_value (be_bytes n v) = v.
Proof. intros Hv. rewrite be_value_be_bytes. by apply Z.mod_small. Qed.

Lemma clamp_fits v bound : 0 <= bound < 2 ^ 16 -> - 2 ^ 31 <= clamp v bound <= 2 ^ 31 - 1.
Proof. unfold clamp. lia. Qed.

Lemma pack_touch_Returned action pointer_id x y w h :
  0 <= pointer_id < 2 ^ 64 -> - 2 ^ 31 <= x <= 2 ^ 31 - 1 -> - 2 ^ 31 <= y <= 2 ^ 31 - 1 ->
  0 <= w < 2 ^ 16 -> 0 <= h < 2 ^ 16 ->
  pack_touch action pointer_id x y w h
  = Returned (be_bytes 1 2 ++ be_bytes 1 (value action) ++ be_bytes 8 pointer_id
              ++ be_bytes 4 x ++ be_bytes 4 y ++ be_bytes 2 w ++ be_bytes 2 h
              ++ be_bytes 2 65535 ++ be_bytes 4 1 ++ be_bytes 4 1).
Proof.
  intros Hp Hx Hy Hw Hh. unfold pack_touch, pack_b, pack_Q, pack_i, pack_H, pack_I, pack_field.
  assert (Hv : -128 <= value action <= 127) by (destruct action; cbn; lia).
  rewrite !decide_True by lia. done.
Qed.

Lemma pack_touch_fits action pointer_id x y w h data :
  pack_touch action pointer_id x y w h = Returned data -> fits pointer_id w h.
Proof.
  unfold pack_touch, pack_b, pack_Q, pack_i, pack_H, pack_I, pack_field, fits.
  rewrite (decide_True (P := -128 <= 2 <= 127)) by lia.
  assert (Hv : -128 <= value action <= 127) by (destruct action; cbn; lia).
  rewrite (decide_True (P := -128 <= value action <= 127)) by done.
  cbn [pack_all].
  destruct (decide (0 <= pointer_id <= 2 ^ 64 - 1)); [|done].
  destruct (decide (- 2 ^ 31 <= x <= 2 ^ 31 - 1)); [|done].
  destruct (decide (- 2 ^ 31 <= y <= 2 ^ 31 - 1)); [|done].
  destruct (decide (0 <= w <= 2 ^ 16 - 1)); [|done].
  destruct (decide (0 <= h <= 2 ^ 16 - 1)); [|done].
  intros _. lia.
Qed.

(** X1.  [touch] gets a packet to hand to the socket exactly
    when the pointer id fits an unsigned 64-bit field and the device width
    and height fit unsigned 16-bit fields; the clamped coordinates always
    fit.  The packet has 32 bytes, and its fields, read back big-endian at
    their offsets, are the type 2, the action value, the pointer id, the
    clamped coordinates, the device size, the pressure 0xFFFF and the
    buttons 1 and 1.  Otherwise [struct.pack] raises [struct.error]. *)
Theorem touch_packet x y action pointer_id c :
  let w := device_width c in
  let h := device_height c in
  match pack_touch action pointer_id (clamp x w) (clamp y h) w h with
  | Returned data =>
      fits pointer_id w h
      /\ length data = 32%nat
      /\ Forall (fun b => 0 <= b < 256) data
      /\ unpack_touch data = touch_fields action pointer_id (clamp x w) (clamp y h) w h
      /\ forall send, send data = Returned tt ->
            touch send x y action pointer_id c
            = Returned (mkController w h (collector_running c) (wire c ++ [data]) (log c))
  | Propagated e => e = struct_error /\ ~ fits pointer_id w h
  end.
Proof.
  intros w h.
  destruct (pack_touch action pointer_id (clamp x w) (clamp y h) w h) as [data|e] eqn:Hpack.
  - pose proof (pack_touch_fits _ _ _ _ _ _ _ Hpack) as Hfits.
    destruct Hfits as (Hp & Hw & Hh). split; [done|].
    rewrite pack_touch_Returned in Hpack
      by (try done; apply clamp_fits; done).
    assert (data = be_bytes 1 2 ++ be_bytes 1 (value action) ++ be_bytes 8 pointer_id
              ++ be_bytes 4 (clamp x w) ++ be_bytes 4 (clamp y h) ++ be_bytes 2 w ++ be_bytes 2 h
              ++ be_bytes 2 65535 ++ be_bytes 4 1 ++ be_bytes 4 1) as -> by congruence.
    clear Hpack. split_and!.
    + by rewrite !length_app, !length_be_bytes.
    + rewrite !Forall_app. split_and!; apply be_bytes_byte.
    + assert (Hx : 0 <= clamp x w < 2 ^ 16) by (unfold clamp; lia).
      assert (Hy : 0 <= clamp y h < 2 ^ 16) by (unfold clamp; lia).
      assert (Hv : 0 <= value action < 256) by (destruct action; cbn; lia).
      unfold unpack_touch, touch_fields.
      repeat match goal with
      | |- context [be_value (take ?n (drop ?k ?l))] =>
          let t := eval cbn in (take n (drop k l)) in
          change (take n (drop k l)) with t
      | |- context [be_value (take ?n ?l)] =>
          let t := eval cbn in (take n l) in
          change (take n l) with t
      end.
      repeat match goal with |- _ :: _ = _ :: _ => f_equal end.
      * apply (be_value_small 1). exact Hv.
      * apply (be_value_small 8). exact Hp.
      * apply (be_value_small 4). change (256 ^ Z.of_nat 4) with (2 ^ 32). lia.
      * apply (be_value_small 4). change (256 ^ Z.of_nat 4) with (2 ^ 32). lia.
      * apply (be_value_small 2). exact Hw.
      * apply (be_value_small 2). exact Hh.
    + intros send Hsend. unfold touch, touch_try. fold w h.
      rewrite pack_touch_Returned by (try done; apply clamp_fits; done).
      by rewrite Hsend.
  - split; [by eapply ControlFacts.pack_touch_raises|].
    intros (Hp & Hw & Hh).
    rewrite pack_touch_Returned in Hpack by (try done; apply clamp_fits; done).
    done.
Qed.

Lemma touch_Returned send x y action pointer_id c :
  exists c', touch send x y action pointer_id c = Returned c'.
Proof.
  unfold touch. destruct (touch_try _ _ _ _ _ _) as [c'|e]; [by eexists|].
  destruct (is_connection_error e); by eexists.
Qed.

Lemma touch_call_spec sock x y action pointer_id s :
  exists c',
    touch (sock (sends s)) x y action pointer_id (ctrl s) = Returned c'
    /\ touch_call sock x y action pointer_id s
       = (mkSession c' (if packs x y action pointer_id (ctrl s) then S (sends s) else sends s)
            (calls s ++ [Touch x y action pointer_id]), Done tt).
Proof.
  destruct (touch_Returned (sock (sends s)) x y action pointer_id (ctrl s)) as [c' Hc].
  exists c'. split; [done|]. unfold touch_call. by rewrite Hc.
Qed.

Lemma bind_Done {A B} (m : M A) (f : A -> M B) s s' a :
  m s = (s', Done a) -> (m ≫= f) s = f a s'.
Proof. intros H. unfold mbind, M_bind. by rewrite H. Qed.

Lemma bind_Raised {A B} (m : M A) (f : A -> M B) s s' e :
  m s = (s', Raised e) -> (m ≫= f) s = (s', Raised e).
Proof. intros H. unfold mbind, M_bind. by rewrite H. Qed.

Lemma sleep_neg d s : (d < 0)%Q -> sleep d s = (s, Raised ValueError).
Proof. intros Hd. unfold sleep. destruct (Qlt_le_dec d 0) as [|Hle]; [done|].
  exfalso. by apply (Qlt_not_le _ _ Hd). Qed.

Lemma sleep_nonneg d s :
  (0 <= d)%Q -> sleep d s = (mkSession (ctrl s) (sends s) (calls s ++ [Sleep d]), Done tt).
Proof. intros Hd. unfold sleep. destruct (Qlt_le_dec d 0) as [Hlt|]; [|done].
  exfalso. by apply (Qlt_not_le _ _ Hlt). Qed.

(** X2.  [tap] touches DOWN, sleeps [delay], touches UP, at the same
    point and pointer id, and returns; with a negative [delay] the DOWN is
    still made, then [time.sleep] raises [ValueError] and no UP follows. *)
Theorem tap_behaviour sock x y pointer_id delay s :
  exists s1,
    touch_call sock x y TouchAction.DOWN pointer_id s = (s1, Done tt)
    /\ calls s1 = calls s ++ [Touch x y TouchAction.DOWN pointer_id]
    /\ ((delay < 0)%Q -> tap sock x y pointer_id delay s = (s1, Raised ValueError))
    /\ ((0 <= delay)%Q ->
          exists s2,
            tap sock x y pointer_id delay s = (s2, Done tt)
            /\ touch_call sock x y TouchAction.UP pointer_id
                 (mkSession (ctrl s1) (sends s1) (calls s1 ++ [Sleep delay])) = (s2, Done tt)
            /\ calls s2 = calls s ++ [Touch x y TouchAction.DOWN pointer_id; Sleep delay;
                                       Touch x y TouchAction.UP pointer_id]).
Proof.
  destruct (touch_call_spec sock x y TouchAction.DOWN pointer_id s) as (c1 & _ & H1).
  eexists. split; [exact H1|]. split; [done|]. split.
  - intros Hd. unfold tap. rewrite (bind_Done _ _ _ _ _ H1).
    by rewrite (bind_Raised _ _ _ _ _ (sleep_neg _ _ Hd)).
  - intros Hd. unfold tap. rewrite (bind_Done _ _ _ _ _ H1).
    rewrite (bind_Done _ _ _ _ _ (sleep_nonneg _ _ Hd)).
    match goal with |- context [touch_call _ _ _ _ _ ?s0] =>
      destruct (touch_call_spec sock x y TouchAction.UP pointer_id s0) as (c2 & _ & H2) end.
    eexists. split; [exact H2|]. split; [exact H2|].
    cbn [calls ctrl sends]. by rewrite <- !app_assoc.
Qed.

Lemma swipe_loop_Done sock sx sy ex ey steps step_delay range s :
  (0 <= step_delay)%Q ->
  exists s',
    swipe_loop sock sx sy ex ey steps step_delay range s = (s', Done tt)
    /\ calls s' = calls s ++ (range ≫= swipe_turn sx sy ex ey steps step_delay).
Proof.
  intros Hd. revert s. induction range as [|i rest IH]; intros s.
  - exists s. split; [done|]. by rewrite app_nil_r.
  - cbn [swipe_loop]. cbv zeta.
    match goal with |- context [touch_call sock ?x ?y ?a ?p] =>
      destruct (touch_call_spec sock x y a p s) as (c1 & _ & H1) end.
    rewrite (bind_Done _ _ _ _ _ H1).
    rewrite (bind_Done _ _ _ _ _ (sleep_nonneg _ _ Hd)).
    match goal with |- context [swipe_loop _ _ _ _ _ _ _ _ ?s0] =>
      destruct (IH s0) as (s' & Hs' & Hcalls) end.
    exists s'. split; [exact Hs'|]. rewrite Hcalls. cbn [calls ctrl sends].
    rewrite bind_cons. unfold swipe_turn at 2. by rewrite <- !app_assoc.
Qed.

Lemma swipe_loop_Raised sock sx sy ex ey steps step_delay i rest s :
  (step_delay < 0)%Q ->
  exists s',
    swipe_loop sock sx sy ex ey steps step_delay (i :: rest) s = (s', Raised ValueError)
    /\ calls s' = calls s ++ [Touch (lerp sx ex (inject_Z i / inject_Z steps))
                                    (lerp sy ey (inject_Z i / inject_Z steps))
                                    TouchAction.MOVE 1000].
Proof.
  intros Hd. cbn [swipe_loop]. cbv zeta.
  match goal with |- context [touch_call sock ?x ?y ?a ?p] =>
    destruct (touch_call_spec sock x y a p s) as (c1 & _ & H1) end.
  rewrite (bind_Done _ _ _ _ _ H1).
  rewrite (bind_Raised _ _ _ _ _ (sleep_neg _ _ Hd)).
  eexists. split; [reflexivity|done].
Qed.

(** X3.  [swipe] touches DOWN at the start with pointer id 1000
    before anything else.  With [steps = 0] the division [duration / steps]
    then raises [ZeroDivisionError], and with [steps >= 2] and a negative
    [duration / steps] the first MOVE is made and [time.sleep] raises
    [ValueError]: in both cases no UP follows.  Otherwise (a step delay
    that is not negative, or [steps <= 1], where the loop is empty) [swipe]
    returns after the DOWN, one MOVE and one sleep of [duration / steps]
    for each [i] of [1 .. steps - 1], and the UP at the end point. *)
Theorem swipe_behaviour sock sx sy ex ey duration steps s :
  let step_delay := (duration / inject_Z steps)%Q in
  let down := Touch sx sy TouchAction.DOWN 1000 in
  let up := Touch ex ey TouchAction.UP 1000 in
  (steps = 0 ->
     exists s', swipe sock sx sy ex ey duration steps s = (s', Raised ZeroDivisionError)
       /\ calls s' = calls s ++ [down])
  /\ (2 <= steps -> (step_delay < 0)%Q ->
     exists s', swipe sock sx sy ex ey duration steps s = (s', Raised ValueError)
       /\ calls s' = calls s ++ [down; Touch (lerp sx ex (1 / inject_Z steps))
                                              (lerp sy ey (1 / inject_Z steps))
                                              TouchAction.MOVE 1000])
  /\ (steps <> 0 -> (0 <= step_delay)%Q \/ steps <= 1 ->
     exists s', swipe sock sx sy ex ey duration steps s = (s', Done tt)
       /\ calls s' = calls s ++ [down]
                      ++ (seqZ 1 (steps - 1) ≫= swipe_turn sx sy ex ey steps step_delay)
                      ++ [up]).
Proof.
  intros step_delay down up.
  destruct (touch_call_spec sock sx sy TouchAction.DOWN 1000 s) as (c1 & _ & H1).
  split_and!.
  - intros ->. unfold swipe. rewrite (bind_Done _ _ _ _ _ H1).
    rewrite decide_True by done. eexists. split; [reflexivity|done].
  - intros Hsteps Hd. unfold swipe. rewrite (bind_Done _ _ _ _ _ H1).
    rewrite decide_False by lia.
    rewrite (bind_Done _ _ _ _ (duration / inject_Z steps)%Q eq_refl).
    rewrite (seqZ_cons 1 (steps - 1)) by lia.
    destruct (swipe_loop_Raised sock sx sy ex ey steps step_delay 1
                (seqZ (Z.succ 1) (Z.pred (steps - 1)))
                (mkSession c1 (if packs sx sy TouchAction.DOWN 1000 (ctrl s)
                               then S (sends s) else sends s) (calls s ++ [down])) Hd)
      as (s' & Hs' & Hcalls).
    exists s'. split.
    + by rewrite (bind_Raised _ _ _ _ _ Hs').
    + rewrite Hcalls. cbn [calls]. by rewrite <- app_assoc.
  - intros Hsteps Hd. unfold swipe. rewrite (bind_Done _ _ _ _ _ H1).
    rewrite decide_False by done.
    rewrite (bind_Done _ _ _ _ (duration / inject_Z steps)%Q eq_refl).
    fold step_delay.
    assert (Hloop : exists s',
      swipe_loop sock sx sy ex ey steps step_delay (seqZ 1 (steps - 1))
        (mkSession c1 (if packs sx sy TouchAction.DOWN 1000 (ctrl s) then S (sends s) else sends s)
           (calls s ++ [down])) = (s', Done tt)
      /\ calls s' = (calls s ++ [down])
                    ++ (seqZ 1 (steps - 1) ≫= swipe_turn sx sy ex ey steps step_delay)).
    { destruct Hd as [Hd|Hd].
      - by apply swipe_loop_Done.
      - rewrite seqZ_nil by lia. eexists. split; [reflexivity|]. by rewrite app_nil_r. }
    destruct Hloop as (s' & Hs' & Hcalls).
    rewrite (bind_Done _ _ _ _ _ Hs').
    destruct (touch_call_spec sock ex ey TouchAction.UP 1000 s') as (c2 & _ & H2).
    eexists. split; [exact H2|]. cbn [calls]. rewrite Hcalls. by rewrite <- !app_assoc.
Qed.
End ControlOpsFacts.

(** * What [acquire] does to a manager in a reachable state *)

Section AcquireEffect.
Variable E : Env.
Implicit Types (m : PointerManager).

(** The object [acquire] binds the event id to, and what the call leaves
    alone. *)
Lemma acquire_effect event new m :
  pm_inv m ->
  exists m' p fresh a,
    acquire E event new m = Ok (m', (p, fresh))
    /\ dict_get (fe_id event) (pointers m') = Some a
    /\ pid (deref (heap m') a) = p
    /\ pos (deref (heap m') a) = fe_point event
    /\ timestamp (deref (heap m') a) = now m
    /\ occupied (deref (heap m') a)
       = (if decide (a ∈ dict_values (pointers m)) then occupied (deref (heap m) a) else 0)
    /\ (forall b, b ∈ dict_values (pointers m') <-> b = a \/ b ∈ dict_values (pointers m))
    /\ (forall b, b ∈ dict_values (unused m') <-> b ∈ dict_values (unused m) /\ b <> a)
    /\ (forall b, b ∈ live m -> b <> a -> deref (heap m') b = deref (heap m) b)
    /\ (if fresh then a ∉ live m /\ forall b, b ∈ live m -> pid_of m b <> p
        else a ∈ live m /\ pid_of m a = p)
    /\ (dict_get (fe_id event) (pointers m) = None -> new = true -> fresh = true)
    /\ begin m' = begin m /\ delta m' = delta m /\ now m' = now m
    /\ unused_now m' = unused_now m /\ mark_as_released m' = mark_as_released m.
Proof.
  intros Hinv. pose proof Hinv as [H1 H2 H3 H4 H5 H6 H7].
  destruct (dict_get (fe_id event) (pointers m)) as [a|] eqn:Hget.
  - (* the id is bound: the pointer is touched *)
    assert (Hin : (fe_id event, a) ∈ pointers m) by (by apply dict_get_Some_elem).
    assert (Hlive : a ∈ live m) by (by eapply live_pointer).
    assert (Hva : (a < length (heap m))%nat) by (by eapply ok_valid).
    exists (set_heap (touch_pointer a (now m) (fe_point event) None (heap m)) m),
      (pid (deref (heap m) a)), false, a.
    unfold acquire. rewrite Hget. cbn. unfold touch_pointer.
    rewrite deref_insert_eq by done. cbn.
    rewrite decide_True by (by eapply elem_dict_values).
    split_and!; try done.
    + intros b. split; [by right|]. intros [->|?]; [by eapply elem_dict_values|done].
    + intros b. split; [|tauto]. intros Hb. split; [done|]. intros ->.
      apply elem_dict_values_inv in Hb as [k Hk]. by eapply pm_inv_apart.
    + intros b _ Hne. by rewrite deref_insert_ne.
  - destruct (if new then None else snd (scan E m (fe_point event))) as [np|] eqn:Hscan.
    + (* an idle pointer is taken over *)
      destruct new; [done|].
      destruct (scan_spec E m (fe_point event) (unused m))
        as [[Hs _]|(k & a & Hin & Hs & _)].
      { unfold scan in Hscan. by rewrite Hs in Hscan. }
      unfold scan in Hscan. rewrite Hs in Hscan. cbn in Hscan.
      assert (Hk : pid_of m a = k) by (by apply H5).
      assert (np = k) as -> by congruence.
      assert (Hga : dict_get k (unused m) = Some a) by (by apply dict_get_elem).
      assert (Hlive : a ∈ live m) by (by eapply live_unused).
      assert (Hva : (a < length (heap m))%nat) by (by eapply ok_valid).
      assert (Hnp : a ∉ dict_values (pointers m)).
      { intros [e He]%elem_dict_values_inv. by eapply pm_inv_apart. }
      apply dict_get_None in Hget.
      eexists _, k, false, a.
      unfold acquire. rewrite (proj2 (dict_get_None _ _) Hget).
      unfold scan. rewrite Hs. cbn [snd]. rewrite Hk, Hga.
      rewrite dict_del_in; [|done|by eapply elem_dict_keys].
      fold (pid_of m a). rewrite Hk. split; [reflexivity|].
      cbn. unfold touch_pointer. rewrite deref_insert_eq by done. cbn.
      rewrite dict_get_set, decide_True by done. rewrite decide_False by done.
      rewrite dict_set_notin by done.
      split_and!; try done.
      * intros b. unfold dict_values. rewrite fmap_app, elem_of_app. cbn.
        rewrite list_elem_of_singleton. tauto.
      * intros b. split.
        -- intros [k' Hk']%elem_dict_values_inv.
           apply list_elem_of_filter in Hk' as [Hne Hk']. cbn in Hne.
           split; [by eapply elem_dict_values|]. intros ->.
           apply Hne. symmetry. rewrite <- Hk. by apply H5.
        -- intros [[k' Hk']%elem_dict_values_inv Hne].
           apply (elem_dict_values k'). apply list_elem_of_filter. split; [|done].
           cbn. intros ->. apply Hne.
           apply (dict_get_elem _ _ _ H3) in Hk'. congruence.
      * intros b _ Hne. by rewrite deref_insert_ne.
    + (* a new pointer *)
      destruct (fresh_pointer_facts E event m Hinv Hget)
        as (F1 & F2 & F3 & F4 & F5 & F6 & F7 & F8 & F9).
      destruct (_new_fields E m) as (G1 & G2 & G3 & G4 & G5 & G6 & G7 & G8).
      assert (Hnl : length (heap m) ∉ live m).
      { intros Hl. pose proof (ok_valid _ _ H1 _ Hl). lia. }
      exists (fst (fresh_pointer E event m)), (fst (_new E m)), true, (length (heap m)).
      unfold acquire. rewrite Hget, Hscan.
      split; [by rewrite <- F1, <- surjective_pairing|].
      split_and!; try done.
      * rewrite F7. apply dict_get_None in Hget.
        rewrite <- dict_set_notin by done. by rewrite dict_get_set, decide_True.
      * unfold fresh_pointer. destruct (_new E m) as [p m1]. cbn in *.
        rewrite G8. by rewrite deref_app_new.
      * rewrite decide_False; [|intros [e He]%elem_dict_values_inv; apply Hnl;
          by eapply live_pointer].
        unfold fresh_pointer. destruct (_new E m) as [p m1]. cbn in *.
        rewrite G8. by rewrite deref_app_new.
      * intros b. rewrite F7. unfold dict_values. rewrite fmap_app, elem_of_app. cbn.
        rewrite list_elem_of_singleton. tauto.
      * intros b. unfold fresh_pointer. destruct (_new E m) as [p m1]. cbn in *.
        rewrite G5. split; [|tauto]. intros Hb. split; [done|]. intros ->.
        apply Hnl. apply elem_dict_values_inv in Hb as [k Hk]. by eapply live_unused.
      * intros b Hb _. by apply F5.
      * unfold fresh_pointer. destruct (_new E m) as [p m1]. cbn in *. done.
      * unfold fresh_pointer. destruct (_new E m) as [p m1]. cbn in *. done.
      * unfold fresh_pointer. destruct (_new E m) as [p m1]. cbn in *. done.
Qed.
End AcquireEffect.

(** * The manager as its callers see it *)

Section ManagerApi.
Variable E : Env.
Implicit Types (m : PointerManager).

(** X5.  On a reachable manager [acquire] returns: it does not
    raise.  Afterwards the event id is bound to a pointer that carries the
    returned pid, the point of the event and the timestamp [now].  A pid
    reported as new belonged to no pointer in use before the call; a pid
    reported as not new did. *)
Theorem acquire_binds event new m :
  reachable E m ->
  exists m' p fresh a,
    acquire E event new m = Ok (m', (p, fresh))
    /\ reachable E m'
    /\ dict_get (fe_id event) (pointers m') = Some a
    /\ pid (deref (heap m') a) = p
    /\ pos (deref (heap m') a) = fe_point event
    /\ timestamp (deref (heap m') a) = now m
    /\ (fresh = true -> forall b, b ∈ live m -> pid_of m b <> p)
    /\ (fresh = false -> exists b, b ∈ live m /\ pid_of m b = p).
Proof.
  intros Hr. pose proof (reachable_inv E m Hr) as Hinv.
  destruct (acquire_effect E event new m Hinv)
    as (m' & p & fresh & a & Hacq & Hget & Hpid & Hpos & Hts & _ & _ & _ & _ & Hf & _).
  exists m', p, fresh, a. split_and!; try done.
  - by eapply reach_acquire.
  - intros ->. by destruct Hf.
  - intros ->. by exists a.
Qed.


Lemma del_all_app ks1 ks2 (d : list (Z * addr)) :
  del_all (ks1 ++ ks2) d = del_all ks1 d ≫= del_all ks2.
Proof.
  revert d. induction ks1 as [|k ks1 IH]; intros d; [done|].
  cbn [app del_all]. destruct (dict_del k d); [apply IH|done].
Qed.

(** X7.  [release] is not idempotent: a second [release]
    of the same bound event id before [recycle] marks the id twice, and
    [recycle] then raises [KeyError] for it on the second [del], before
    yielding anything. *)
Theorem release_twice event is_keyframe m :
  reachable E m ->
  NoDup (mark_as_released m) ->
  fe_id event ∈ dict_keys (pointers m) ->
  fe_id event ∉ mark_as_released m ->
  mark_as_released (release event (release event m))
  = mark_as_released m ++ [fe_id event; fe_id event]
  /\ recycle is_keyframe (release event (release event m))
     = ([], Raise (KeyError (fe_id event))).
Proof.
  intros Hinv%reachable_inv Hnd Hin Hnm. pose proof Hinv as [H1 H2 H3 H4 H5 H6 H7].
  apply dict_get_is_Some in Hin as [a Hget].
  assert (Hrel : forall m0, pointers m0 = pointers m ->
            pointers (release event m0) = pointers m
            /\ mark_as_released (release event m0) = mark_as_released m0 ++ [fe_id event]).
  { intros m0 Hp. unfold release. rewrite Hp, Hget. cbn. done. }
  destruct (Hrel m eq_refl) as [Hp1 Hm1].
  destruct (Hrel (release event m) Hp1) as [Hp2 Hm2].
  assert (Hmarks : mark_as_released (release event (release event m))
                   = mark_as_released m ++ [fe_id event; fe_id event]).
  { rewrite Hm2, Hm1, <- app_assoc. done. }
  split; [exact Hmarks|].
  unfold recycle. rewrite Hmarks, Hp2, del_all_app.
  rewrite del_all_succeeds; [|done|done|].
  2:{ intros k Hk. destruct (H7 k Hk) as (b & Hb & _). by eapply elem_dict_keys. }
  cbn [mbind Res_bind del_all].
  set (d := filter (fun kv : Z * addr => fst kv ∉ mark_as_released m) (pointers m)).
  assert (Hd : NoDup (dict_keys d)) by (by apply dict_keys_filter).
  assert (Hind : fe_id event ∈ dict_keys d).
  { apply (elem_dict_keys _ a). apply list_elem_of_filter. split; [done|].
    by apply dict_get_Some_elem. }
  rewrite dict_del_in by done.
  rewrite dict_del_notin; [done|].
  intros [b Hb]%elem_dict_keys_inv. apply list_elem_of_filter in Hb as [Hne _]. by apply Hne.
Qed.

(** X8.  After a [recycle] that returned, [finish] yields one UP
    for each pointer of [unused] and then of [pointers], stamped one ms
    after its last touch at its last position: at most 15 items, with
    pairwise distinct pids. *)
Theorem finish_once is_keyframe m ups m' :
  reachable E m ->
  recycle is_keyframe m = (ups, Ok m') ->
  finish m'
  = (fun a => (pid_of m' a, timestamp (deref (heap m') a) + 1, pos (deref (heap m') a)))
      <$> (dict_values (unused m') ++ dict_values (pointers m'))
  /\ NoDup ((fun u : UpItem => fst (fst u)) <$> finish m')
  /\ (length (finish m') <= 15)%nat.
Proof.
  intros Hinv%reachable_inv Hrec.
  destruct (pm_inv_recycle _ _ _ _ Hinv Hrec) as (Hinv' & Hnow & _).
  destruct (recycle_spec _ _ _ _ Hinv Hrec) as (_ & _ & _ & _ & _ & Hbudget).
  cbv zeta in Hbudget.
  assert (Hfin : finish m'
    = (fun a => (pid_of m' a, timestamp (deref (heap m') a) + 1, pos (deref (heap m') a)))
        <$> (dict_values (unused m') ++ dict_values (pointers m'))).
  { unfold finish. by rewrite Hnow. }
  split; [exact Hfin|]. rewrite Hfin. split.
  - rewrite <- list_fmap_compose.
    change (NoDup (pid_of m' <$> (dict_values (unused m') ++ dict_values (pointers m')))).
    apply (alloc_ok_pids m'). eapply alloc_ok_perm; [|by apply inv_alloc].
    unfold live. apply Permutation_app_comm.
  - rewrite length_fmap, length_app. unfold dict_values. rewrite !length_fmap.
    unfold max_on_screen in Hbudget. lia.
Qed.

(** X9.  Right after a [recycle] that returned, a
    [recycle(False)] yields nothing and leaves the manager as it is. *)
Theorem recycle_again is_keyframe m ups m' :
  reachable E m ->
  recycle is_keyframe m = (ups, Ok m') ->
  recycle false m' = ([], Ok m').
Proof.
  intros Hinv%reachable_inv Hrec.
  destruct (pm_inv_recycle _ _ _ _ Hinv Hrec) as (_ & Hnow & Hmarks).
  destruct (recycle_spec _ _ _ _ Hinv Hrec) as (_ & _ & _ & _ & _ & Hbudget).
  cbv zeta in Hbudget. clear Hrec.
  unfold recycle. rewrite Hmarks. cbn [del_all].
  destruct m'. cbn in *. subst. unfold settle. cbn.
  rewrite decide_False by lia. done.
Qed.
End ManagerApi.

Section Keyframes.
Variable E : Env.
Implicit Types (m : PointerManager) (r : gmap Z (list VirtualTouchEvent)).

Lemma handle_all_keyframe ms events m r kf m' r' kf' :
  fold_res (handle E ms) events (m, r, kf) = Ok (m', r', kf') ->
  kf' = kf || existsb (fun ev => is_key (action ev)) events.
Proof.
  revert m r kf. induction events as [|ev events IH]; intros m r kf.
  - cbn. intros [= _ _ <-]. by rewrite orb_false_r.
  - cbn [fold_res existsb].
    destruct (handle E ms (m, r, kf) ev) as [[[m1 r1] kf1]|] eqn:Hh; cbn; [|done].
    intros ->%IH. rewrite handle_eq in Hh.
    destruct (acquire E ev _ m) as [[m0 [p fresh]]|]; cbn in Hh; [|done].
    injection Hh as _ _ <-. destruct (action ev); cbn; by rewrite ?orb_true_r, ?orb_false_r,
      ?orb_true_l, ?orb_assoc.
Qed.

Lemma recycle_false_eq m :
  recycle false m
  = ([], ptrs ← del_all (mark_as_released m) (pointers m);
         settle [] (set_mark_as_released [] (set_pointers ptrs m))).
Proof.
  unfold recycle. destruct (del_all _ _) as [ptrs|e]; done.
Qed.

(** X10.  A frame is a keyframe exactly when it holds a TAP or
    a HOLD_START.  The [recycle] of any other frame yields no UP, so the
    output gets none, and it changes no [Pointer] object and frees no
    pid. *)
Theorem quiet_frame m r item m' r' :
  plan_frame E (m, r) item = Ok (m', r') ->
  exists m1 r1,
    fold_res (handle E (fst item)) (snd item) (set_now (fst item) m, r, false)
    = Ok (m1, r1, existsb (fun ev => is_key (action ev)) (snd item))
    /\ (existsb (fun ev => is_key (action ev)) (snd item) = false ->
        r' = r1 /\ heap m' = heap m1 /\ recycled m' = recycled m1
        /\ max_pointer_id m' = max_pointer_id m1).
Proof.
  unfold plan_frame. cbn [fst snd].
  destruct (fold_res _ (snd item) _) as [[[m1 r1] kf]|] eqn:Hfold; cbn; [|done].
  pose proof (handle_all_keyframe _ _ _ _ _ _ _ _ Hfold) as Hkf. cbn in Hkf. subst kf.
  intros Hrec. exists m1, r1. split; [done|]. intros Hq. rewrite Hq in Hrec.
  rewrite recycle_false_eq in Hrec.
  destruct (del_all _ _) as [ptrs|e]; cbn in Hrec; [|done].
  unfold settle in Hrec. cbn in Hrec. case_decide; [done|].
  injection Hrec as <- <-. done.
Qed.
End Keyframes.

Section Occupied.
Variable E : Env.
Implicit Types (m : PointerManager).

Lemma occupied_acquire event new m m' r :
  pm_inv m -> occupied_ok m -> acquire E event new m = Ok (m', r) -> occupied_ok m'.
Proof.
  intros Hinv [O1 O2] Hacq.
  destruct (acquire_effect E event new m Hinv)
    as (m0 & p & fresh & a & Hacq' & _ & _ & _ & _ & Hocc & Hp & Hu & Hsame & _).
  rewrite Hacq in Hacq'. injection Hacq' as <- _.
  split.
  - intros b [->|Hb]%Hp.
    + rewrite Hocc. case_decide; [by apply O1|done].
    + destruct (decide (b = a)) as [->|Hne].
      * rewrite Hocc. rewrite decide_True by done. by apply O1.
      * rewrite Hsame; [by apply O1| |done].
        apply elem_dict_values_inv in Hb as [e He]. by eapply live_pointer.
  - intros b [Hb Hne]%Hu. rewrite Hsame; [by apply O2| |done].
    apply elem_dict_values_inv in Hb as [k Hk]. by eapply live_unused.
Qed.

Lemma occupied_age_heap l h a :
  NoDup l -> (forall b, b ∈ l -> (b < length h)%nat) ->
  occupied (deref (age_heap l h) a)
  = if decide (a ∈ l) then occupied (deref h a) + 1 else occupied (deref h a).
Proof. intros Hnd Hv. rewrite age_heap_deref by done. by case_decide. Qed.

Lemma occupied_recycle is_keyframe m ups m' :
  pm_inv m -> occupied_ok m -> recycle is_keyframe m = (ups, Ok m') -> occupied_ok m'.
Proof.
  intros Hinv [O1 O2] Hrec. pose proof Hinv as [H1 H2 H3 H4 H5 H6 H7].
  destruct (recycle_spec _ _ _ _ Hinv Hrec) as (mf & _ & _ & _ & -> & _).
  assert (Hnd : NoDup (dict_values (unused m))).
  { pose proof (ok_nodup _ _ H1) as Hl. unfold live in Hl.
    by apply NoDup_app in Hl as (_ & _ & ?). }
  assert (Hval : forall b, b ∈ dict_values (unused m) -> (b < length (heap m))%nat).
  { intros b [k Hk]%elem_dict_values_inv. eapply ok_valid; [exact H1|].
    by eapply live_unused. }
  assert (Hocc : forall b,
    occupied (deref (heap (recycled_state is_keyframe m mf)) b)
    = if decide (is_keyframe = true /\ b ∈ dict_values (unused m))
      then occupied (deref (heap m) b) + 1 else occupied (deref (heap m) b)).
  { intros b. unfold recycled_state. cbn. destruct is_keyframe.
    - rewrite occupied_age_heap by done.
      destruct (decide (b ∈ dict_values (unused m))).
      + by rewrite decide_True.
      + rewrite decide_False; [done|tauto].
    - rewrite decide_False; [done|]. intros [? _]. done. }
  split.
  - intros b Hb. rewrite Hocc. clear Hocc. unfold recycled_state in Hb. cbn in Hb.
    apply elem_dict_values_inv in Hb as [e He].
    apply list_elem_of_filter in He as [_ He].
    rewrite decide_False; [apply O1; by eapply elem_dict_values|].
    intros [_ [k Hk]%elem_dict_values_inv]. by eapply pm_inv_apart.
  - intros b Hb. rewrite Hocc. clear Hocc. unfold recycled_state in Hb. cbn in Hb.
    unfold dict_values in Hb. rewrite fmap_app, elem_of_app in Hb.
    destruct Hb as [Hb|Hb].
    + apply (elem_dict_values_inv (filter _ _)) in Hb as [k Hk].
      apply list_elem_of_filter in Hk as [Hne Hk]. cbn in Hne.
      assert (Hbu : b ∈ dict_values (unused m)) by (by eapply elem_dict_values).
      destruct (O2 b Hbu) as [H0|H1'].
      * case_decide; lia.
      * case_decide as Hc; [|lia]. destruct Hc as [-> _]. exfalso. apply Hne.
        unfold expiring. apply list_elem_of_filter. split; [|done].
        unfold expired. lia.
    + apply (elem_dict_values_inv (unused_now m)) in Hb as [k Hk].
      destruct (H6 _ _ Hk) as [_ (e & He & _)].
      rewrite decide_False.
      * left. apply O1. by eapply elem_dict_values.
      * intros [_ [k' Hk']%elem_dict_values_inv]. by eapply pm_inv_apart.
Qed.

Lemma reachable_occupied m : reachable E m -> occupied_ok m.
Proof.
  induction 1 as [b|m ms Hr IH|m event new m' r Hr IH Hacq|m event Hr IH
                 |m kf ups m' Hr IH Hrec].
  - split; intros a Ha; by apply elem_of_nil in Ha.
  - exact IH.
  - eapply occupied_acquire; [|exact IH|exact Hacq]. by apply reachable_inv in Hr.
  - destruct (release_fields event m) as (Hp & Hh & Hu & _).
    destruct IH as [O1 O2]. split; intros a; rewrite ?Hp, ?Hu, Hh; auto.
  - eapply occupied_recycle; [|exact IH|exact Hrec]. by apply reachable_inv in Hr.
Qed.

(** X11.  In every reachable state the [occupied] counter
    is 0 on each bound pointer and 0 or 1 on each idle one.  So a keyframe
    [recycle] sends UP exactly the idle pointers that have already been
    through one keyframe, and keeps the others, whose counter becomes 1. *)
Theorem idle_one_keyframe m :
  reachable E m ->
  (forall e a, (e, a) ∈ pointers m -> occupied (deref (heap m) a) = 0)
  /\ (forall k a, (k, a) ∈ unused m ->
        (occupied (deref (heap m) a) = 0 \/ occupied (deref (heap m) a) = 1)
        /\ (a ∈ expiring true m <-> occupied (deref (heap m) a) = 1))
  /\ (forall ups m', recycle true m = (ups, Ok m') ->
        ups = (fun a => up_of (aged (deref (heap m) a)))
                <$> filter (fun a => occupied (deref (heap m) a) = 1) (dict_values (unused m))
        /\ forall k a, (k, a) ∈ unused m -> occupied (deref (heap m) a) = 0 ->
             (k, a) ∈ unused m' /\ occupied (deref (heap m') a) = 1).
Proof.
  intros Hr. pose proof (reachable_occupied m Hr) as [O1 O2].
  pose proof (reachable_inv E m Hr) as Hinv. pose proof Hinv as [H1 H2 H3 H4 H5 H6 H7].
  assert (Hexp : forall a, a ∈ dict_values (unused m) ->
            (expired (heap m) a <-> occupied (deref (heap m) a) = 1)).
  { intros a Ha. unfold expired. destruct (O2 a Ha); lia. }
  split_and!.
  - intros e a Ha. apply O1. by eapply elem_dict_values.
  - intros k a Ha. assert (Hv : a ∈ dict_values (unused m)) by (by eapply elem_dict_values).
    split; [by apply O2|]. unfold expiring. rewrite list_elem_of_filter, Hexp by done. tauto.
  - intros ups m' Hrec.
    destruct (recycle_spec _ _ _ _ Hinv Hrec) as (mf & _ & -> & _ & -> & _).
    split.
    + f_equal. unfold expiring. apply filter_ext_elem. intros a Ha. by apply Hexp.
    + intros k a Ha H0.
      assert (Hv : a ∈ dict_values (unused m)) by (by eapply elem_dict_values).
      split.
      * unfold recycled_state. cbn. apply elem_of_app. left.
        apply list_elem_of_filter. split; [|done]. cbn. unfold expiring.
        rewrite list_elem_of_filter, Hexp by done. lia.
      * unfold recycled_state. cbn. rewrite occupied_age_heap.
        -- rewrite decide_True by done. lia.
        -- pose proof (ok_nodup _ _ H1) as Hl. unfold live in Hl.
           by apply NoDup_app in Hl as (_ & _ & ?).
        -- intros b [k' Hk']%elem_dict_values_inv. eapply ok_valid; [exact H1|].
           by eapply live_unused.
Qed.
End Occupied.

Section SynthCalls.
Variable E : Env.

Lemma add_events_app evs1 evs2 frames :
  add_events (evs1 ++ evs2) frames = add_events evs2 (add_events evs1 frames).
Proof. unfold add_events. by rewrite fold_left_app. Qed.

Lemma calls_from_app id notes1 notes2 :
  calls_from E id (notes1 ++ notes2)
  = calls_from E id notes1 ++ calls_from E (id + Z.of_nat (length notes1)) notes2.
Proof.
  revert id. induction notes1 as [|[line ev] notes1 IH]; intros id.
  - cbn. by rewrite Z.add_0_r.
  - cbn [app calls_from length]. rewrite IH, <- app_assoc. do 3 f_equal. lia.
Qed.

Lemma synth_notes_calls line notes st :
  fold_left (synth_note E line) notes st
  = (add_events (calls_from E (snd st) (pair line <$> notes)) (fst st),
     snd st + Z.of_nat (length notes)).
Proof.
  revert st. induction notes as [|ev notes IH]; intros [fr n].
  - cbn. by rewrite Z.add_0_r.
  - cbn [fold_left]. rewrite IH. unfold synth_note. cbn [fst snd fmap list_fmap calls_from length].
    rewrite add_events_app. f_equal. lia.
Qed.

Lemma synth_lines_calls lines st :
  fold_left (synth_line E) lines st
  = (add_events (calls_from E (snd st) (chart_notes lines)) (fst st),
     snd st + Z.of_nat (length (chart_notes lines))).
Proof.
  revert st. induction lines as [|line lines IH]; intros [fr n].
  - cbn. by rewrite Z.add_0_r.
  - cbn [fold_left]. rewrite IH. unfold synth_line. rewrite synth_notes_calls.
    cbn [fst snd]. unfold chart_notes. rewrite bind_cons.
    rewrite calls_from_app, add_events_app, !length_app, !length_fmap.
    f_equal; [|rewrite ?length_app; lia]. by rewrite ?length_app.
Qed.

Lemma synthesize_calls chart : synthesize E chart = add_events (chart_calls E chart) ∅.
Proof. unfold synthesize. by rewrite synth_lines_calls. Qed.

Lemma add_events_dom evs frames :
  dom (add_events evs frames) = list_to_set (fst <$> evs) ∪ dom frames.
Proof.
  revert frames. induction evs as [|e evs IH]; intros frames.
  - cbn. set_solver.
  - unfold add_events in *. cbn [fold_left]. rewrite IH. unfold add_frame_event.
    rewrite tl_append_dom. cbn. set_solver.
Qed.

Lemma synthesize_lookup chart t :
  default [] (synthesize E chart !! t)
  = snd <$> filter (fun c => fst c = t) (chart_calls E chart).
Proof. rewrite synthesize_calls, add_events_lookup, lookup_empty. done. Qed.

(** X12.  The frames group the [add_frame_event] calls by ms: the
    frame of [t] lists the events of the calls made with [t], in call
    order, and there is a frame for [t] exactly when some call was made
    with it.  The calls are those of the notes in chart order (line by
    line, the notes above before the notes below), the note of index [k]
    (from 0) using event id [k]. *)
Theorem frames_group_calls chart t :
  default [] (synthesize E chart !! t)
  = snd <$> filter (fun c => fst c = t) (chart_calls E chart)
  /\ (t ∈ dom (synthesize E chart) <-> t ∈ fst <$> chart_calls E chart).
Proof.
  split; [apply synthesize_lookup|].
  rewrite synthesize_calls, add_events_dom, dom_empty_L. set_solver.
Qed.

Lemma calls_from_ids id notes :
  Forall (fun c => id <= fe_id (snd c) < id + Z.of_nat (length notes)) (calls_from E id notes).
Proof.
  revert id. induction notes as [|[line ev] notes IH]; intros id; [constructor|].
  cbn [calls_from length]. apply Forall_app. split.
  - eapply Forall_impl; [apply note_events_ids|]. cbn. intros c ->. lia.
  - eapply Forall_impl; [apply IH|]. cbn. intros c Hc. lia.
Qed.

(** X13.  Every frame event carries an event id that is the
    index of a note of the chart: from 0 up to the number of notes. *)
Theorem frame_event_ids chart t :
  Forall (fun ev => 0 <= fe_id ev < Z.of_nat (length (chart_notes chart)))
    (default [] (synthesize E chart !! t)).
Proof.
  rewrite synthesize_lookup. apply Forall_fmap.
  apply Forall_forall. intros c [_ Hc]%list_elem_of_filter.
  pose proof (calls_from_ids 0 (chart_notes chart)) as Hall.
  rewrite Forall_forall in Hall. apply Hall in Hc. cbn. lia.
Qed.

Lemma filter_fmap_nil {A B} (f : A -> B) (P : B -> Prop) `{!forall x, Decision (P x)}
    (l : list A) :
  (forall x, ~ P (f x)) -> filter P (f <$> l) = [].
Proof.
  intros Hno. induction l as [|x l IH]; [done|].
  rewrite fmap_cons, filter_cons_False by apply Hno. exact IH.
Qed.

Lemma release_last {A} (x y : Z * FrameEvent) (g : A -> Z * FrameEvent) (l : list A) :
  ~ releases_id (snd x) -> (forall o, ~ releases_id (snd (g o))) -> releases_id (snd y) ->
  fe_id <$> filter releases_id (snd <$> ([x] ++ (g <$> l) ++ [y])) = [fe_id (snd y)].
Proof.
  intros Hx Hg Hy. rewrite !fmap_app, !filter_app, <- list_fmap_compose.
  rewrite (filter_fmap_nil (snd ∘ g)) by (intros o; apply Hg).
  cbn [fmap list_fmap]. rewrite filter_cons_False, filter_cons_True by done. done.
Qed.

(** Of the events of a note exactly one releases its pointer. *)
Lemma note_events_release line event id :
  fe_id <$> filter releases_id (snd <$> note_events E line event id) = [id].
Proof.
  unfold note_events. destruct (note_type event); [done|done| |].
  - cbv zeta. by rewrite release_last.
  - cbv zeta. by rewrite release_last.
Qed.

Lemma calls_from_release id notes :
  fe_id <$> filter releases_id (snd <$> calls_from E id notes)
  = seqZ id (Z.of_nat (length notes)).
Proof.
  revert id. induction notes as [|[line ev] notes IH]; intros id; [done|].
  cbn [calls_from length]. rewrite fmap_app, filter_app, fmap_app.
  rewrite note_events_release, IH. rewrite (seqZ_cons id) by lia.
  cbn [app]. do 2 f_equal; lia.
Qed.

Lemma sublist_filter_mono {A} (P : A -> Prop) `{!forall x, Decision (P x)} (l1 l2 : list A) :
  l1 `sublist_of` l2 -> filter P l1 `sublist_of` filter P l2.
Proof.
  induction 1 as [|x l1 l2 _ IH|x l1 l2 _ IH]; [done| |].
  - rewrite !filter_cons. case_decide; [by apply sublist_skip|done].
  - rewrite filter_cons. case_decide; [by apply sublist_cons|done].
Qed.

(** In each frame the events that release carry distinct ids. *)
Lemma frame_release_NoDup chart t :
  NoDup (fe_id <$> filter releases_id (default [] (synthesize E chart !! t))).
Proof.
  rewrite synthesize_lookup.
  eapply sublist_NoDup; [apply (NoDup_seqZ 0 (Z.of_nat (length (chart_notes chart))))|].
  rewrite <- (calls_from_release 0 (chart_notes chart)).
  apply fmap_sublist, sublist_filter_mono, fmap_sublist, sublist_filter.
Qed.

Lemma length_flick_offsets : length flick_offsets = 20%nat.
Proof. by rewrite flick_offsets_eq. Qed.

Lemma hold_offsets_few h : (length (hold_offsets h) <= 40)%nat.
Proof.
  set (step := Z.max 1 (h / 20)).
  set (q := (h - 1) / step).
  assert (Hstep : 1 <= step) by (unfold step; lia).
  assert (Hq : q <= 39).
  { unfold q. destruct (Z_lt_le_dec h 20) as [Hh|Hh].
    - assert (step = 1) as ->.
      { unfold step. assert (h / 20 <= 0); [|lia].
        destruct (Z_lt_le_dec h 0).
        - assert (h / 20 < 0) by (apply Z.div_lt_upper_bound; lia). lia.
        - rewrite Z.div_small by lia. lia. }
      rewrite Z.div_1_r. lia.
    - assert (Hs : step = h / 20).
      { unfold step. assert (1 <= h / 20) by (apply Z.div_le_lower_bound; lia). lia. }
      assert (h < 20 * (step + 1)).
      { rewrite Hs. pose proof (Z.mod_pos_bound h 20 ltac:(lia)).
        pose proof (Z.div_mod h 20 ltac:(lia)). lia. }
      apply Z.lt_succ_r. apply Z.div_lt_upper_bound; lia. }
  transitivity (length (((fun k => k * step) <$> seqZ 1 q) ++ [h - 1])).
  - apply submseteq_length, NoDup_submseteq.
    + unfold hold_offsets. apply NoDup_filter, NoDup_seqZ.
    + intros o [Ho Hm]%elem_of_hold_offsets. fold step in Hm.
      apply elem_of_app. destruct Hm as [Hm| ->]; [left|right; left].
      apply list_elem_of_fmap. exists (o / step). split.
      * pose proof (Z.div_mod o step ltac:(lia)). lia.
      * apply elem_of_seqZ. split.
        -- apply Z.div_le_lower_bound; [lia|].
           pose proof (Z.div_mod o step ltac:(lia)).
           destruct (Z_lt_le_dec o step); [|lia].
           rewrite Z.mod_small in Hm by lia. lia.
        -- assert (o / step <= q) by (apply Z.div_le_mono; lia). lia.
  - rewrite length_app, length_fmap, length_seqZ. cbn. lia.
Qed.

(** X14.  A TAP or a DRAG gives one frame event and a
    FLICK gives 22.  A HOLD gives its start, its end and at most 40
    samples, however long it is, and no sample at all when [hold_ms] is at
    most 1. *)
Theorem note_event_count line event id :
  let n := length (note_events E line event id) in
  match note_type event with
  | NoteType.TAP | NoteType.DRAG => n = 1%nat
  | NoteType.FLICK => n = 22%nat
  | NoteType.HOLD =>
      n = (2 + length (hold_offsets (hold_ms_of line event)))%nat
      /\ (2 <= n <= 42)%nat
      /\ (hold_ms_of line event <= 1 -> n = 2%nat)
  end.
Proof.
  unfold note_events. destruct (note_type event); cbv zeta; [done|done| |].
  - rewrite !length_app, length_fmap, length_flick_offsets. done.
  - rewrite !length_app, length_fmap. cbn [length].
    pose proof (hold_offsets_few (hold_ms_of line event)) as Hfew.
    split_and!; [lia|lia|lia|].
    intros Hh. unfold hold_offsets. rewrite seqZ_nil by lia. done.
Qed.

(** X15.  The curve of a FLICK is the same on the way out and
    on the way back: the point at offset [-o] is the point at offset [o].
    In particular FLICK_START and FLICK_END are at the same point, which is
    the note position itself, and at offset 0 the pointer is a full
    [FLICK_RADIUS] away from it. *)
Theorem flick_pos_path px py sa ca o :
  flick_pos px py (- o) sa ca = flick_pos px py o sa ca
  /\ flick_pos px py FLICK_START sa ca = flick_pos px py FLICK_END sa ca
  /\ (fst (flick_pos px py FLICK_END sa ca) == px)%Q
  /\ (snd (flick_pos px py FLICK_END sa ca) == py)%Q
  /\ (fst (flick_pos px py 0 sa ca) == px - sa * FLICK_RADIUS)%Q
  /\ (snd (flick_pos px py 0 sa ca) == py + ca * FLICK_RADIUS)%Q.
Proof.
  unfold flick_pos. rewrite Z.abs_opp. split_and!; try done; cbn -[Qmult Qplus Qminus Qdiv].
  all: unfold FLICK_RADIUS, FLICK_DURATION, FLICK_END, FLICK_START; cbn [fst snd].
  all: change (inject_Z (2 * Z.abs 20)) with (40 # 1);
       change (inject_Z (2 * Z.abs 0)) with (0 # 1);
       change (inject_Z (20 - -20)) with (40 # 1).
  all: field.
Qed.
End SynthCalls.

(** * What [solve] can raise *)

Section SolveErrors.
Variable E : Env.
Implicit Types (m : PointerManager) (r : gmap Z (list VirtualTouchEvent)).

Lemma handle_Ok ms m r kf event :
  pm_inv m ->
  exists m' r' kf',
    handle E ms (m, r, kf) event = Ok (m', r', kf')
    /\ mark_as_released m'
       = mark_as_released m ++ (if releases (action event) then [fe_id event] else []).
Proof.
  intros Hinv.
  destruct (acquire_effect E event (acquires_new (action event)) m Hinv)
    as (m1 & p & fresh & a & Hacq & Hget & _ & _ & _ & _ & _ & _ & _ & _ & _ & _ & _ & _ & _ & Hm).
  rewrite handle_eq, Hacq. cbn. do 3 eexists. split; [reflexivity|].
  destruct (releases (action event)).
  - unfold release. rewrite Hget. cbn. by rewrite Hm.
  - by rewrite Hm, app_nil_r.
Qed.

Lemma handle_all_Ok ms events m r kf :
  reachable E m ->
  exists m' r' kf',
    fold_res (handle E ms) events (m, r, kf) = Ok (m', r', kf')
    /\ reachable E m' /\ now m' = now m
    /\ mark_as_released m'
       = mark_as_released m ++ (fe_id <$> filter releases_id events).
Proof.
  revert m r kf. induction events as [|ev events IH]; intros m r kf Hr.
  - exists m, r, kf. cbn. by rewrite app_nil_r.
  - destruct (handle_Ok ms m r kf ev (reachable_inv E m Hr)) as (m1 & r1 & kf1 & Hh & Hm1).
    destruct (handle_reachable E _ _ _ _ _ _ _ _ Hr Hh) as [Hr1 Hn1].
    destruct (IH m1 r1 kf1 Hr1) as (m' & r' & kf' & Hfold & Hr' & Hn' & Hm').
    exists m', r', kf'. cbn [fold_res]. rewrite Hh. cbn [mbind Res_bind]. split; [done|].
    split; [done|]. split; [congruence|].
    rewrite Hm', Hm1, filter_cons.
    destruct (decide (releases_id ev)) as [Hrel|Hrel]; unfold releases_id in Hrel.
    + rewrite Hrel. by rewrite <- app_assoc.
    + apply not_true_is_false in Hrel. rewrite Hrel. by rewrite app_nil_r.
Qed.

Lemma plan_frame_cases m r item :
  reachable E m -> mark_as_released m = [] ->
  NoDup (fe_id <$> filter releases_id (snd item)) ->
  (exists m' r', plan_frame E (m, r) item = Ok (m', r')
     /\ reachable E m' /\ mark_as_released m' = [])
  \/ (exists nu np, plan_frame E (m, r) item = Raise (RuntimeError nu np (fst item))
        /\ (15 < nu + np)%nat).
Proof.
  intros Hr Hm Hnd. unfold plan_frame. cbn [fst snd].
  destruct (handle_all_Ok (fst item) (snd item) (set_now (fst item) m) r false)
    as (m1 & r1 & kf & Hfold & Hr1 & Hn1 & Hm1); [by apply reach_now|].
  rewrite Hfold. cbn. cbn in Hm1. rewrite Hm in Hm1. cbn in Hm1, Hn1.
  destruct (recycle_eq kf m1) as (mf & _ & Hrec); [by apply reachable_inv in Hr1|by rewrite Hm1|].
  rewrite Hrec. cbv zeta. case_decide as Hb.
  - right. do 2 eexists. cbn [mbind Res_bind]. rewrite <- Hn1. split; [reflexivity|].
    exact Hb.
  - left. do 2 eexists. cbn [mbind Res_bind]. split; [reflexivity|]. split; [|done].
    eapply reach_recycle; [exact Hr1|]. rewrite Hrec. cbv zeta. by rewrite decide_False.
Qed.

Lemma plan_from_cases batches m r :
  reachable E m -> mark_as_released m = [] ->
  Forall (fun item => NoDup (fe_id <$> filter releases_id (snd item))) batches ->
  (exists m' r', fold_res (plan_frame E) batches (m, r) = Ok (m', r'))
  \/ (exists nu np t, fold_res (plan_frame E) batches (m, r) = Raise (RuntimeError nu np t)
        /\ (15 < nu + np)%nat /\ t ∈ fst <$> batches).
Proof.
  intros Hr Hm Hall. revert m r Hr Hm.
  induction Hall as [|item batches Hitem _ IH]; intros m r Hr Hm.
  - left. by exists m, r.
  - cbn [fold_res].
    destruct (plan_frame_cases m r item Hr Hm Hitem)
      as [(m1 & r1 & Hf & Hr1 & Hm1)|(nu & np & Hf & Hb)].
    + rewrite Hf. cbn. destruct (IH m1 r1 Hr1 Hm1) as [Hok|(nu & np & t & Hrest & Hb & Ht)].
      * by left.
      * right. exists nu, np, t. split_and!; [done|done|].
        change (t ∈ fst item :: (fst <$> batches)). by right.
    + right. exists nu, np, (fst item). rewrite Hf. split_and!; [done|done|].
      change (fst item ∈ fst item :: (fst <$> batches)). left.
Qed.

(** X16.  For every chart [solve] either returns or
    raises the budget error of [recycle]: a [RuntimeError] that reports
    more than 15 pointers on screen at the ms of one of the frames.  It
    never fails with a [KeyError] or a [ZeroDivisionError]. *)
Theorem solve_raises_only_budget chart :
  (exists result, solve E chart = Ok result)
  \/ (exists nu np t, solve E chart = Raise (RuntimeError nu np t)
        /\ (15 < nu + np)%nat /\ t ∈ dom (synthesize E chart)).
Proof.
  unfold solve, plan_and_finish, plan.
  destruct (plan_from_cases (sorted_items (synthesize E chart)) (PointerManager_init 1000 1) ∅)
    as [(m' & r' & Hp)|(nu & np & t & Hp & Hb & Ht)].
  - apply reach_init.
  - done.
  - unfold sorted_items. apply Forall_fmap, Forall_forall. intros k _. cbn.
    apply frame_release_NoDup.
  - left. rewrite Hp. cbn. by eexists.
  - right. exists nu, np, t. rewrite Hp. split_and!; [done|done|].
    unfold sorted_items in Ht. rewrite <- list_fmap_compose in Ht.
    apply list_elem_of_fmap in Ht as (k & -> & Hk). cbn. by apply sorted_keys_elem.
Qed.
End SolveErrors.

Section Played.
Variable E : Env.
Implicit Types (m : PointerManager) (r : gmap Z (list VirtualTouchEvent)).

Lemma written_not_up a fresh : written a fresh <> TouchAction.UP.
Proof. by destruct a, fresh. Qed.

Lemma touches_append ms ve r t :
  vt_action ve <> TouchAction.UP ->
  touches (events_at (tl_append ms ve r) t)
  = touches (events_at r t) ++ (if decide (t = ms) then [ve] else []).
Proof.
  intros Hve. unfold touches. rewrite events_at_append, filter_app.
  case_decide; [|done]. by rewrite filter_cons_True.
Qed.

Lemma touches_add_ups ups r t :
  touches (events_at (add_ups ups r) t) = touches (events_at r t).
Proof.
  revert r. induction ups as [|[[p k] ps] ups IH]; intros r; [done|].
  unfold add_ups in *. cbn [fold_left fst snd]. rewrite IH.
  unfold add_touch_event, touches. rewrite events_at_append, filter_app.
  case_decide; [|by rewrite app_nil_r].
  rewrite filter_cons_False by (cbn; tauto). by rewrite app_nil_r.
Qed.

Lemma handle_all_emits ms events m r kf m' r' kf' t :
  fold_res (handle E ms) events (m, r, kf) = Ok (m', r', kf') ->
  exists ves,
    touches (events_at r' t) = touches (events_at r t) ++ ves
    /\ Forall2 emits (if decide (t = ms) then events else []) ves.
Proof.
  revert m r kf. induction events as [|ev events IH]; intros m r kf.
  - cbn. intros [= _ <- _]. exists []. rewrite app_nil_r. split; [done|].
    case_decide; constructor.
  - cbn [fold_res].
    destruct (handle E ms (m, r, kf) ev) as [[[m1 r1] kf1]|] eqn:Hh; cbn [mbind Res_bind]; [|done].
    intros (ves & Hves & Hall)%IH. rewrite handle_eq in Hh.
    destruct (acquire E ev _ m) as [[m0 [p fresh]]|]; cbn in Hh; [|done].
    injection Hh as _ <- _. unfold add_touch_event in Hves.
    rewrite touches_append in Hves by apply written_not_up.
    case_decide.
    + eexists. rewrite Hves, <- app_assoc. split; [reflexivity|].
      constructor; [|done]. split; [done|]. by exists fresh.
    + exists ves. by rewrite Hves, app_nil_r.
Qed.

Lemma plan_frame_emits m r item m' r' t :
  plan_frame E (m, r) item = Ok (m', r') ->
  exists ves,
    touches (events_at r' t) = touches (events_at r t) ++ ves
    /\ Forall2 emits (if decide (fst item = t) then snd item else []) ves.
Proof.
  unfold plan_frame. cbn [fst snd].
  destruct (fold_res _ (snd item) _) as [[[m1 r1] kf]|] eqn:Hfold; cbn [mbind Res_bind]; [|done].
  destruct (recycle kf m1) as [ups [m2|]]; cbn; [|done].
  intros [= _ <-]. rewrite touches_add_ups.
  destruct (handle_all_emits _ _ _ _ _ _ _ _ t Hfold) as (ves & Hves & Hall).
  exists ves. split; [done|]. destruct (decide (t = fst item)) as [->|].
  - by rewrite decide_True.
  - by rewrite decide_False.
Qed.

Lemma plan_from_emits batches m r m' r' t :
  fold_res (plan_frame E) batches (m, r) = Ok (m', r') ->
  exists ves,
    touches (events_at r' t) = touches (events_at r t) ++ ves
    /\ Forall2 emits (handled batches t) ves.
Proof.
  revert m r. induction batches as [|item batches IH]; intros m r.
  - cbn. intros [= _ <-]. exists []. by rewrite app_nil_r.
  - cbn [fold_res]. destruct (plan_frame E (m, r) item) as [[m1 r1]|] eqn:Hf;
      cbn [mbind Res_bind]; [|done].
    intros (ves & Hves & Hall)%IH.
    destruct (plan_frame_emits _ _ _ _ _ t Hf) as (ves1 & Hves1 & Hall1).
    exists (ves1 ++ ves). rewrite Hves, Hves1, <- app_assoc. split; [done|].
    unfold handled. rewrite bind_cons. by apply Forall2_app.
Qed.

Lemma handled_keys (f : Z -> list FrameEvent) ks t :
  NoDup ks ->
  handled ((fun k => (k, f k)) <$> ks) t = if decide (t ∈ ks) then f t else [].
Proof.
  unfold handled. induction 1 as [|k ks Hk Hnd IH]; [done|].
  rewrite fmap_cons, bind_cons, IH. cbn [fst snd].
  destruct (decide (k = t)) as [->|Hne].
  - rewrite (decide_True (P := t ∈ t :: ks)) by left.
    rewrite (decide_False (P := t ∈ ks)) by done. by rewrite app_nil_r.
  - cbn [app]. destruct (decide (t ∈ ks)).
    + rewrite (decide_True (P := t ∈ k :: ks)); [done|by right].
    + rewrite (decide_False (P := t ∈ k :: ks)); [done|].
      intros [->|?]%elem_of_cons; done.
Qed.

Lemma handled_sorted_items (d : gmap Z (list FrameEvent)) t :
  handled (sorted_items d) t = events_at d t.
Proof.
  unfold sorted_items. rewrite handled_keys by apply sorted_keys_NoDup.
  case_decide as Ht; [done|]. rewrite sorted_keys_elem in Ht.
  by rewrite events_at_notin.
Qed.

(** X17.  When [solve] returns, the output at
    each ms holds, apart from UPs, exactly one touch event for each frame
    event of that ms, in the same order and at the same point: a DOWN for a
    TAP or a HOLD_START, a DOWN or a MOVE for a DRAG or a FLICK_START, and
    a MOVE for the other kinds. *)
Theorem frames_played chart result t :
  solve E chart = Ok result ->
  Forall2 emits (events_at (synthesize E chart) t) (touches (events_at result t)).
Proof.
  unfold solve, plan_and_finish, plan.
  destruct (fold_res _ _ _) as [[m r]|] eqn:Hplan; cbn [mbind Res_bind]; [|done].
  intros [= <-]. rewrite touches_add_ups.
  destruct (plan_from_emits _ _ _ _ _ t Hplan) as (ves & Hves & Hall).
  rewrite handled_sorted_items in Hall. rewrite Hves.
  assert (touches (events_at (∅ : gmap Z (list VirtualTouchEvent)) t) = []) as ->
    by (unfold events_at; by rewrite lookup_empty).
  exact Hall.
Qed.
End Played.

Section UpsFollow.
Variable E : Env.
Implicit Types (m : PointerManager) (r : gmap Z (list VirtualTouchEvent)).

Lemma touched_at_append ms ve r k p ps :
  touched_at r k p ps -> touched_at (tl_append ms ve r) k p ps.
Proof.
  intros (e & He & Hrest). exists e. split; [|done].
  rewrite events_at_append. apply elem_of_app. by left.
Qed.

Lemma touched_at_add_ups ups r k p ps :
  touched_at r k p ps -> touched_at (add_ups ups r) k p ps.
Proof.
  revert r. induction ups as [|u ups IH]; intros r Hr; [done|].
  unfold add_ups in *. cbn [fold_left]. apply IH. by apply touched_at_append.
Qed.

Lemma live_pid_range m a : pm_inv m -> delta m = 1 -> a ∈ live m -> begin m <= pid_of m a.
Proof.
  intros Hinv Hd Ha. destruct (ok_range _ _ (inv_alloc _ Hinv)) as (n & _ & _ & Hlv).
  destruct (Hlv a Ha) as (i & _ & ->). rewrite Hd. lia.
Qed.

Lemma out_inv_handle m r kf event m' r' kf' :
  pm_inv m -> out_inv m r ->
  handle E (now m) (m, r, kf) event = Ok (m', r', kf') ->
  out_inv m' r' /\ begin m' = begin m.
Proof.
  intros Hinv [O1 O2 O3 O4] Hh. rewrite handle_eq in Hh.
  destruct (acquire_effect E event (acquires_new (action event)) m Hinv)
    as (m1 & p & fresh & a & Hacq & Hget & Hpid & Hpos & Hts & _ & Hp & Hu & Hsame & _ & _
        & Hb & Hd & _).
  rewrite Hacq in Hh. cbn in Hh. injection Hh as <- <- _.
  pose proof (pm_inv_acquire E _ _ _ _ _ Hinv Hacq) as Hinv1.
  set (m2 := if releases (action event) then release event m1 else m1).
  assert (Hl2 : live m2 = live m1 /\ heap m2 = heap m1 /\ begin m2 = begin m1
                /\ delta m2 = delta m1).
  { unfold m2. destruct (releases (action event)); [|done].
    destruct (release_fields event m1) as (F1 & F2 & F3 & _).
    unfold live. rewrite F1, F2, F3. split_and!; try done.
    - unfold release. by destruct (dict_get _ _).
    - unfold release. by destruct (dict_get _ _). }
  destruct Hl2 as (L1 & L2 & L3 & L4).
  split; [|congruence].
  assert (Ha1 : a ∈ live m1).
  { unfold live. apply elem_of_app. left. apply Hp. by left. }
  set (ve := mkVTE (fe_point event) (written (action event) fresh) p).
  assert (Hnew : touched_at (tl_append (now m) ve r) (now m) p (fe_point event)).
  { exists ve. split_and!; try done.
    - rewrite events_at_append, decide_True by done. apply elem_of_app. right. left.
    - apply written_not_up. }
  split.
  - intros b Hb2. rewrite L1 in Hb2. unfold pid_of. rewrite L2.
    destruct (decide (b = a)) as [->|Hne].
    + rewrite Hpid, Hpos, Hts. exact Hnew.
    + assert (Hbm : b ∈ live m).
      { unfold live in *. rewrite elem_of_app in *. destruct Hb2 as [Hb2|Hb2].
        - apply Hp in Hb2 as [->|?]; [done|by left].
        - apply Hu in Hb2 as [? _]. by right. }
      rewrite (Hsame b Hbm Hne). apply touched_at_append. by apply O1.
  - intros k e. unfold add_touch_event. rewrite events_at_append.
    intros [He|He]%elem_of_app Hup.
    + apply touched_at_append. by eapply O2.
    + case_decide; [|by apply elem_of_nil in He]. apply list_elem_of_singleton in He.
      subst e. cbn in Hup. by destruct (written_not_up _ _ Hup).
  - intros k e. unfold add_touch_event. rewrite events_at_append, L3, Hb.
    intros [He|He]%elem_of_app; [by eapply O3|].
    case_decide; [|by apply elem_of_nil in He]. apply list_elem_of_singleton in He.
    subst e. cbn. rewrite <- Hpid, <- Hb. apply (live_pid_range m1 a); [done|congruence|done].
  - congruence.
Qed.

Lemma pos_age_heap l h a : pos (deref (age_heap l h) a) = pos (deref h a).
Proof.
  revert h. induction l as [|b l IH]; intros h; [done|].
  change (age_heap (b :: l) h) with (age_heap l (<[b := aged (deref h b)]> h)).
  rewrite IH. destruct (decide (b = a)) as [->|Hne]; [|by rewrite deref_insert_ne].
  destruct (decide (a < length h)%nat).
  - by rewrite deref_insert_eq.
  - by rewrite list_insert_ge by lia.
Qed.

Lemma add_ups_out (lo : Z) (ups : list UpItem) r :
  (forall u, u ∈ ups ->
     touched_at r (snd (fst u) - 1) (fst (fst u)) (snd u) /\ lo <= fst (fst u)) ->
  (forall k e, e ∈ events_at r k -> vt_action e = TouchAction.UP ->
     touched_at r (k - 1) (pointer_id e) (vt_pos e)) ->
  (forall k e, e ∈ events_at r k -> lo <= pointer_id e) ->
  (forall k e, e ∈ events_at (add_ups ups r) k -> vt_action e = TouchAction.UP ->
     touched_at (add_ups ups r) (k - 1) (pointer_id e) (vt_pos e))
  /\ (forall k e, e ∈ events_at (add_ups ups r) k -> lo <= pointer_id e).
Proof.
  revert r. induction ups as [|[[p k0] ps] ups IH]; intros r Hups H2 H3; [done|].
  unfold add_ups in *. cbn [fold_left fst snd].
  destruct (Hups (p, k0, ps)) as [Ht Hlo]; [left|]. cbn in Ht, Hlo.
  apply IH.
  - intros u Hu. destruct (Hups u) as [Hu1 Hu2]; [by right|].
    split; [|done]. by apply touched_at_append.
  - intros k e. unfold add_touch_event. rewrite events_at_append.
    intros [He|He]%elem_of_app Hup; apply touched_at_append.
    + by eapply H2.
    + case_decide as Hk; [|by apply elem_of_nil in He].
      apply list_elem_of_singleton in He. subst e k. exact Ht.
  - intros k e. unfold add_touch_event. rewrite events_at_append.
    intros [He|He]%elem_of_app; [by eapply H3|].
    case_decide; [|by apply elem_of_nil in He].
    apply list_elem_of_singleton in He. by subst e.
Qed.

Lemma up_of_touched m r a :
  pm_inv m -> out_inv m r -> a ∈ live m ->
  forall p, pid p = pid_of m a -> timestamp p = timestamp (deref (heap m) a) ->
    pos p = pos (deref (heap m) a) ->
    touched_at r (snd (fst (up_of p)) - 1) (fst (fst (up_of p))) (snd (up_of p))
    /\ begin m <= fst (fst (up_of p)).
Proof.
  intros Hinv [O1 O2 O3 O4] Ha p Hp Ht Hs. unfold up_of. cbn.
  rewrite Hp, Ht, Hs. replace (timestamp (deref (heap m) a) + 1 - 1)
    with (timestamp (deref (heap m) a)) by lia.
  split; [by apply O1|by apply live_pid_range].
Qed.

Lemma out_inv_recycle is_keyframe m r ups m' :
  pm_inv m -> out_inv m r -> recycle is_keyframe m = (ups, Ok m') ->
  out_inv m' (add_ups ups r) /\ begin m' = begin m.
Proof.
  intros Hinv Hout Hrec. pose proof Hout as [O1 O2 O3 O4].
  destruct (recycle_spec _ _ _ _ Hinv Hrec) as (mf & Hfree & -> & _ & -> & _).
  destruct (free_all_fields _ _ _ Hfree) as (_ & Fb & Fd & _).
  assert (Hb : begin (recycled_state is_keyframe m mf) = begin m) by done.
  assert (Hd : delta (recycled_state is_keyframe m mf) = delta m) by done.
  destruct (add_ups_out (begin m)
              ((fun a => up_of (aged (deref (heap m) a))) <$> expiring is_keyframe m) r)
    as [U2 U3]; [|done|done|].
  { intros u (a & -> & Ha)%list_elem_of_fmap.
    apply (up_of_touched m r a); try done.
    apply expiring_unused in Ha as [k Hk]. by eapply live_unused. }
  split; [|done]. split.
  - intros b [Hb' _]%live_recycled; [|done].
    assert (Hsame : pid_of (recycled_state is_keyframe m mf) b = pid_of m b
      /\ timestamp (deref (heap (recycled_state is_keyframe m mf)) b)
         = timestamp (deref (heap m) b)
      /\ pos (deref (heap (recycled_state is_keyframe m mf)) b) = pos (deref (heap m) b)).
    { unfold pid_of, recycled_state. cbn. destruct is_keyframe; [|done].
      by rewrite pid_age_heap, timestamp_age_heap, pos_age_heap. }
    destruct Hsame as (-> & -> & ->). apply touched_at_add_ups. by apply O1.
  - exact U2.
  - rewrite Hb. exact U3.
  - by rewrite Hd.
Qed.

Lemma handle_all_out events m r kf m' r' kf' :
  reachable E m -> out_inv m r ->
  fold_res (handle E (now m)) events (m, r, kf) = Ok (m', r', kf') ->
  out_inv m' r' /\ begin m' = begin m.
Proof.
  revert m r kf. induction events as [|ev events IH]; intros m r kf Hr Hout.
  - cbn. by intros [= <- <- _].
  - cbn [fold_res].
    destruct (handle E (now m) (m, r, kf) ev) as [[[m1 r1] kf1]|] eqn:Hh;
      cbn [mbind Res_bind]; [|done].
    destruct (handle_reachable E _ _ _ _ _ _ _ _ Hr Hh) as [Hr1 Hn1].
    destruct (out_inv_handle m r kf ev m1 r1 kf1) as [Hout1 Hb1];
      [by apply reachable_inv in Hr|done|done|].
    rewrite <- Hn1, <- Hb1. by apply IH.
Qed.

Lemma plan_frame_out m r item m' r' :
  reachable E m -> out_inv m r -> plan_frame E (m, r) item = Ok (m', r') ->
  out_inv m' r' /\ begin m' = begin m.
Proof.
  intros Hr Hout. unfold plan_frame. cbn [fst snd].
  destruct (fold_res _ (snd item) _) as [[[m1 r1] kf]|] eqn:Hfold; cbn [mbind Res_bind]; [|done].
  destruct (recycle kf m1) as [ups [m2|]] eqn:Hrec; cbn; [|done].
  intros [= <- <-].
  assert (Hr0 : reachable E (set_now (fst item) m)) by (by apply reach_now).
  destruct (handle_all_reachable E _ _ _ _ _ _ _ _ Hr0 Hfold) as [Hr1 _].
  destruct (handle_all_out (snd item) (set_now (fst item) m) r false m1 r1 kf)
    as [Hout1 Hb1]; [done| |exact Hfold|].
  { destruct Hout as [O1 O2 O3 O4]. by split. }
  destruct (out_inv_recycle kf m1 r1 ups m2) as [Hout2 Hb2];
    [by apply reachable_inv in Hr1|done|done|].
  split; [done|]. by rewrite Hb2, Hb1.
Qed.

Lemma plan_from_out batches m r m' r' :
  reachable E m -> out_inv m r ->
  fold_res (plan_frame E) batches (m, r) = Ok (m', r') ->
  reachable E m' /\ out_inv m' r' /\ begin m' = begin m.
Proof.
  revert m r. induction batches as [|item batches IH]; intros m r Hr Hout.
  - cbn. by intros [= <- <-].
  - cbn [fold_res]. destruct (plan_frame E (m, r) item) as [[m1 r1]|] eqn:Hf;
      cbn [mbind Res_bind]; [|done].
    destruct (plan_frame_out m r item m1 r1) as [Hout1 Hb1]; [done|done|done|].
    rewrite <- Hb1. apply IH; [|done].
    by apply (plan_frame_reachable E (m, r) item (m1, r1)).
Qed.

Lemma solve_out chart result :
  solve E chart = Ok result ->
  (forall k e, e ∈ events_at result k -> vt_action e = TouchAction.UP ->
     touched_at result (k - 1) (pointer_id e) (vt_pos e))
  /\ (forall k e, e ∈ events_at result k -> 1000 <= pointer_id e).
Proof.
  unfold solve, plan_and_finish, plan.
  destruct (fold_res _ _ _) as [[m r]|] eqn:Hplan; cbn [mbind Res_bind]; [|done].
  intros [= <-].
  apply plan_from_out in Hplan as (Hr & Hout & Hb); [|apply reach_init|].
  2:{ split; [by intros a ?%elem_of_nil| | |done];
      intros k e; unfold events_at; rewrite lookup_empty; by intros ?%elem_of_nil. }
  pose proof (reachable_inv E m Hr) as Hinv. pose proof Hout as [O1 O2 O3 O4].
  cbn in Hb. rewrite <- Hb. apply add_ups_out; [|done|done].
  intros u (a & -> & Ha)%list_elem_of_fmap.
  apply (up_of_touched m r a); try done.
  rewrite !elem_of_app in Ha. destruct Ha as [Ha|[Ha|Ha]].
  - apply elem_dict_values_inv in Ha as [k Hk]. by eapply live_unused.
  - apply elem_dict_values_inv in Ha as [k Hk].
    destruct (inv_now _ Hinv _ _ Hk) as [_ (e & He & _)]. by eapply live_pointer.
  - apply elem_dict_values_inv in Ha as [k Hk]. by eapply live_pointer.
Qed.

(** X18.  When [solve] returns, every UP in the
    output lifts its pointer where that pointer was last touched, one ms
    later: the output of the ms before holds a DOWN or a MOVE of the same
    pointer id at the same position. *)
Theorem up_follows_touch chart result k e :
  solve E chart = Ok result ->
  e ∈ events_at result k -> vt_action e = TouchAction.UP ->
  exists e', e' ∈ events_at result (k - 1)
    /\ pointer_id e' = pointer_id e /\ vt_pos e' = vt_pos e
    /\ vt_action e' <> TouchAction.UP.
Proof.
  intros Hsolve He Hup. destruct (solve_out chart result Hsolve) as [H2 _].
  exact (H2 k e He Hup).
Qed.

(** X19.  When [solve] returns, every pointer id in the
    output is at least 1000, the [begin] of its [PointerManager]. *)
Theorem pids_from_1000 chart result k :
  solve E chart = Ok result ->
  Forall (fun e => 1000 <= pointer_id e) (events_at result k).
Proof.
  intros Hsolve. destruct (solve_out chart result Hsolve) as [_ H3].
  apply Forall_forall. intros e He. by eapply H3.
Qed.
End UpsFollow.

(** * The points of a swipe *)

From Stdlib Require Import Lqa.


Lemma py_int_between (a b : Z) (q : Q) :
  (inject_Z a <= q)%Q -> (q <= inject_Z b)%Q -> a <= py_int q <= b.
Proof.
  destruct q as [n d]. unfold Qle, py_int. cbn. rewrite !Z.mul_1_r.
  intros Ha Hb. destruct (Z_le_gt_dec 0 n) as [Hn|Hn].
  - rewrite Z.quot_div_nonneg by lia. split.
    + apply Z.div_le_lower_bound; lia.
    + apply Z.div_le_upper_bound; lia.
  - replace n with (- - n) by lia. rewrite Z.quot_opp_l by lia.
    rewrite Z.quot_div_nonneg by lia.
    assert (- b <= - n / Z.pos d) by (apply Z.div_le_lower_bound; lia).
    assert (- n / Z.pos d <= - a) by (apply Z.div_le_upper_bound; lia).
    lia.
Qed.

Lemma ratio_unit i steps : 1 <= i < steps -> (0 <= inject_Z i / inject_Z steps <= 1)%Q.
Proof.
  intros H. assert (Hs : (0 < inject_Z steps)%Q).
  { change 0%Q with (inject_Z 0). rewrite <- Zlt_Qlt. lia. }
  assert (Hi : (0 <= inject_Z i)%Q).
  { change 0%Q with (inject_Z 0). rewrite <- Zle_Qle. lia. }
  assert (His : (inject_Z i <= inject_Z steps)%Q) by (rewrite <- Zle_Qle; lia).
  split.
  - apply Qle_shift_div_l; [done|]. lra.
  - apply Qle_shift_div_r; [done|]. lra.
Qed.

(** X4.  Every intermediate point of [swipe] lies between
    the start and the end coordinate. *)
Theorem lerp_between start end_ i steps :
  1 <= i < steps ->
  Z.min start end_ <= ControlOps.lerp start end_ (inject_Z i / inject_Z steps) <= Z.max start end_.
Proof.
  intros Hi. destruct (ratio_unit i steps Hi) as [H0 H1].
  set (r := (inject_Z i / inject_Z steps)%Q) in *. unfold ControlOps.lerp.
  assert (Hd : (inject_Z (end_ - start) == inject_Z end_ - inject_Z start)%Q).
  { unfold Z.sub. rewrite inject_Z_plus, inject_Z_opp. reflexivity. }
  destruct (Z_le_gt_dec start end_) as [Hle|Hgt].
  - rewrite Z.min_l, Z.max_r by lia.
    assert (Hq : (inject_Z start <= inject_Z end_)%Q) by (rewrite <- Zle_Qle; lia).
    apply py_int_between; rewrite Hd; nra.
  - rewrite Z.min_r, Z.max_l by lia.
    assert (Hq : (inject_Z end_ <= inject_Z start)%Q) by (rewrite <- Zle_Qle; lia).
    apply py_int_between; rewrite Hd; nra.
Qed.

(** * The properties at reference instances *)

Lemma one_acquired_reachable : reachable (env_of pop_smallest) one_acquired.
Proof.
  eapply (reach_acquire _ (PointerManager_init 1000 1) (tap_event 0) true _ (1000, true)).
  - apply reach_init.
  - vm_compute. reflexivity.
Qed.

Lemma lerp_between_witness :
  1 <= 1 < 2
  /\ Z.min 10 20 <= ControlOps.lerp 10 20 (inject_Z 1 / inject_Z 2) <= Z.max 10 20.
Proof.
  assert (H : 1 <= 1 < 2) by lia.
  split; [exact H|]. exact (lerp_between 10 20 1 2 H).
Defined.

Lemma acquire_binds_witness :
  reachable (env_of pop_smallest) (manager_of third_tap_handled)
  /\ exists m' p fresh a,
      acquire (env_of pop_smallest) (drag_event 7) false (manager_of third_tap_handled)
      = Ok (m', (p, fresh))
      /\ dict_get 7 (pointers m') = Some a.
Proof.
  split; [exact third_tap_reachable|].
  destruct (acquire_binds (env_of pop_smallest) (drag_event 7) false _ third_tap_reachable)
    as (m' & p & fresh & a & H1 & _ & H2 & _).
  by exists m', p, fresh, a.
Defined.


Lemma release_twice_witness :
  reachable (env_of pop_smallest) one_acquired
  /\ recycle true (release (tap_event 0) (release (tap_event 0) one_acquired))
     = ([], Raise (KeyError 0)).
Proof.
  split; [exact one_acquired_reachable|].
  refine (proj2 (release_twice (env_of pop_smallest) (tap_event 0) true one_acquired
                   one_acquired_reachable _ _ _)).
  - vm_compute. constructor.
  - vm_compute. left.
  - vm_compute. apply not_elem_of_nil.
Defined.

Lemma third_tap_recycles :
  recycle true (manager_of third_tap_handled)
  = (fst (recycle true (manager_of third_tap_handled)),
     Ok (recycled_of (recycle true (manager_of third_tap_handled)))).
Proof. vm_compute. reflexivity. Qed.

Lemma finish_once_witness :
  reachable (env_of pop_smallest) (manager_of third_tap_handled)
  /\ (length (finish (recycled_of (recycle true (manager_of third_tap_handled)))) <= 15)%nat.
Proof.
  split; [exact third_tap_reachable|].
  exact (proj2 (proj2 (finish_once (env_of pop_smallest) true _ _ _
                         third_tap_reachable third_tap_recycles))).
Defined.

Lemma recycle_again_witness :
  reachable (env_of pop_smallest) (manager_of third_tap_handled)
  /\ recycle false (recycled_of (recycle true (manager_of third_tap_handled)))
     = ([], Ok (recycled_of (recycle true (manager_of third_tap_handled)))).
Proof.
  split; [exact third_tap_reachable|].
  exact (recycle_again (env_of pop_smallest) true _ _ _
           third_tap_reachable third_tap_recycles).
Defined.

Lemma quiet_frame_witness :
  plan_frame (env_of pop_smallest) two_taps_planned drag_frame
  = Ok (planned_of (plan_frame (env_of pop_smallest) two_taps_planned drag_frame))
  /\ exists m1 r1,
      fold_res (handle (env_of pop_smallest) 3000) [drag_event 2]
        (set_now 3000 (fst two_taps_planned), snd two_taps_planned, false)
      = Ok (m1, r1, false).
Proof.
  assert (H : plan_frame (env_of pop_smallest)
                (fst two_taps_planned, snd two_taps_planned) drag_frame
              = Ok (fst (planned_of (plan_frame (env_of pop_smallest) two_taps_planned drag_frame)),
                    snd (planned_of (plan_frame (env_of pop_smallest) two_taps_planned drag_frame))))
    by (vm_compute; reflexivity).
  split; [vm_compute; reflexivity|].
  destruct (quiet_frame (env_of pop_smallest) _ _ _ _ _ H) as (m1 & r1 & H1 & _).
  by exists m1, r1.
Defined.

Lemma idle_one_keyframe_witness :
  reachable (env_of pop_smallest) (manager_of third_tap_handled)
  /\ forall e a, (e, a) ∈ pointers (manager_of third_tap_handled) ->
       occupied (deref (heap (manager_of third_tap_handled)) a) = 0.
Proof.
  split; [exact third_tap_reachable|].
  exact (proj1 (idle_one_keyframe (env_of pop_smallest) _ third_tap_reachable)).
Defined.

Lemma mixed_chart_solved :
  solve (env_of pop_smallest) mixed_chart = Ok (solved (env_of pop_smallest) mixed_chart).
Proof. vm_compute. reflexivity. Qed.

Lemma frames_played_witness :
  solve (env_of pop_smallest) mixed_chart = Ok (solved (env_of pop_smallest) mixed_chart)
  /\ Forall2 emits (events_at (synthesize (env_of pop_smallest) mixed_chart) 1500)
       (touches (events_at (solved (env_of pop_smallest) mixed_chart) 1500)).
Proof.
  split; [exact mixed_chart_solved|].
  exact (frames_played (env_of pop_smallest) mixed_chart _ 1500 mixed_chart_solved).
Defined.

Lemma up_follows_touch_witness :
  solve (env_of pop_smallest) mixed_chart = Ok (solved (env_of pop_smallest) mixed_chart)
  /\ mkVTE (0%Q, 0%Q) TouchAction.UP 1000
       ∈ events_at (solved (env_of pop_smallest) mixed_chart) 1001
  /\ exists e', e' ∈ events_at (solved (env_of pop_smallest) mixed_chart) (1001 - 1)
       /\ pointer_id e' = 1000.
Proof.
  assert (Hin : mkVTE (0%Q, 0%Q) TouchAction.UP 1000
                  ∈ events_at (solved (env_of pop_smallest) mixed_chart) 1001).
  { assert (Hev : events_at (solved (env_of pop_smallest) mixed_chart) 1001
                  = [mkVTE (0%Q, 0%Q) TouchAction.UP 1000]) by (vm_compute; reflexivity).
    rewrite Hev. left. }
  split; [exact mixed_chart_solved|]. split; [exact Hin|].
  destruct (up_follows_touch (env_of pop_smallest) mixed_chart _ 1001 _
              mixed_chart_solved Hin eq_refl) as (e' & H1 & H2 & _).
  by exists e'.
Defined.

Lemma pids_from_1000_witness :
  solve (env_of pop_smallest) mixed_chart = Ok (solved (env_of pop_smallest) mixed_chart)
  /\ Forall (fun e => 1000 <= pointer_id e)
       (events_at (solved (env_of pop_smallest) mixed_chart) 1500).
Proof.
  split; [exact mixed_chart_solved|].
  exact (pids_from_1000 (env_of pop_smallest) mixed_chart _ 1500 mixed_chart_solved).
Defined.


Section OnePointer.
Variable E : Env.
Implicit Types (m : PointerManager) (r : gmap Z (list VirtualTouchEvent)).

Lemma acquire_bindings event new m m' p fresh :
  pm_inv m -> acquire E event new m = Ok (m', (p, fresh)) ->
  (forall id, id <> fe_id event ->
     dict_get id (pointers m') = dict_get id (pointers m))
  /\ (forall a, dict_get (fe_id event) (pointers m) = Some a ->
        dict_get (fe_id event) (pointers m') = Some a /\ p = pid_of m a)
  /\ (forall b, b ∈ live m -> pid_of m' b = pid_of m b)
  /\ (exists a, dict_get (fe_id event) (pointers m') = Some a /\ pid_of m' a = p).
Proof.
  intros Hinv Hacq.
  destruct (acquire_effect E event new m Hinv)
    as (m0 & p0 & fresh0 & a & Hacq' & Hget & Hpid & _ & _ & _ & _ & _ & Hsame & Hf & _).
  rewrite Hacq in Hacq'. injection Hacq' as <- <- <-.
  assert (Hpids : forall b, b ∈ live m -> pid_of m' b = pid_of m b).
  { intros b Hb. destruct (decide (b = a)) as [->|Hne].
    - unfold pid_of at 1. rewrite Hpid. destruct fresh; [by destruct Hf|]. by destruct Hf.
    - unfold pid_of. by rewrite Hsame. }
  split_and!; [| |done|by exists a].
  - intros id Hne.
    apply acquire_cases in Hacq
      as [(a0 & _ & -> & _)|[(np & a0 & Hnone & _ & _ & _ & _ & -> & _)|(Hnone & _ & Hfp)]].
    + done.
    + cbn. by rewrite dict_get_set, decide_False.
    + destruct (fresh_pointer_facts E event m Hinv Hnone) as (_ & _ & _ & _ & _ & _ & F7 & _).
      assert (m' = fst (fresh_pointer E event m)) as -> by (by rewrite <- Hfp).
      rewrite F7. apply dict_get_None in Hnone.
      rewrite <- dict_set_notin by done. by rewrite dict_get_set, decide_False.
  - intros a0 Hget0.
    apply acquire_cases in Hacq
      as [(a1 & Hg & -> & [= -> _])|[(np & a1 & Hnone & _)|(Hnone & _)]]; [|congruence|congruence].
    cbn. split; [done|]. congruence.
Qed.

Lemma gesture_run_Fresh l : gesture_run Fresh l = Some Fresh -> l = [].
Proof.
  destruct l as [|a l]; [done|]. unfold gesture_run. cbn [fold_left mbind option_bind].
  intros H. exfalso. destruct (gesture_step Fresh a) as [s|] eqn:Hs.
  - assert (s <> Fresh) by (destruct a; cbn in Hs; congruence).
    clear Hs. revert s H H0. induction l as [|b l IH]; intros s H Hne; [cbn in H; congruence|].
    cbn [fold_left mbind option_bind] in H. destruct (gesture_step s b) as [s'|] eqn:Hs'.
    + apply (IH s' H). destruct s, b; cbn in Hs'; congruence.
    + by rewrite gesture_run_None in H.
  - by rewrite gesture_run_None in H.
Qed.

Lemma to_pid_more φ done evs fe ve : to_pid φ done fe ve -> to_pid φ (done ++ evs) fe ve.
Proof.
  intros [H1 H2]. split; [done|]. rewrite gesture_of_app.
  intros [? _]%app_eq_nil. done.
Qed.

Lemma note_inv_handle done hd m r kf φ event m' r' kf' :
  plan_inv done m r -> note_inv done hd m r φ ->
  is_Some (gesture_run Fresh (gesture_of (fe_id event) (done ++ [event]))) ->
  handle E (now m) (m, r, kf) event = Ok (m', r', kf') ->
  exists φ',
    note_inv (done ++ [event])
      (fun t => hd t ++ (if decide (now m = t) then [event] else [])) m' r' φ'.
Proof.
  intros [Hinv _ Hg] [N1 N2] Hdisc Hh. rewrite handle_eq in Hh.
  destruct (acquire E event _ m) as [[m1 [p fresh]]|] eqn:Hacq; cbn in Hh; [|done].
  injection Hh as <- <- _.
  destruct (acquire_bindings _ _ _ _ _ _ Hinv Hacq) as (B1 & B2 & B3 & (a & Hget & Hpid)).
  set (m2 := if releases (action event) then release event m1 else m1).
  assert (Hm2 : pointers m2 = pointers m1 /\ heap m2 = heap m1).
  { unfold m2. destruct (releases (action event)); [|done].
    destruct (release_fields event m1) as (F1 & F2 & _). done. }
  destruct Hm2 as [P2 H2].
  set (ve := mkVTE (fe_point event) (written (action event) fresh) p).
  assert (Hown : gesture_of (fe_id event) (done ++ [event]) <> []).
  { rewrite gesture_of_snoc, decide_True by done. intros [_ ?]%app_eq_nil. done. }
  assert (Hplay : forall φ', φ' (fe_id event) = p ->
            (forall fe ve0, to_pid φ done fe ve0 -> to_pid φ' done fe ve0) ->
            forall t, Forall2 (to_pid φ' (done ++ [event]))
                        (hd t ++ (if decide (now m = t) then [event] else []))
                        (touches (events_at (add_touch_event (now m) (fe_point event)
                                    (written (action event) fresh) p r) t))).
  { intros φ' Hφ Hmono t. unfold add_touch_event.
    rewrite touches_append by apply written_not_up. apply Forall2_app.
    - eapply Forall2_impl; [apply N2|]. intros fe ve0 Hfv. by apply to_pid_more, Hmono.
    - destruct (decide (now m = t)) as [->|Hne].
      + rewrite decide_True by done. constructor; [|constructor]. by split.
      + rewrite decide_False by congruence. constructor. }
  destruct (dict_get (fe_id event) (pointers m)) as [a0|] eqn:Hget0.
  - (* bound already *)
    destruct (B2 a0 eq_refl) as [Hget1 ->].
    exists φ. split.
    + intros id b. rewrite P2. unfold pid_of. rewrite H2. fold (pid_of m1 b).
      destruct (decide (id = fe_id event)) as [->|Hne].
      * rewrite Hget1. intros [= <-]. rewrite B3 by (by eapply live_pointer, dict_get_Some_elem).
        by apply N1.
      * rewrite B1 by done. intros Hb. rewrite B3 by (by eapply live_pointer, dict_get_Some_elem).
        by apply N1.
    + apply Hplay; [by apply N1|done].
  - (* a new binding: the id has not been seen *)
    assert (Hnone : gesture_of (fe_id event) done = []).
    { specialize (Hg (fe_id event)). apply dict_get_None in Hget0.
      destruct (gesture_run Fresh (gesture_of (fe_id event) done)) as [[| |]|] eqn:Hs.
      - by apply gesture_run_Fresh.
      - by destruct Hg.
      - rewrite gesture_of_snoc, decide_True, gesture_run_app, Hs in Hdisc by done.
        cbn in Hdisc. destruct Hdisc as [? Hd]. by destruct (action event).
      - done. }
    exists (fun x => if decide (x = fe_id event) then p else φ x). split.
    + intros id b. rewrite P2. unfold pid_of. rewrite H2. fold (pid_of m1 b).
      destruct (decide (id = fe_id event)) as [->|Hne].
      * rewrite Hget. intros [= <-]. done.
      * rewrite B1 by done. intros Hb. rewrite B3 by (by eapply live_pointer, dict_get_Some_elem).
        by apply N1.
    + apply Hplay; [by rewrite decide_True|].
      intros fe ve0 [H1 Hne]. split; [|done]. rewrite decide_False; [done|]. congruence.
Qed.
End OnePointer.

Section OnePointerPlan.
Variable E : Env.
Implicit Types (m : PointerManager) (r : gmap Z (list VirtualTouchEvent)).

Lemma note_inv_ext done hd hd' m r φ :
  (forall t, hd' t = hd t) -> note_inv done hd m r φ -> note_inv done hd' m r φ.
Proof. intros Heq [N1 N2]. split; [done|]. intros t. rewrite Heq. apply N2. Qed.

Lemma handle_all_note events done hd m r kf φ m' r' kf' :
  plan_inv done m r -> note_inv done hd m r φ ->
  (forall id, is_Some (gesture_run Fresh (gesture_of id (done ++ events)))) ->
  fold_res (handle E (now m)) events (m, r, kf) = Ok (m', r', kf') ->
  exists φ',
    note_inv (done ++ events)
      (fun t => hd t ++ (if decide (now m = t) then events else [])) m' r' φ'.
Proof.
  revert done hd m r kf φ.
  induction events as [|ev events IH]; intros done hd m r kf φ Hinv Hnote Hdisc.
  - cbn. intros [= <- <- _]. exists φ. rewrite app_nil_r.
    eapply note_inv_ext; [|exact Hnote]. intros t. cbn. case_decide; by rewrite app_nil_r.
  - cbn [fold_res].
    destruct (handle E (now m) (m, r, kf) ev) as [[[m1 r1] kf1]|] eqn:Hh;
      cbn [mbind Res_bind]; [|done].
    intros Hrest.
    assert (Hd1 : is_Some (gesture_run Fresh (gesture_of (fe_id ev) (done ++ [ev])))).
    { specialize (Hdisc (fe_id ev)).
      replace (done ++ ev :: events) with ((done ++ [ev]) ++ events) in Hdisc
        by (by rewrite <- app_assoc).
      rewrite gesture_of_app in Hdisc. by eapply gesture_run_prefix. }
    destruct (handle_inv E _ _ _ _ _ _ _ _ Hinv Hd1 Hh) as [Hinv1 Hn1].
    destruct (note_inv_handle E _ _ _ _ _ _ _ _ _ _ Hinv Hnote Hd1 Hh) as [φ1 Hnote1].
    rewrite <- Hn1 in Hrest.
    destruct (IH _ _ m1 r1 kf1 _ Hinv1 Hnote1) as [φ' Hnote']; [|exact Hrest|].
    { intros id. rewrite <- app_assoc. apply Hdisc. }
    exists φ'. rewrite <- app_assoc in Hnote'. cbn [app] in Hnote'.
    eapply note_inv_ext; [|exact Hnote']. intros t. cbn. rewrite Hn1.
    case_decide; by rewrite <- app_assoc.
Qed.

Lemma note_inv_recycle is_keyframe done hd m r φ ups m' :
  pm_inv m -> note_inv done hd m r φ -> recycle is_keyframe m = (ups, Ok m') ->
  note_inv done hd m' (add_ups ups r) φ.
Proof.
  intros Hinv [N1 N2] Hrec.
  destruct (recycle_spec _ _ _ _ Hinv Hrec) as (mf & _ & _ & _ & -> & _).
  split.
  - intros id a Hget. apply dict_get_Some_elem in Hget.
    unfold recycled_state in Hget. cbn in Hget.
    apply list_elem_of_filter in Hget as [_ Hget].
    assert (Hpid : pid_of (recycled_state is_keyframe m mf) a = pid_of m a).
    { unfold pid_of, recycled_state. cbn. destruct is_keyframe; [apply pid_age_heap|done]. }
    rewrite Hpid. apply N1. apply dict_get_elem; [by apply inv_pointer_keys|done].
  - intros t. rewrite touches_add_ups. apply N2.
Qed.

Lemma plan_frame_note t done hd m r φ item m' r' :
  frame_inv t done m r -> t <= fst item ->
  (forall id, is_Some (gesture_run Fresh (gesture_of id (done ++ snd item)))) ->
  note_inv done hd m r φ ->
  plan_frame E (m, r) item = Ok (m', r') ->
  exists φ',
    note_inv (done ++ snd item)
      (fun t' => hd t' ++ (if decide (fst item = t') then snd item else [])) m' r' φ'.
Proof.
  intros [Hinv Hnow Htr Hg] Hle Hdisc Hnote. unfold plan_frame. cbn [fst snd].
  set (ms := fst item).
  assert (Hinv0 : plan_inv done (set_now ms m) r).
  { split.
    - by apply pm_inv_set_now.
    - apply (trace_inv_mono t); [done|]. destruct Htr as [T1 T2]. by split.
    - exact Hg. }
  assert (Hnote0 : note_inv done hd (set_now ms m) r φ).
  { destruct Hnote as [N1 N2]. by split. }
  change ms with (now (set_now ms m)) at 1.
  destruct (fold_res _ (snd item) _) as [[[m1 r1] kf]|] eqn:Hfold; cbn [mbind Res_bind]; [|done].
  destruct (handle_all_note (snd item) done hd (set_now ms m) r false φ m1 r1 kf)
    as [φ' Hnote1]; [done|done|done|done|].
  apply (handle_all_inv E (snd item) done (set_now ms m)) in Hfold
    as [[Hinv1 _ _] _]; [|done|done].
  destruct (recycle kf m1) as [ups [m2|]] eqn:Hrec; cbn; [|done].
  intros [= <- <-]. exists φ'. by eapply note_inv_recycle.
Qed.

Lemma plan_from_note batches t done hd m r φ m' r' :
  frame_inv t done m r -> ascending t batches ->
  disciplined (done ++ flatten batches) ->
  note_inv done hd m r φ ->
  fold_res (plan_frame E) batches (m, r) = Ok (m', r') ->
  exists φ',
    note_inv (done ++ flatten batches) (fun t' => hd t' ++ handled batches t') m' r' φ'.
Proof.
  revert t done hd m r φ.
  induction batches as [|item batches IH]; intros t done hd m r φ Hinv Hasc Hdisc Hnote.
  - cbn. intros [= <- <-]. exists φ. rewrite app_nil_r.
    eapply note_inv_ext; [|exact Hnote]. intros t'. unfold handled. cbn. by rewrite app_nil_r.
  - cbn [fold_res]. destruct (plan_frame E (m, r) item) as [[m1 r1]|] eqn:Hf;
      cbn [mbind Res_bind]; [|done].
    intros Hrest. destruct Hasc as [Hle Hasc].
    assert (Hflat : flatten (item :: batches) = snd item ++ flatten batches).
    { unfold flatten. by rewrite bind_cons. }
    rewrite Hflat, app_assoc in Hdisc |- *.
    assert (Hd1 : forall id, is_Some (gesture_run Fresh (gesture_of id (done ++ snd item))))
      by (intros id; by eapply disciplined_prefix).
    destruct (plan_frame_note t done hd m r φ item m1 r1) as [φ1 Hnote1]; try done.
    pose proof (plan_frame_inv E t done m r item m1 r1 Hinv Hle Hd1 Hf) as Hinv1.
    destruct (IH _ _ _ _ _ _ Hinv1 Hasc Hdisc Hnote1 Hrest) as [φ' Hnote'].
    exists φ'. eapply note_inv_ext; [|exact Hnote']. intros t'. cbv beta.
    unfold handled. rewrite bind_cons. by rewrite <- app_assoc.
Qed.

(** X20.  For every chart whose HOLD notes do not
    end before they start, when [solve] returns, each event id has one
    pointer id: all the touches written for the frame events of one note
    (which share its event id) carry the same pointer id. *)
Theorem one_pointer_per_note chart result :
  holds_nonneg chart ->
  solve E chart = Ok result ->
  exists φ : Z -> Z,
    forall t, Forall2 (fun fe ve => pointer_id ve = φ (fe_id fe))
                (events_at (synthesize E chart) t) (touches (events_at result t)).
Proof.
  intros Hhold. unfold solve, plan_and_finish, plan.
  destruct (fold_res _ _ _) as [[m r]|] eqn:Hplan; cbn [mbind Res_bind]; [|done].
  intros [= <-].
  destruct (sorted_items_ascending (synthesize E chart)) as [t0 Hasc].
  pose proof (synthesize_disciplined E chart Hhold) as Hdisc.
  destruct (plan_from_note (sorted_items (synthesize E chart)) t0 [] (fun _ => [])
              (PointerManager_init 1000 1) ∅ (fun _ => 0) m r
              (frame_inv_init t0) Hasc Hdisc) as [φ [_ N2]]; [|exact Hplan|].
  { split; [done|]. intros t. unfold events_at. rewrite lookup_empty. constructor. }
  exists φ. intros t. rewrite touches_add_ups. specialize (N2 t).
  cbn [app] in N2. rewrite handled_sorted_items in N2.
  eapply Forall2_impl; [exact N2|]. by intros fe ve [? _].
Qed.
End OnePointerPlan.

Lemma mixed_chart_holds : holds_nonneg mixed_chart.
Proof.
  intros line event Hl Hev Ht. apply list_elem_of_singleton in Hl. subst line.
  cbn [still_line notes_above notes_below app] in Hev.
  rewrite !elem_of_cons, elem_of_nil in Hev.
  destruct Hev as [->|[->|[->|[->|[]]]]]; try discriminate Ht.
  vm_compute. discriminate.
Qed.

Lemma one_pointer_per_note_witness :
  holds_nonneg mixed_chart
  /\ solve (env_of pop_smallest) mixed_chart = Ok (solved (env_of pop_smallest) mixed_chart)
  /\ exists φ : Z -> Z,
       Forall2 (fun fe ve => pointer_id ve = φ (fe_id fe))
         (events_at (synthesize (env_of pop_smallest) mixed_chart) 1500)
         (touches (events_at (solved (env_of pop_smallest) mixed_chart) 1500)).
Proof.
  split; [exact mixed_chart_holds|]. split; [exact mixed_chart_solved|].
  destruct (one_pointer_per_note (env_of pop_smallest) mixed_chart _
              mixed_chart_holds mixed_chart_solved) as [φ Hφ].
  exists φ. apply Hφ.
Defined.

Section Compact.
Variable E : Env.
Implicit Types (m : PointerManager).

Lemma alloc_full_ext m m' lv lv' :
  begin m' = begin m -> delta m' = delta m ->
  max_pointer_id m' = max_pointer_id m -> recycled m' = recycled m ->
  (forall p, p ∈ pid_of m <$> lv -> p ∈ pid_of m' <$> lv') ->
  (lv' = [] -> lv = []) ->
  alloc_full m lv -> alloc_full m' lv'.
Proof.
  intros Hb Hd Hm Hr Hsub Hnil (n & H1 & H2 & H3). exists n.
  unfold allocated_below. rewrite Hb, Hd, Hm, Hr. split_and!; [done| |auto].
  intros p Hp. destruct (H2 p Hp); auto.
Qed.

Lemma alloc_full_new m lv m' lv' :
  alloc_full m lv ->
  begin m' = begin m -> delta m' = delta m ->
  max_pointer_id m' = max_pointer_id (snd (_new E m)) ->
  recycled m' = recycled (snd (_new E m)) ->
  (forall q, q ∈ pid_of m' <$> lv' <-> q = fst (_new E m) \/ q ∈ pid_of m <$> lv) ->
  alloc_full m' lv'.
Proof.
  intros (n & H1 & H2 & H3) Hb Hd Hm Hr Hlv. unfold _new in *.
  assert (Hne : lv' <> []).
  { intros ->. specialize (Hlv (fst (if decide (recycled m = ∅)
        then (max_pointer_id m, set_max_pointer_id (max_pointer_id m + delta m) m)
        else let p := set_pop (pop E) (pops m) (recycled m) in
             (p, set_pops (S (pops m)) (set_recycled (recycled m ∖ {[p]}) m))))).
    destruct Hlv as [_ Hlv]. specialize (Hlv (or_introl eq_refl)).
    by apply elem_of_nil in Hlv. }
  destruct (decide (recycled m = ∅)) as [Hemp|Hnemp]; cbn in *.
  - exists (S n). unfold allocated_below. rewrite Hb, Hd, Hm, Hr. split_and!; [lia| |done].
    intros p (i & Hi & ->). right. apply Hlv.
    destruct (decide (i = n)) as [->|Hin]; [left; lia|]. right.
    destruct (H2 (begin m + Z.of_nat i * delta m)) as [Hp|Hp]; [exists i; split; [lia|done]| |done].
    rewrite Hemp in Hp. set_solver.
  - exists n. unfold allocated_below. rewrite Hb, Hd, Hm, Hr. split_and!; [done| |done].
    intros p Hp. destruct (H2 p Hp) as [Hrec|Hin].
    + destruct (decide (p = set_pop (pop E) (pops m) (recycled m))) as [->|Hnp].
      * right. apply Hlv. by left.
      * left. set_solver.
    + right. apply Hlv. by right.
Qed.

Lemma alloc_full_del m lv a m' :
  alloc_ok m lv -> alloc_full m lv -> a ∈ lv -> _del (pid_of m a) m = Ok m' ->
  alloc_full m' (filter (fun b => b <> a) lv).
Proof.
  intros Hok (n & F1 & F2 & F3) Ha Hdel. pose proof Hok as [H1 H2 H3 H4 (n' & H5 & H6 & H7) H8].
  assert (n' = n) as -> by (assert (Z.of_nat n' = Z.of_nat n) by nia; lia).
  pose proof (_del_fields _ _ _ Hdel) as (_ & Gb & Gd & _ & _ & _ & _ & Gh).
  assert (Hpid : pid_of m' = pid_of m) by (unfold pid_of; by rewrite Gh).
  destruct (_del_cases (pid_of m a) m H1) as [[_ Heq]|[Hnf Heq]];
    rewrite Heq in Hdel; injection Hdel as <-.
  - exists 0%nat. cbn. split_and!; [lia| |done].
    intros p (i & Hi & _). lia.
  - exists n. unfold allocated_below in *. cbn. split_and!; [done| |].
    + intros p Hp. destruct (F2 p Hp) as [Hr|Hin]; [left; set_solver|].
      apply list_elem_of_fmap in Hin as (b & -> & Hb).
      destruct (decide (b = a)) as [->|Hne]; [left; set_solver|].
      right. apply list_elem_of_fmap. exists b. split; [done|].
      by apply list_elem_of_filter.
    + intros Hnil. exfalso. apply Hnf.
      assert (Hall : {[pid_of m a]} ∪ recycled m = handed_out m n).
      { apply set_eq. intros p. rewrite elem_of_handed_out. split.
        - intros [->%elem_of_singleton|Hp]%elem_of_union;
            [exact (H7 a Ha)|exact (H6 p Hp)].
        - intros Hp. destruct (F2 p Hp) as [Hr|Hin]; [set_solver|].
          apply list_elem_of_fmap in Hin as (b & -> & Hb).
          destruct (decide (b = a)) as [->|Hne]; [set_solver|].
          assert (Hf : b ∈ filter (fun b => b <> a) lv) by (by apply list_elem_of_filter).
          rewrite Hnil in Hf. by apply elem_of_nil in Hf. }
      rewrite Hall, size_handed_out by done. lia.
Qed.

Lemma alloc_full_free_all exp m lv mf :
  alloc_ok m lv -> alloc_full m lv -> NoDup exp -> (forall a, a ∈ exp -> a ∈ lv) ->
  free_all (pid_of m <$> exp) m = Ok mf ->
  alloc_full mf (filter (fun b => b ∉ exp) lv).
Proof.
  revert m lv. induction exp as [|a exp IH]; intros m lv Hok Hfull Hnd Hsub.
  - unfold free_all. simpl. intros [= <-].
    rewrite filter_all; [done|]. intros b. apply not_elem_of_nil.
  - apply NoDup_cons in Hnd as [Ha Hnd].
    unfold free_all. rewrite fmap_cons. cbn [fold_res].
    destruct (_del (pid_of m a) m) as [m1|] eqn:Hdel; [|done]. cbn.
    intros Hfree. fold (free_all (pid_of m <$> exp) m1) in Hfree.
    pose proof (_del_fields _ _ _ Hdel) as (_ & _ & _ & _ & _ & _ & _ & Hh).
    assert (Hpid : pid_of m1 = pid_of m).
    { unfold pid_of. by rewrite Hh. }
    rewrite <- Hpid in Hfree.
    apply (IH m1 (filter (fun b => b <> a) lv)) in Hfree.
    + rewrite list_filter_filter in Hfree.
      erewrite list_filter_iff; [exact Hfree|].
      intros b. simpl. rewrite not_elem_of_cons. tauto.
    + eapply _del_alloc; [done| |done]. apply Hsub. left.
    + eapply alloc_full_del; [done|done| |done]. apply Hsub. left.
    + done.
    + intros b Hb. apply list_elem_of_filter. split; [by intros ->|].
      apply Hsub. by right.
Qed.

Lemma live_acquired event new m m' p fresh :
  pm_inv m -> acquire E event new m = Ok (m', (p, fresh)) ->
  (forall q, q ∈ pid_of m' <$> live m'
             <-> (fresh = true /\ q = p) \/ q ∈ pid_of m <$> live m).
Proof.
  intros Hinv Hacq.
  destruct (acquire_effect E event new m Hinv)
    as (m0 & p0 & fresh0 & a & Hacq' & Hget & Hpid & _ & _ & _ & Hp & Hu & Hsame & Hf & _).
  rewrite Hacq in Hacq'. injection Hacq' as <- <- <-.
  assert (Hlive : forall b, b ∈ live m' <-> b = a \/ b ∈ live m).
  { intros b. unfold live. rewrite !elem_of_app, Hp, Hu.
    destruct (decide (b = a)) as [->|Hne]; [|tauto].
    split; [auto|]. intros _. left. by left. }
  assert (Hpids : forall b, b ∈ live m -> pid_of m' b = pid_of m b).
  { intros b Hb. destruct (decide (b = a)) as [->|Hne].
    - unfold pid_of at 1. rewrite Hpid. destruct fresh; [by destruct Hf|]. by destruct Hf.
    - unfold pid_of. by rewrite Hsame. }
  intros q. rewrite !list_elem_of_fmap. split.
  - intros (b & -> & [->|Hb]%Hlive).
    + destruct fresh.
      * left. done.
      * right. destruct Hf as [Ha Hpa]. exists a. split; [|done]. unfold pid_of at 1. congruence.
    + right. exists b. split; [by apply Hpids|done].
  - intros [[-> ->]|(b & -> & Hb)].
    + exists a. split; [done|]. apply Hlive. by left.
    + exists b. split; [symmetry; by apply Hpids|]. apply Hlive. by right.
Qed.

Lemma alloc_full_acquire event new m m' r :
  pm_inv m -> alloc_full m (live m) -> acquire E event new m = Ok (m', r) ->
  alloc_full m' (live m').
Proof.
  intros Hinv Hfull Hacq. destruct r as [p fresh].
  pose proof (live_acquired _ _ _ _ _ _ Hinv Hacq) as Hlive.
  assert (Hnil : fresh = false -> live m' = [] -> live m = []).
  { intros -> Hn. apply elem_of_nil_inv. intros b Hb.
    assert (Hq : pid_of m b ∈ pid_of m' <$> live m').
    { apply Hlive. right. apply list_elem_of_fmap. by exists b. }
    rewrite Hn in Hq. by apply elem_of_nil in Hq. }
  pose proof Hacq as Hcases.
  apply acquire_cases in Hcases
    as [(a & _ & -> & [= -> ->])|[(np & a & _ & _ & _ & _ & _ & -> & [= -> ->])|(Hnone & _ & Hfp)]].
  - apply (alloc_full_ext m _ (live m)); [done|done|done|done| |by apply Hnil|done].
    intros q Hq. apply Hlive. by right.
  - apply (alloc_full_ext m _ (live m)); [done|done|done|done| |by apply Hnil|done].
    intros q Hq. apply Hlive. by right.
  - unfold fresh_pointer in Hfp. pose proof (_new_fields E m) as Hf.
    destruct (_new E m) as [q m1] eqn:Hn. cbn in Hf.
    destruct Hf as (_ & Fb & Fd & _).
    injection Hfp as Hm' Hp Hfresh. subst fresh p.
    apply (alloc_full_new m (live m) m' (live m')); [done| | | | |].
    + by subst m'.
    + by subst m'.
    + rewrite Hn. by subst m'.
    + rewrite Hn. by subst m'.
    + intros q'. rewrite Hlive, Hn. cbn. intuition congruence.
Qed.

Lemma alloc_full_recycle is_keyframe m ups m' :
  pm_inv m -> alloc_full m (live m) -> recycle is_keyframe m = (ups, Ok m') ->
  alloc_full m' (live m').
Proof.
  intros Hinv Hfull Hrec. pose proof (inv_alloc _ Hinv) as Hok.
  destruct (recycle_spec _ _ _ _ Hinv Hrec) as (mf & Hfree & _ & _ & -> & _).
  assert (Hexp_nd : NoDup (expiring is_keyframe m)).
  { unfold expiring. destruct is_keyframe; [|apply NoDup_nil_2].
    apply NoDup_filter. pose proof (ok_nodup _ _ Hok) as Hnd.
    unfold live in Hnd. by apply NoDup_app in Hnd as (_ & _ & ?). }
  assert (Hexp_live : forall a, a ∈ expiring is_keyframe m -> a ∈ live m).
  { intros a [k Hk]%expiring_unused. by eapply live_unused. }
  pose proof (alloc_full_free_all _ _ _ _ Hok Hfull Hexp_nd Hexp_live Hfree) as Hmf.
  pose proof (free_all_fields _ _ _ Hfree) as (_ & _ & _ & _ & _ & _ & _ & Hh).
  assert (Hpid : forall b, pid_of (recycled_state is_keyframe m mf) b = pid_of mf b).
  { intros b. unfold pid_of, recycled_state. cbn. rewrite Hh.
    destruct is_keyframe; [apply pid_age_heap|done]. }
  apply (alloc_full_ext mf _ (filter (fun b => b ∉ expiring is_keyframe m) (live m)));
    [done|done|done|done| | |done].
  - intros q (b & -> & [Hb Hne]%list_elem_of_filter)%list_elem_of_fmap.
    apply list_elem_of_fmap. exists b. split; [by rewrite Hpid|].
    by apply live_recycled.
  - intros Hnil. apply elem_of_nil_inv. intros b [Hb Hne]%list_elem_of_filter.
    assert (Hl : b ∈ live (recycled_state is_keyframe m mf)) by (by apply live_recycled).
    rewrite Hnil in Hl. by apply elem_of_nil in Hl.
Qed.

Lemma reachable_full m : reachable E m -> alloc_full m (live m) /\ delta m = 1.
Proof.
  induction 1 as [b|m ms Hr IH|m event new m' r Hr IH Hacq|m event Hr IH
                 |m kf ups m' Hr IH Hrec].
  - split; [|done]. exists 0%nat. cbn. split_and!; [lia| |done].
    intros p (i & Hi & _). lia.
  - destruct IH as [IH Hd]. split; [|done]. by eapply (alloc_full_ext m).
  - destruct IH as [IH Hd]. pose proof (reachable_inv E m Hr) as Hinv. split.
    + by eapply alloc_full_acquire.
    + destruct (acquire_effect E event new m Hinv)
        as (m0 & p0 & fresh0 & a & Hacq' & _ & _ & _ & _ & _ & _ & _ & _ & _ & _ & _ & Hd' & _).
      rewrite Hacq in Hacq'. injection Hacq' as <- _. congruence.
  - destruct IH as [IH Hd]. destruct (release_fields event m) as (Hp & Hh & Hu & _).
    assert (Hl : live (release event m) = live m) by (unfold live; by rewrite Hp, Hu).
    assert (Hf : begin (release event m) = begin m /\ delta (release event m) = delta m
                 /\ max_pointer_id (release event m) = max_pointer_id m
                 /\ recycled (release event m) = recycled m).
    { unfold release. by destruct (dict_get _ _). }
    destruct Hf as (F1 & F2 & F3 & F4). split; [|congruence].
    apply (alloc_full_ext m _ (live m)); [done|done|done|done| | |done].
    + rewrite Hl. unfold pid_of. by rewrite Hh.
    + by rewrite Hl.
  - destruct IH as [IH Hd]. pose proof (reachable_inv E m Hr) as Hinv. split.
    + by eapply alloc_full_recycle.
    + destruct (recycle_spec _ _ _ _ Hinv Hrec) as (mf & Hfree & _ & _ & -> & _).
      pose proof (free_all_fields _ _ _ Hfree) as (_ & _ & Fd & _). cbn. congruence.
Qed.

(** X21.  In every state the planner can reach, the pids
    from [begin] up to [max_pointer_id] are exactly the recycled pids and
    the pids of the pointers in use, and no pid is both.  When no pointer is
    in use, the allocator is back at its start: [max_pointer_id] is [begin]
    and [recycled] is empty, so the next fresh pid is [begin] again. *)
Theorem pids_compact m :
  reachable E m ->
  (forall p, begin m <= p < max_pointer_id m
             <-> p ∈ recycled m \/ p ∈ pid_of m <$> live m)
  /\ (forall p, p ∈ recycled m -> p ∉ pid_of m <$> live m)
  /\ (live m = [] ->
      max_pointer_id m = begin m /\ recycled m = ∅ /\ fst (_new E m) = begin m).
Proof.
  intros Hr. destruct (reachable_full m Hr) as [(n & F1 & F2 & F3) Hd].
  pose proof (reachable_inv E m Hr) as Hinv.
  pose proof (inv_alloc _ Hinv) as [H1 H2 H3 H4 (n' & H5 & H6 & H7) H8].
  assert (n' = n) as -> by (assert (Z.of_nat n' = Z.of_nat n) by nia; lia).
  assert (Hab : forall p, allocated_below m n p <-> begin m <= p < max_pointer_id m).
  { intros p. unfold allocated_below. rewrite F1, Hd. split.
    - intros (i & Hi & ->). lia.
    - intros Hp. exists (Z.to_nat (p - begin m)). split; lia. }
  split_and!.
  - intros p. rewrite <- Hab. split; [apply F2|].
    intros [Hp|(b & -> & Hb)%list_elem_of_fmap]; auto.
  - intros p Hp (b & -> & Hb)%list_elem_of_fmap. by apply (H8 b).
  - intros Hnil. destruct (F3 Hnil) as [-> Hrec]. split_and!; [lia|done|].
    unfold _new. rewrite decide_True by done. cbn. lia.
Qed.
End Compact.

Lemma pids_compact_witness :
  reachable (env_of pop_smallest) (manager_of third_tap_handled)
  /\ forall p,
       begin (manager_of third_tap_handled) <= p < max_pointer_id (manager_of third_tap_handled)
       <-> p ∈ recycled (manager_of third_tap_handled)
           \/ p ∈ pid_of (manager_of third_tap_handled) <$> live (manager_of third_tap_handled).
Proof.
  split; [exact third_tap_reachable|].
  exact (proj1 (pids_compact (env_of pop_smallest) _ third_tap_reachable)).
Defined.
